(** * Traffic simulation core of better-bridgeway-builder (street.ts)

    A shallow embedding of the street/traffic logic: obstacles and their
    speed and passing policies, obstacle producers, lanes, the street's
    obstacle generation and the crosswalk sign.

    Modelling conventions.
    - A JavaScript [number] that holds a coordinate, a size or a speed is
      an exact rational ([Q]); the constants of the program (0.25, 0.5, 1,
      8, 100, 200, 500, 1000) are exactly representable either way.  The
      two places where the program uses [Infinity], [-Infinity] and
      [undefined] are modelled by [Distance] and [option TimeToCollision].
    - Objects that the program compares with [===] or mutates carry a
      reference ([oid], [pref]); [new] allocates the next free reference
      of the [World].
    - [Date.now()] and [Math.random()] read the environment: the [World]
      holds both as streams together with the number of readings taken
      so far.
    - A [throw] is the [Thrown] outcome of the monad [M]; the world reached
      at the [throw] is kept. *)

From Stdlib Require Import QArith ZArith List Bool String Lia Lqa Qabs Qminmax Qround.
Import ListNotations.

Local Open Scope Q_scope.

(** ** Numbers *)

Definition Qltb (a b : Q) : bool := negb (Qle_bool b a).

(** The result of [calculateDistanceToClosestObject]: a finite distance
    or [Infinity]. *)
Inductive Distance : Type :=
| Finite (d : Q)
| Infinity.

(** [distance < bound] for a finite [bound]. *)
Definition distanceBelow (d : Distance) (bound : Q) : bool :=
  match d with
  | Finite q => Qltb q bound
  | Infinity => false
  end.

(** The numeric results of [calculateTimeToCollision]; [undefined] is the
    [None] of [option TimeToCollision]. *)
Inductive TimeToCollision : Type :=
| NegInfinity
| Time (t : Q).

(** ** Enumerations *)

Inductive LaneDirection : Type := LEFT | RIGHT.

Definition directionValue (d : LaneDirection) : Q :=
  match d with
  | LEFT => -1
  | RIGHT => 1
  end.

Definition LaneDirection_eqb (a b : LaneDirection) : bool :=
  match a, b with
  | LEFT, LEFT | RIGHT, RIGHT => true
  | _, _ => false
  end.

Module ObstacleSpeeds.
Definition STOPPED : Q := 0.
Definition SLOW : Q := 4.
Definition MEDIUM : Q := 10.
Definition FAST : Q := 14.
End ObstacleSpeeds.

Inductive ObstacleAvoidanceType : Type := NONE | BRAKE | PASS.

Definition ObstacleAvoidanceType_eqb (a b : ObstacleAvoidanceType) : bool :=
  match a, b with
  | NONE, NONE | BRAKE, BRAKE | PASS, PASS => true
  | _, _ => false
  end.

(** ** Game objects *)

Definition ref := nat.
Bind Scope nat_scope with ref.

(** An [HTMLImageElement], identified by its [src]. *)
Definition Image := string.

(** The rotation of a game object: the program only uses 0 and [Math.PI]. *)
Inductive Angle : Type := AngleZero | AnglePi.

(** Modelled from the spec: the base class [GameObject] of game.ts, which
    is not among the sources.  A movable entity has a position, a size, an
    optional image, an optional horizontal flip and an optional rotation,
    in the order of the calls
    [super(x, y, width, height, image, flipHorizontally, angle)]; [oid] is
    the reference of the object. *)
Record GameObject : Type := mkGameObject {
  oid : ref;
  x : Q;
  y : Q;
  width : Q;
  height : Q;
  image : option Image;
  flipHorizontally : bool;
  angle : Angle
}.

(** Modelled from the spec: [GameObject.intersects] (game.ts is not among
    the sources).  Two boxes overlap iff neither lies entirely to the left
    of, to the right of, above or below the other; a zero gap on one axis
    is no overlap. *)
Definition intersects (a b : GameObject) : bool :=
  Qltb (x a) (x b + width b) && Qltb (x b) (x a + width a) &&
  Qltb (y a) (y b + height b) && Qltb (y b) (y a + height a).

Record Obstacle : Type := mkObstacle {
  obstacleObject :> GameObject;
  speed : Q;
  direction : LaneDirection;
  avoidance : ObstacleAvoidanceType;
  detectCollisions : bool;
  emergencyVehicle : bool;
  originalSpeed : Q;
  originalY : Q
}.

(** Modelled from the spec: the class [Player] of player.ts, which is not
    among the sources.  The player is a game object, and the street only
    uses its box. *)
Record Player : Type := mkPlayer {
  playerObject :> GameObject
}.

Record CrosswalkSign : Type := mkCrosswalkSign {
  signObject :> GameObject;
  CrosswalkSign_direction : LaneDirection;
  crosswalk : GameObject;
  flashing : bool;
  flashingSequence : bool;
  timestampOfPreviousFlash : Z;
  notFlashingImage : Image;
  flashingImage : Image
}.

(** A reference of static type [GameObject] together with its dynamic
    class, which [instanceof] inspects. *)
Inductive Entity : Type :=
| AnObstacle (o : Obstacle)
| APlayer (p : Player)
| ACrosswalkSign (s : CrosswalkSign)
| AGameObject (g : GameObject).

Definition entityObject (e : Entity) : GameObject :=
  match e with
  | AnObstacle o => o
  | APlayer p => p
  | ACrosswalkSign s => s
  | AGameObject g => g
  end.

Coercion entityObject : Entity >-> GameObject.

(** [e instanceof Obstacle], [e instanceof Player], [e instanceof CrosswalkSign]. *)
Definition instanceofObstacle (e : Entity) : option Obstacle :=
  match e with AnObstacle o => Some o | _ => None end.

Definition instanceofPlayer (e : Entity) : option Player :=
  match e with APlayer p => Some p | _ => None end.

Definition instanceofCrosswalkSign (e : Entity) : option CrosswalkSign :=
  match e with ACrosswalkSign s => Some s | _ => None end.

(** [e === this] for an obstacle [this]: only an obstacle can be the same
    object. *)
Definition sameObstacle (o this : Obstacle) : bool := Nat.eqb (oid o) (oid this).

Definition isObstacle (e : Entity) (this : Obstacle) : bool :=
  match e with
  | AnObstacle o => sameObstacle o this
  | _ => false
  end.

(** The classes whose instances are passed where a [GameObject] is
    expected. *)
Class IsGameObject (A : Type) : Type := asGameObject : A -> GameObject.

#[export] Instance GameObject_IsGameObject : IsGameObject GameObject := fun g => g.
#[export] Instance Obstacle_IsGameObject : IsGameObject Obstacle := obstacleObject.
#[export] Instance Player_IsGameObject : IsGameObject Player := playerObject.
#[export] Instance Entity_IsGameObject : IsGameObject Entity := entityObject.

(** ** The world and the monad of effects *)

Record World : Type := mkWorld {
  nextRef : ref;                 (* the next free object reference *)
  dateNowCalls : nat;            (* readings of [Date.now()] taken so far *)
  clock : nat -> Z;              (* what the n-th reading of [Date.now()] returns *)
  randomCalls : nat;             (* readings of [Math.random()] taken so far *)
  randomSource : nat -> Q;       (* what the n-th reading of [Math.random()] returns *)
  lastObstacleTime : ref -> Z    (* the field [lastObstacleTime] of each producer *)
}.

Inductive Outcome (A : Type) : Type :=
| Returned (a : A)
| Thrown (message : string).

Arguments Returned {A} a.
Arguments Thrown {A} message.

Definition M (A : Type) : Type := World -> Outcome A * World.

Definition ret {A : Type} (a : A) : M A := fun w => (Returned a, w).

Definition bind {A B : Type} (c : M A) (k : A -> M B) : M B :=
  fun w =>
    match c w with
    | (Returned a, w') => k a w'
    | (Thrown message, w') => (Thrown message, w')
    end.

Declare Scope effect_scope.
Delimit Scope effect_scope with effect.
Notation "x <- c ;; k" := (bind c (fun x => k))
  (at level 61, c at next level, right associativity) : effect_scope.
Local Open Scope effect_scope.

Definition throw {A : Type} (message : string) : M A := fun w => (Thrown message, w).

(** [new]: takes the next free reference. *)
Definition newRef : M ref :=
  fun w =>
    (Returned (nextRef w),
     mkWorld (S (nextRef w)) (dateNowCalls w) (clock w) (randomCalls w)
             (randomSource w) (lastObstacleTime w)).

Definition Date_now : M Z :=
  fun w =>
    (Returned (clock w (dateNowCalls w)),
     mkWorld (nextRef w) (S (dateNowCalls w)) (clock w) (randomCalls w)
             (randomSource w) (lastObstacleTime w)).

Definition Math_random : M Q :=
  fun w =>
    (Returned (randomSource w (randomCalls w)),
     mkWorld (nextRef w) (dateNowCalls w) (clock w) (S (randomCalls w))
             (randomSource w) (lastObstacleTime w)).

Definition readLastObstacleTime (producer : ref) : M Z :=
  fun w => (Returned (lastObstacleTime w producer), w).

Definition writeLastObstacleTime (producer : ref) (t : Z) : M unit :=
  fun w =>
    (Returned tt,
     mkWorld (nextRef w) (dateNowCalls w) (clock w) (randomCalls w) (randomSource w)
             (fun r => if Nat.eqb r producer then t else lastObstacleTime w r)).

(** ** Obstacle *)

Definition new_Obstacle (x y width height speed : Q) (direction : LaneDirection)
    (image : option Image) (avoidance : ObstacleAvoidanceType)
    (detectCollisions emergencyVehicle : bool) (originalSpeed originalY : Q)
    : M Obstacle :=
  r <- newRef ;;
  ret (mkObstacle
         (mkGameObject r x y width height image
                       (LaneDirection_eqb direction LEFT) AngleZero)
         speed direction avoidance detectCollisions emergencyVehicle
         originalSpeed originalY).

Definition getCrashedImage : Image := "images/obstacles/crashed.png"%string.

Definition clone (this : Obstacle) (x' y' : Q) : M Obstacle :=
  new_Obstacle x' y' (width this) (height this) (speed this) (direction this)
               (image this) (avoidance this) (detectCollisions this)
               (emergencyVehicle this) (originalSpeed this) (originalY this).

Definition collisionDetected (this : Obstacle) (obstacles : list Obstacle) : bool :=
  existsb (fun obstacle =>
             if sameObstacle obstacle this then false
             else intersects this obstacle)
          obstacles.

(** [distance < closestDistance], where [closestDistance] starts at
    [Infinity]. *)
Definition closerThan (distance : Q) (closestDistance : Distance) : bool :=
  match closestDistance with
  | Finite c => Qltb distance c
  | Infinity => true
  end.

Definition isObjectInLane (this : Obstacle) (g : GameObject) : bool :=
  Qle_bool (y this - height this) (y g) && Qle_bool (y g) (y this + height this).

Definition isObjectInFront (this : Obstacle) (g : GameObject) : bool :=
  isObjectInLane this g &&
  ((LaneDirection_eqb (direction this) RIGHT && Qltb (x this) (x g)) ||
   (LaneDirection_eqb (direction this) LEFT && Qltb (x g) (x this))).

(** One iteration of the [forEach] of [getClosestObject] on the pair
    [(closestObstacle, closestDistance)]. *)
Definition closestStep {A : Type} `{IsGameObject A} (this : Obstacle)
    (acc : option A * Distance) (gameObject : A) : option A * Distance :=
  if isObjectInFront this (asGameObject gameObject) then
    let distance := Qabs (x this - x (asGameObject gameObject)) in
    if closerThan distance (snd acc) then (Some gameObject, Finite distance)
    else acc
  else acc.

Definition getClosestObject {A : Type} `{IsGameObject A} (this : Obstacle)
    (gameObjects : list A) : option A :=
  fst (fold_left (closestStep this) gameObjects (None, Infinity)).

Definition getDistanceTo (this : Obstacle) (gameObject : GameObject) : Q :=
  Qabs (x this - x gameObject).

Definition calculateTimeToCollision (this : Obstacle) (gameObjects : list Entity)
    : option TimeToCollision :=
  match getClosestObject this gameObjects with
  | None => None
  | Some closestObstacle =>
      let distanceToClosestObstacle := getDistanceTo this closestObstacle in
      let relativeSpeed :=
        speed this -
        match instanceofObstacle closestObstacle with
        | Some o => speed o
        | None => 0
        end in
      if Qle_bool relativeSpeed 0 then Some NegInfinity
      else Some (Time (distanceToClosestObstacle / relativeSpeed))
  end.

Definition calculateDistanceToClosestObject (this : Obstacle)
    (gameObjects : list Entity) : Distance :=
  match getClosestObject this gameObjects with
  | Some closest => Finite (getDistanceTo this closest)
  | None => Infinity
  end.

Definition emergencyVehicleDetected (this : Obstacle) (obstacles : list Obstacle)
    : bool :=
  existsb (fun obstacle =>
             if sameObstacle obstacle this then false
             else emergencyVehicle obstacle)
          obstacles.

(** [timeToCollision && timeToCollision > 0 && timeToCollision < 100]:
    [undefined] and 0 are falsy, [-Infinity] is not positive. *)
Definition timeToCollisionBrakes (timeToCollision : option TimeToCollision) : bool :=
  match timeToCollision with
  | None => false
  | Some NegInfinity => false
  | Some (Time t) => negb (Qeq_bool t 0) && Qltb 0 t && Qltb t 100
  end.

Definition calculateSpeed (this : Obstacle) (player : Player)
    (obstacles : list Obstacle) : Q :=
  if ObstacleAvoidanceType_eqb (avoidance this) BRAKE then
    let gameObjects : list Entity :=
      filter (fun gameObject => negb (isObstacle gameObject this))
             (map AnObstacle obstacles ++ [APlayer player]) in
    let timeToCollision := calculateTimeToCollision this gameObjects in
    let newSpeed := speed this in
    let newSpeed :=
      if timeToCollisionBrakes timeToCollision then newSpeed - 0.5 else newSpeed in
    let distanceToClosest := calculateDistanceToClosestObject this gameObjects in
    let newSpeed :=
      if distanceBelow distanceToClosest 200 then newSpeed - 0.5 else newSpeed in
    let newSpeed :=
      if distanceBelow distanceToClosest 100
         || emergencyVehicleDetected this obstacles
      then newSpeed - 1
      else if negb (Qeq_bool (originalSpeed this) 0)
              && Qltb newSpeed (originalSpeed this)
      then newSpeed + 0.25
      else newSpeed in
    Qmax newSpeed 0
  else speed this.

Definition calculateYForPassing (this : Obstacle) (player : Player)
    (obstacles : list Obstacle) : M Q :=
  if negb (ObstacleAvoidanceType_eqb (avoidance this) PASS) then ret (y this)
  else
    match getClosestObject this obstacles with
    | None => ret (y this)
    | Some closestObstacle =>
        if Qltb (speed this) (speed closestObstacle) then ret (originalY this)
        else
          let distanceAwayFromOriginal := Qabs (originalY this - y this) in
          (* [Some y'] when the block returns [y'] early *)
          returned <-
            (if Qltb (height this) distanceAwayFromOriginal then
               returnPreview <- clone this (x this) (originalY this) ;;
               if negb (collisionDetected returnPreview obstacles) then
                 match getClosestObject returnPreview obstacles with
                 | None => ret (Some (originalY this))
                 | Some closestIfReturned =>
                     if Qltb (5 * width this)
                             (getDistanceTo returnPreview closestIfReturned)
                     then ret (Some (originalY this))
                     else ret None
                 end
               else ret None
             else ret None) ;;
          match returned with
          | Some y' => ret y'
          | None =>
              if Qltb (2 * width this) (getDistanceTo this closestObstacle)
              then ret (y this)
              else
                let newY := y this in
                let directionMultiplier :=
                  if LaneDirection_eqb (direction this) RIGHT then -1 else 1 in
                let yAdjustment := 8 * directionMultiplier in
                let maxPassDistance := height this in
                if Qltb distanceAwayFromOriginal maxPassDistance
                then ret (y this + yAdjustment)
                else ret newY
          end
    end.

Definition moveObstacle (this : Obstacle) (player : Player)
    (obstacles : list Obstacle) : M Obstacle :=
  let collided := detectCollisions this && collisionDetected this obstacles in
  if collided then
    new_Obstacle (x this) (y this) (width this) (height this)
                 ObstacleSpeeds.STOPPED (direction this) (Some getCrashedImage)
                 NONE false false (originalSpeed this) (originalY this)
  else
    let adjustedSpeed := calculateSpeed this player obstacles in
    let newX := x this + adjustedSpeed * directionValue (direction this) in
    newY <- calculateYForPassing this player obstacles ;;
    new_Obstacle newX newY (width this) (height this) adjustedSpeed
                 (direction this) (image this) (avoidance this)
                 (detectCollisions this) (emergencyVehicle this)
                 (originalSpeed this) (originalY this).

(** ** Obstacle producers *)

(** The class of a producer object; a [TargetObstacleProducer] carries its
    [target]. *)
Inductive ProducerClass : Type :=
| ObstacleProducerClass
| TargetObstacleProducerClass (target : GameObject)
| CrosswalkObstacleProducerClass.

(** The readonly fields of a producer; its mutable [lastObstacleTime] lives
    in the world under [pref]. *)
Record ObstacleProducer : Type := mkObstacleProducer {
  pref : ref;
  producerClass : ProducerClass;
  template : Obstacle;
  maxFrequencyInSeconds : Q;
  assignX : bool;
  randomizeTraffic : bool
}.





(** [objects.find((object) => object instanceof C)]. *)
Fixpoint findInstance {A : Type} (instanceofC : Entity -> option A)
    (objects : list Entity) : option A :=
  match objects with
  | [] => None
  | object :: rest =>
      match instanceofC object with
      | Some found => Some found
      | None => findInstance instanceofC rest
      end
  end.

(** [ObstacleProducer.readyForNext]. *)
Definition ObstacleProducer_readyForNext (this : ObstacleProducer)
    (objects : list Entity) : M bool :=
  currentTime <- Date_now ;;
  lastTime <- readLastObstacleTime (pref this) ;;
  let timeSinceLastObstacle := inject_Z (currentTime - lastTime) / 1000 in
  ret (Qltb (maxFrequencyInSeconds this) timeSinceLastObstacle).

Definition TargetObstacleProducer_readyForNext (this : ObstacleProducer)
    (target : GameObject) (objects : list Entity) : M bool :=
  ready <- ObstacleProducer_readyForNext this objects ;;
  if ready then
    match findInstance instanceofPlayer objects with
    | None =>
        throw "Player not found and is required for TargetObstacleProducer.readyForNext"
    | Some player => ret (intersects player target)
    end
  else ret false.

Definition CrosswalkObstacleProducer_readyForNext (this : ObstacleProducer)
    (objects : list Entity) : M bool :=
  ready <- ObstacleProducer_readyForNext this objects ;;
  if ready then
    match findInstance instanceofCrosswalkSign objects with
    | None =>
        throw "CrosswalkSign not found and is required for CrosswalkObstacleProducer.readyForNext"
    | Some sign => ret (flashing sign)
    end
  else ret false.

(** The call [producer.readyForNext(objects)], dispatched on the class. *)
Definition readyForNext (this : ObstacleProducer) (objects : list Entity) : M bool :=
  match producerClass this with
  | ObstacleProducerClass => ObstacleProducer_readyForNext this objects
  | TargetObstacleProducerClass target =>
      TargetObstacleProducer_readyForNext this target objects
  | CrosswalkObstacleProducerClass =>
      CrosswalkObstacleProducer_readyForNext this objects
  end.

Definition next (this : ObstacleProducer) (x0 : Q) : M Obstacle :=
  let x0 := if negb (assignX this) then x (template this) else x0 in
  obstacle <- clone (template this) x0 (y (template this)) ;;
  now <- Date_now ;;
  _ <- writeLastObstacleTime (pref this) now ;;
  ret obstacle.

(** ** Lanes *)

Record LaneLineStyle : Type := mkLaneLineStyle {
  color : string;
  dashed : bool;
  hidden : bool;
  lineWidth : Q;
  dashLength : Q;
  dashOffLength : Q
}.

Record LaneLinesStyles : Type := mkLaneLinesStyles {
  top : LaneLineStyle;
  bottom : LaneLineStyle
}.

Record Lane : Type := mkLane {
  Lane_direction : LaneDirection;
  laneWidth : Q;
  streetLength : Q;
  centerY : Q;
  lineStyle : LaneLinesStyles;
  obstacleProducers : list ObstacleProducer;
  Lane_obstacles : list Obstacle
}.

Definition addObstacle (this : Lane) (obstacle : Obstacle) : Lane :=
  let newObstacles := Lane_obstacles this ++ [obstacle] in
  mkLane (Lane_direction this) (laneWidth this) (streetLength this) (centerY this)
         (lineStyle this) (obstacleProducers this) newObstacles.

(** [array.map(f)] for an effectful callback: the elements are visited
    in order. *)
Fixpoint mapM {A B : Type} (f : A -> M B) (l : list A) : M (list B) :=
  match l with
  | [] => ret []
  | a :: rest =>
      b <- f a ;;
      bs <- mapM f rest ;;
      ret (b :: bs)
  end.

(** The predicate of the [filter] in [Lane.updateObstacles]. *)
Definition staysInLane (this : Lane) (obstacle : Obstacle) : bool :=
  if LaneDirection_eqb (Lane_direction this) LEFT
  then Qltb 0 (x obstacle + width obstacle)
  else Qltb (x obstacle) (streetLength this).

Definition Lane_updateObstacles (this : Lane) (player : Player)
    (obstacles : list Obstacle) : M Lane :=
  moved <- mapM (fun obstacle => moveObstacle obstacle player obstacles)
                (Lane_obstacles this) ;;
  let newObstacles := filter (staysInLane this) moved in
  ret (mkLane (Lane_direction this) (laneWidth this) (streetLength this)
              (centerY this) (lineStyle this) (obstacleProducers this)
              newObstacles).

(** ** Street *)

Record Street : Type := mkStreet {
  topOfStreetY : Q;
  Street_streetLength : Q;
  lanes : list Lane;
  sceneObjects : list Entity
}.

Definition Street_clone (this : Street) (lanes' : list Lane)
    (sceneObjects' : list Entity) : Street :=
  mkStreet (topOfStreetY this) (Street_streetLength this) lanes' sceneObjects'.

(** The [do ... while] loop of [generateObstacles].  [attempts] is the
    counter of the source; the loop runs at most three times, so the fuel
    3 given by [produce] is never used up ([retryLoop_fuel]). *)
Fixpoint retryLoop (fuel : nat) (attempts : nat) (producer : ObstacleProducer)
    (lane : Lane) (safeX : Q) {struct fuel} : M Obstacle :=
  newObstacle <- next producer safeX ;;
  let safeX := safeX + 2 * width newObstacle * - directionValue (Lane_direction lane) in
  let attempts := S attempts in
  if Nat.ltb attempts 3 && collisionDetected newObstacle (Lane_obstacles lane) then
    match fuel with
    | S fuel' => retryLoop fuel' attempts producer lane safeX
    | O => ret newObstacle
    end
  else ret newObstacle.

(** The callback of [lane.obstacleProducers.map] in [generateObstacles];
    [lane] is the variable that the callback reassigns. *)
Definition produce (x0 : Q) (objects : list Entity) (randomProducerIndex : Z)
    (lane : Lane) (index : nat) (producer : ObstacleProducer) : M Lane :=
  ready <- readyForNext producer objects ;;
  if ready then
    if negb (randomizeTraffic producer) || Z.eqb (Z.of_nat index) randomProducerIndex
    then
      newObstacle <- retryLoop 3 0 producer lane x0 ;;
      ret (addObstacle lane newObstacle)
    else ret lane
  else ret lane.

Fixpoint forEachProducer (x0 : Q) (objects : list Entity) (randomProducerIndex : Z)
    (producers : list ObstacleProducer) (index : nat) (lane : Lane) : M Lane :=
  match producers with
  | [] => ret lane
  | producer :: rest =>
      lane' <- produce x0 objects randomProducerIndex lane index producer ;;
      forEachProducer x0 objects randomProducerIndex rest (S index) lane'
  end.

(** [Math.floor(Math.random() * n)]. *)
Definition randomIndex (n : nat) : M Z :=
  r <- Math_random ;;
  ret (Qfloor (r * inject_Z (Z.of_nat n))).

Definition maxPerLane : nat := 15.
Definition offsetOffCanvas : Q := 50.

(** The callback of [this.lanes.map] in [generateObstacles]. *)
Definition generateInLane (this : Street) (player : Player) (randomLaneIndex : Z)
    (lane : Lane) (index : nat) : M Lane :=
  if Z.eqb (Z.of_nat index) randomLaneIndex then
    if Nat.ltb (List.length (Lane_obstacles lane)) maxPerLane then
      let x0 :=
        if LaneDirection_eqb (Lane_direction lane) LEFT
        then streetLength lane + offsetOffCanvas
        else 0 - offsetOffCanvas in
      let producersCount := List.length (obstacleProducers lane) in
      randomProducerIndex <- randomIndex producersCount ;;
      let objects :=
        map AnObstacle (Lane_obstacles lane) ++ sceneObjects this ++ [APlayer player] in
      forEachProducer x0 objects randomProducerIndex (obstacleProducers lane) 0 lane
    else ret lane
  else ret lane.

Fixpoint mapLanes (this : Street) (player : Player) (randomLaneIndex : Z)
    (lanes : list Lane) (index : nat) : M (list Lane) :=
  match lanes with
  | [] => ret []
  | lane :: rest =>
      lane' <- generateInLane this player randomLaneIndex lane index ;;
      rest' <- mapLanes this player randomLaneIndex rest (S index) ;;
      ret (lane' :: rest')
  end.

Definition generateObstacles (this : Street) (player : Player) : M Street :=
  randomLaneIndex <- randomIndex (List.length (lanes this)) ;;
  newLanes <- mapLanes this player randomLaneIndex (lanes this) 0 ;;
  ret (Street_clone this newLanes (sceneObjects this)).

(** ** Crosswalk sign *)

Definition getImageScale : Q := 0.1.
Definition getImageHeight : Q := 342 * getImageScale.
Definition getImageWidth : Q := 389 * getImageScale.
Definition getFlashIntervalInMilliseconds : Z := 500.

Definition calculateFlipHorizontal (flashing flashingSequence : bool)
    (direction : LaneDirection) : bool :=
  if negb flashing then false
  else if LaneDirection_eqb direction RIGHT then negb flashingSequence
  else flashingSequence.

Definition calculateAngle (flashing flashingSequence : bool)
    (direction : LaneDirection) : Angle :=
  if negb flashing then AngleZero
  else if LaneDirection_eqb direction RIGHT then
    if flashingSequence then AngleZero else AnglePi
  else
    if flashingSequence then AngleZero else AnglePi.

Definition new_CrosswalkSign (x y : Q) (direction : LaneDirection)
    (crosswalk : GameObject) (flashing flashingSequence : bool)
    (timestampOfPreviousFlash : Z) (notFlashingImage flashingImage : Image)
    : M CrosswalkSign :=
  r <- newRef ;;
  ret (mkCrosswalkSign
         (mkGameObject r x y getImageWidth getImageHeight
            (Some (if flashing then flashingImage else notFlashingImage))
            (calculateFlipHorizontal flashing flashingSequence direction)
            (calculateAngle flashing flashingSequence direction))
         direction crosswalk flashing flashingSequence timestampOfPreviousFlash
         notFlashingImage flashingImage).

Definition flash (this : CrosswalkSign) (sequence : bool) : M CrosswalkSign :=
  now <- Date_now ;;
  new_CrosswalkSign (x this) (y this) (CrosswalkSign_direction this) (crosswalk this)
                    true sequence now (notFlashingImage this) (flashingImage this).

Definition update (this : CrosswalkSign) (others : list Entity) : M CrosswalkSign :=
  let player := findInstance instanceofPlayer others in
  if flashing this
     || match player with
        | Some p => intersects p (crosswalk this)
        | None => false
        end
  then
    now <- Date_now ;;
    let timeSinceLastFlash := (now - timestampOfPreviousFlash this)%Z in
    if Z.ltb getFlashIntervalInMilliseconds timeSinceLastFlash
    then flash this (negb (flashingSequence this))
    else ret this
  else ret this.

(** ** Collisions with the player and the geometry of the street *)

(** The [for] loop of [Lane.detectCollision]: it returns at the first
    obstacle that the player intersects. *)
Fixpoint Lane_detectCollisionLoop (player : Player) (obstacles : list Obstacle)
    : bool :=
  match obstacles with
  | [] => false
  | obstacle :: rest =>
      if intersects player obstacle then true
      else Lane_detectCollisionLoop player rest
  end.

(** [Lane.detectCollision]; the source computes [positionY] and does not
    use it. *)
Definition Lane_detectCollision (this : Lane) (player : Player) : bool :=
  let positionY := centerY this - laneWidth this / 2 in
  Lane_detectCollisionLoop player (Lane_obstacles this).

(** [new Street(topOfStreetY, streetLength)]: no lanes, no scene objects. *)
Definition new_Street (topOfStreetY0 streetLength0 : Q) : Street :=
  mkStreet topOfStreetY0 streetLength0 [] [].

Definition getStreetWidth (this : Street) : Q :=
  fold_left (fun totalWidth lane => totalWidth + laneWidth lane) (lanes this) 0.

Definition getCenterY (this : Street) (laneWidth0 : Q) : Q :=
  let streetWidth := getStreetWidth this in
  topOfStreetY this + streetWidth + laneWidth0 / 2.

Definition addLane (this : Street) (direction0 : LaneDirection) (laneWidth0 : Q)
    (style : LaneLinesStyles) (obstacleProducers0 : list ObstacleProducer)
    : Street :=
  let newLanes :=
    lanes this
    ++ [mkLane direction0 laneWidth0 (Street_streetLength this)
               (getCenterY this laneWidth0) style obstacleProducers0 []] in
  Street_clone this newLanes (sceneObjects this).

Definition addSceneObject (this : Street) (sceneObject : Entity) : Street :=
  let newSceneObjects := sceneObjects this ++ [sceneObject] in
  Street_clone this (lanes this) newSceneObjects.

(** The [for] loop of [Street.detectCollision]. *)
Fixpoint Street_detectCollisionLoop (player : Player) (lanes0 : list Lane) : bool :=
  match lanes0 with
  | [] => false
  | lane :: rest =>
      if Lane_detectCollision lane player then true
      else Street_detectCollisionLoop player rest
  end.

Definition Street_detectCollision (this : Street) (player : Player) : bool :=
  Street_detectCollisionLoop player (lanes this).

Definition getAllObstacles (this : Street) : list Obstacle :=
  flat_map Lane_obstacles (lanes this).

(** * Notions used by the statements *)

(** ** The closest object ahead *)

Section ClosestAheadDefinitions.

Context {A : Type} `{IsGameObject A}.
Variable this : Obstacle.

(** The vertical position lies within one obstacle-height of [this]. *)
Definition withinOneHeight (g : GameObject) : bool :=
  Qle_bool (Qabs (y g - y this)) (height this).

(** Strictly ahead of [this] in its direction of travel. *)
Definition strictlyAhead (g : GameObject) : bool :=
  match direction this with
  | RIGHT => Qltb (x this) (x g)
  | LEFT => Qltb (x g) (x this)
  end.

(** How far ahead of [this] an object lies. *)
Definition distanceAhead (g : GameObject) : Q :=
  match direction this with
  | RIGHT => x g - x this
  | LEFT => x this - x g
  end.

(** The first object of least distance among those within one height and
    strictly ahead. *)
Fixpoint closestAhead (objects : list A) : option A :=
  match objects with
  | [] => None
  | g :: rest =>
      if withinOneHeight (asGameObject g) && strictlyAhead (asGameObject g) then
        match closestAhead rest with
        | Some h =>
            if Qltb (distanceAhead (asGameObject h)) (distanceAhead (asGameObject g))
            then Some h
            else Some g
        | None => Some g
        end
      else closestAhead rest
  end.

(** The pair that the loop of [getClosestObject] carries describes an
    object ahead and its distance. *)
Definition closestSoFar (acc : option A * Distance) : Prop :=
  match acc with
  | (None, Infinity) => True
  | (Some a, Finite d) => d == distanceAhead (asGameObject a)
  | _ => False
  end.

(** What the loop returns from [acc] when [found] is the closest object of
    the rest of the list. *)
Definition closerOf (acc : option A * Distance) (found : option A) : option A :=
  match found, acc with
  | None, _ => fst acc
  | Some h, (Some a, Finite d) =>
      if Qltb (distanceAhead (asGameObject h)) d then Some h else Some a
  | Some h, _ => Some h
  end.

End ClosestAheadDefinitions.

(** ** Worlds *)

(** The world after one [new]. *)
Definition allocated (w : World) : World := snd (newRef w).

(** The world after one reading of [Date.now()]. *)
Definition clockRead (w : World) : World := snd (Date_now w).

(** Worlds that differ by allocations only. *)
Definition onlyAllocates (w w' : World) : Prop :=
  (nextRef w <= nextRef w')%nat /\ dateNowCalls w' = dateNowCalls w
  /\ clock w' = clock w /\ randomCalls w' = randomCalls w
  /\ randomSource w' = randomSource w /\ lastObstacleTime w' = lastObstacleTime w.

(** ** Ticks of an obstacle *)

(** The crash condition of [moveObstacle]. *)
Definition crashes (this : Obstacle) (obstacles : list Obstacle) : bool :=
  detectCollisions this && collisionDetected this obstacles.

(** One call of [moveObstacle], with any player, any obstacles, in any
    world. *)
Inductive tick (this : Obstacle) : Obstacle -> Prop :=
| tick_moveObstacle (player : Player) (obstacles : list Obstacle) (w w' : World)
    (after : Obstacle) :
    moveObstacle this player obstacles w = (Returned after, w') ->
    tick this after.

(** Successive ticks. *)
Inductive afterTicks (this : Obstacle) : Obstacle -> Prop :=
| afterTicks_none : afterTicks this this
| afterTicks_more (o after : Obstacle) :
    afterTicks this o -> tick o after -> afterTicks this after.

(** ** The speed policy of a braking obstacle *)

Section BrakePolicyDefinitions.

Variable this : Obstacle.
Variable player : Player.
Variable obstacles : list Obstacle.

(** The other obstacles of the list. *)
Definition otherObstacles : list Obstacle :=
  filter (fun o => negb (sameObstacle o this)) obstacles.

(** The hazards: the other obstacles and the player. *)
Definition hazardSet : list Entity :=
  map AnObstacle otherObstacles ++ [APlayer player].

(** The closest hazard ahead, if any. *)
Definition closestHazard : option Entity := closestAhead this hazardSet.

(** The speed of a hazard; the player counts as speed 0. *)
Definition hazardSpeed (h : Entity) : Q :=
  match h with
  | AnObstacle o => speed o
  | _ => 0
  end.

(** The time to collision with the closest hazard is strictly between 0
    and 100; it diverges when the closing speed is not positive. *)
Definition collisionWithin100 : bool :=
  match closestHazard with
  | None => false
  | Some h =>
      let closingSpeed := speed this - hazardSpeed h in
      let timeToCollision := distanceAhead this h / closingSpeed in
      Qltb 0 closingSpeed && Qltb 0 timeToCollision && Qltb timeToCollision 100
  end.

(** The distance to the closest hazard is below [bound]. *)
Definition hazardWithin (bound : Q) : bool :=
  match closestHazard with
  | None => false
  | Some h => Qltb (distanceAhead this h) bound
  end.

(** Some hazard ahead is within [bound]. *)
Definition someHazardWithin (bound : Q) : bool :=
  existsb (fun h : Entity =>
             withinOneHeight this h && strictlyAhead this h
             && Qltb (distanceAhead this h) bound)
          hazardSet.

(** Another obstacle of the list is an emergency vehicle. *)
Definition otherEmergencyVehicle : bool :=
  existsb emergencyVehicle otherObstacles.

(** The steps of the policy in their order; [recovers s] says whether the
    running speed [s] earns the 0.25 of the last step. *)
Definition brakePolicy (recovers : Q -> bool) : Q :=
  let s := speed this in
  let s := if collisionWithin100 then s - 0.5 else s in
  let s := if hazardWithin 200 then s - 0.5 else s in
  let s :=
    if hazardWithin 100 || otherEmergencyVehicle then s - 1
    else if recovers s then s + 0.25
    else s in
  Qmax 0 s.

(** The policy in the words of the specification: the running speed
    recovers whenever it is below the original speed. *)
Definition claimedBrakeSpeed : Q :=
  brakePolicy (fun s => Qltb s (originalSpeed this)).

(** The policy of the program: an original speed of 0 never recovers. *)
Definition brakeSpeed : Q :=
  brakePolicy (fun s => negb (Qeq_bool (originalSpeed this) 0)
                        && Qltb s (originalSpeed this)).

End BrakePolicyDefinitions.

(** A multiple of 0.25. *)
Definition quarterMultiple (q : Q) : Prop := exists k : Z, q == inject_Z k * 0.25.

(** The speeds that [moveObstacle] reaches from an obstacle created at an
    original speed that is a multiple of 0.25, such as those of
    [ObstacleSpeeds]. *)
Definition onSpeedGrid (o : Obstacle) : Prop :=
  0 <= speed o /\ speed o <= originalSpeed o
  /\ quarterMultiple (speed o) /\ quarterMultiple (originalSpeed o).

(** ** Passing *)

(** The side on which an obstacle passes: decreasing y for RIGHT,
    increasing y for LEFT. *)
Definition passingSide (this : Obstacle) : Q :=
  match direction this with
  | RIGHT => -1
  | LEFT => 1
  end.

(** ** Crashes *)

(** The box of [this] overlaps another obstacle of the list. *)
Definition overlapsAnother (this : Obstacle) (obstacles : list Obstacle) : bool :=
  existsb (fun o => negb (sameObstacle o this) && intersects this o) obstacles.

(** [crashed] is the crashed variant of [this]. *)
Definition crashedVariantOf (this crashed : Obstacle) : Prop :=
  speed crashed == 0 /\ detectCollisions crashed = false
  /\ emergencyVehicle crashed = false /\ avoidance crashed = NONE
  /\ x crashed == x this /\ y crashed == y this
  /\ width crashed = width this /\ height crashed = height this
  /\ originalSpeed crashed = originalSpeed this
  /\ originalY crashed = originalY this
  /\ direction crashed = direction this
  /\ image crashed = Some getCrashedImage.

(** ** Leaving the street *)

(** An obstacle has left the street in its own direction of travel. *)
Definition exitedStreet (streetLength : Q) (obstacle : Obstacle) : bool :=
  match direction obstacle with
  | LEFT => Qle_bool (x obstacle + width obstacle) 0
  | RIGHT => Qle_bool streetLength (x obstacle)
  end.

(** An obstacle has left the street in the direction of the lane. *)
Definition exitedLane (lane : Lane) (obstacle : Obstacle) : bool :=
  match Lane_direction lane with
  | LEFT => Qle_bool (x obstacle + width obstacle) 0
  | RIGHT => Qle_bool (streetLength lane) (x obstacle)
  end.

(** ** The crosswalk sign *)

(** The player's box intersects the monitored crosswalk. *)
Definition playerInCrosswalk (this : CrosswalkSign) (others : list Entity) : bool :=
  match findInstance instanceofPlayer others with
  | Some player => intersects player (crosswalk this)
  | None => false
  end.

(** The time elapsed since the previous toggle, at the next reading of the
    clock. *)
Definition sinceLastFlash (this : CrosswalkSign) (w : World) : Z :=
  (clock w (dateNowCalls w) - timestampOfPreviousFlash this)%Z.

(** The condition of the specification: at least 500 ms have elapsed. *)
Definition claimedToggle (this : CrosswalkSign) (others : list Entity) (w : World)
    : bool :=
  (flashing this || playerInCrosswalk this others)
  && Z.leb 500 (sinceLastFlash this w).

(** The condition of the program: more than 500 ms have elapsed. *)
Definition toggles (this : CrosswalkSign) (others : list Entity) (w : World) : bool :=
  (flashing this || playerInCrosswalk this others)
  && Z.ltb 500 (sinceLastFlash this w).

(** One call of [update], with any entities, in any world. *)
Inductive signTick (this : CrosswalkSign) : CrosswalkSign -> Prop :=
| signTick_update (others : list Entity) (w w' : World) (after : CrosswalkSign) :
    update this others w = (Returned after, w') ->
    signTick this after.

Inductive afterUpdates (this : CrosswalkSign) : CrosswalkSign -> Prop :=
| afterUpdates_none : afterUpdates this this
| afterUpdates_more (s after : CrosswalkSign) :
    afterUpdates this s -> signTick s after -> afterUpdates this after.

(** ** Producers *)

(** The seconds elapsed since the last emission of a producer, at the next
    reading of the clock. *)
Definition secondsSinceLastObstacle (this : ObstacleProducer) (w : World) : Q :=
  inject_Z (clock w (dateNowCalls w) - lastObstacleTime w (pref this)) / 1000.

(** The time gate of a producer is open. *)
Definition timeGatePassed (this : ObstacleProducer) (w : World) : bool :=
  Qltb (maxFrequencyInSeconds this) (secondsSinceLastObstacle this w).

Definition isPlayer (e : Entity) : bool :=
  match e with APlayer _ => true | _ => false end.

Definition isCrosswalkSign (e : Entity) : bool :=
  match e with ACrosswalkSign _ => true | _ => false end.

(** The producer fires in the callback of [generateObstacles]: it is ready,
    and it opts out of the random selection or has the selected index. *)
Definition fires (producer : ObstacleProducer) (objects : list Entity)
    (randomProducerIndex : Z) (index : nat) (w : World) : bool :=
  match fst (readyForNext producer objects w) with
  | Returned true =>
      negb (randomizeTraffic producer) || Z.eqb (Z.of_nat index) randomProducerIndex
  | _ => false
  end.

(** The position proposed at the attempt number [k] (from 0). *)
Fixpoint safeXAt (producer : ObstacleProducer) (lane : Lane) (x0 : Q) (k : nat) : Q :=
  match k with
  | O => x0
  | S k' =>
      safeXAt producer lane x0 k'
      + 2 * width (template producer) * - directionValue (Lane_direction lane)
  end.

(** The obstacle proposed at the attempt number [k] (from 0) of a producer
    that fires in the world [w]. *)
Definition candidate (producer : ObstacleProducer) (lane : Lane) (x0 : Q)
    (w : World) (k : nat) : Obstacle :=
  let t := template producer in
  mkObstacle
    (mkGameObject (nextRef w + k)%nat
       (if negb (assignX producer) then x t else safeXAt producer lane x0 k)
       (y t) (width t) (height t) (image t)
       (LaneDirection_eqb (direction t) LEFT) AngleZero)
    (speed t) (direction t) (avoidance t) (detectCollisions t)
    (emergencyVehicle t) (originalSpeed t) (originalY t).

(** The clock never runs backwards. *)
Definition monotoneClock (w : World) : Prop :=
  forall i j : nat, (i <= j)%nat -> (clock w i <= clock w j)%Z.

(** The world after [k] successive calls of [next] on a producer. *)
Fixpoint afterNexts (producer : ObstacleProducer) (w : World) (k : nat) : World :=
  match k with
  | O => w
  | S k' => snd (next producer 0 (afterNexts producer w k'))
  end.


(** ** Concrete scenes *)

Definition sceneWorld : World :=
  mkWorld 100 0 (fun _ => 1000000%Z) 0 (fun _ => 0) (fun _ => 0%Z).

Definition box (r : ref) (x0 y0 wd ht : Q) : GameObject :=
  mkGameObject r x0 y0 wd ht None false AngleZero.

(** A 20 by 10 obstacle created at [y0]. *)
Definition car (r : ref) (x0 y0 s os : Q) (d : LaneDirection)
    (av : ObstacleAvoidanceType) (dc ev : bool) : Obstacle :=
  mkObstacle (box r x0 y0 20 10) s d av dc ev os y0.

Definition pedestrian (x0 y0 : Q) : Player := mkPlayer (box 1 x0 y0 20 20).

(** The default line styles of a lane. *)
Definition defaultLines : LaneLinesStyles :=
  let line := mkLaneLineStyle "white" false false 2 40 80 in
  mkLaneLinesStyles line line.

(** A sign on a RIGHT lane that monitors a crosswalk at x = 100. *)
Definition signAt (flashing0 sequence0 : bool) (timestamp : Z) : CrosswalkSign :=
  let notFlashing := "images/scene/crosswalk-sign.png"%string in
  let isFlashing := "images/scene/crosswalk-sign-flashing.png"%string in
  mkCrosswalkSign
    (mkGameObject 5 100 0 getImageWidth getImageHeight
       (Some (if flashing0 then isFlashing else notFlashing))
       (calculateFlipHorizontal flashing0 sequence0 RIGHT)
       (calculateAngle flashing0 sequence0 RIGHT))
    RIGHT (box 6 100 0 40 400) flashing0 sequence0 timestamp notFlashing isFlashing.

(** A world whose clock reads [t] and then [t'] ever after. *)
Definition worldAt (t t' : Z) : World :=
  mkWorld 100 0 (fun n => match n with O => t | S _ => t' end) 0 (fun _ => 0)
          (fun _ => 0%Z).

(** A producer of cars with an emission every second at most. *)
Definition carProducer (randomizeTraffic0 : bool) : ObstacleProducer :=
  mkObstacleProducer 7 ObstacleProducerClass
                     (car 8 0 0 10 10 LEFT NONE false false) 1 true randomizeTraffic0.

(** A producer of cars that waits for the player at a target. *)
Definition targetProducer : ObstacleProducer :=
  mkObstacleProducer 100 (TargetObstacleProducerClass (box 6 100 0 40 400))
                     (car 8 0 0 10 10 LEFT NONE false false) 1 true false.

(** A world whose clock reads 1000000 twice, then 1000500, then 1002000
    ever after. *)
Definition busyWorld : World :=
  mkWorld 100 0
          (fun n =>
             match n with
             | 0%nat | 1%nat => 1000000
             | 2%nat => 1000500
             | _ => 1002000
             end)%Z
          0 (fun _ => 0) (fun _ => 0%Z).
(** ** Further notions *)

(** A given number of successive ticks. *)
Inductive afterNTicks (this : Obstacle) : nat -> Obstacle -> Prop :=
| afterNTicks_none : afterNTicks this 0 this
| afterNTicks_more (n : nat) (o after : Obstacle) :
    afterNTicks this n o -> tick o after -> afterNTicks this (S n) after.

(** How far an obstacle is from its original y, counted towards its
    passing side. *)
Definition passingDisplacement (o : Obstacle) : Q :=
  (y o - originalY o) * passingSide o.

(** An obstacle that no tick moves: stopped, blind to collisions and
    without avoidance, like a crashed obstacle. *)
Definition stationary (o : Obstacle) : Prop :=
  speed o == 0 /\ detectCollisions o = false /\ avoidance o = NONE.

(** The obstacle has not left the street at the exit end of the lane. *)
Definition insideLane (lane : Lane) (o : Obstacle) : Prop :=
  match Lane_direction lane with
  | LEFT => 0 < x o + width o
  | RIGHT => x o < streetLength lane
  end.

(** A street put together by the builder calls of the source:
    [new Street(...)], then [addLane] and [addSceneObject]. *)
Inductive assembled : Street -> Prop :=
| assembled_new (topOfStreetY0 streetLength0 : Q) :
    assembled (new_Street topOfStreetY0 streetLength0)
| assembled_addLane (s : Street) (direction0 : LaneDirection) (laneWidth0 : Q)
    (style : LaneLinesStyles) (obstacleProducers0 : list ObstacleProducer) :
    assembled s ->
    assembled (addLane s direction0 laneWidth0 style obstacleProducers0)
| assembled_addSceneObject (s : Street) (sceneObject : Entity) :
    assembled s -> assembled (addSceneObject s sceneObject).

(** The lanes lie one below the other from [top]: every lane is centred in
    its own width, and the next lane starts where it ends. *)
Fixpoint stacked (top0 : Q) (lanes0 : list Lane) : Prop :=
  match lanes0 with
  | [] => True
  | lane :: rest =>
      centerY lane == top0 + laneWidth lane / 2
      /\ stacked (top0 + laneWidth lane) rest
  end.

(** The index of the lane that [generateObstacles] draws in the world
    [w]. *)
Definition drawnLaneIndex (street : Street) (w : World) : Z :=
  Qfloor (randomSource w (randomCalls w)
          * inject_Z (Z.of_nat (List.length (lanes street)))).

(** [o] has the fields of [template], but for its x and its reference. *)
Definition cloneOf (template0 o : Obstacle) : Prop :=
  y o = y template0 /\ width o = width template0 /\ height o = height template0
  /\ image o = image template0 /\ speed o = speed template0
  /\ direction o = direction template0 /\ avoidance o = avoidance template0
  /\ detectCollisions o = detectCollisions template0
  /\ emergencyVehicle o = emergencyVehicle template0
  /\ originalSpeed o = originalSpeed template0
  /\ originalY o = originalY template0.

(** [o] is a clone of the template of one of the producers, at the x of
    the template when the producer does not assign x, and otherwise at
    [x0] or farther off the entry end of a lane of direction [d] (for a
    template whose width is not negative). *)
Definition spawnedAt (x0 : Q) (d : LaneDirection)
    (producers : list ObstacleProducer) (o : Obstacle) : Prop :=
  exists producer,
    In producer producers
    /\ cloneOf (template producer) o
    /\ (assignX producer = false -> x o = x (template producer))
    /\ (assignX producer = true -> 0 <= width (template producer) ->
        match d with
        | LEFT => x0 <= x o
        | RIGHT => x o <= x0
        end).

(** Where [generateObstacles] starts to place the obstacles of a lane: 50
    beyond the entry end. *)
Definition entryX (lane : Lane) : Q :=
  match Lane_direction lane with
  | LEFT => streetLength lane + 50
  | RIGHT => - 50
  end.

(** What [generateObstacles] can do to the lane of index [index] when it
    draws the lane index [r]: append to it, in the drawn lane below the
    cap, at most one obstacle per producer, each spawned at the entry of
    the lane. *)
Definition laneGenerated (r : Z) (index : nat) (lane lane' : Lane) : Prop :=
  exists added : list Obstacle,
    lane' = mkLane (Lane_direction lane) (laneWidth lane) (streetLength lane)
                   (centerY lane) (lineStyle lane) (obstacleProducers lane)
                   (Lane_obstacles lane ++ added)
    /\ (List.length added <= List.length (obstacleProducers lane))%nat
    /\ (Z.of_nat index <> r
        \/ (maxPerLane <= List.length (Lane_obstacles lane))%nat ->
        added = [])
    /\ Forall (spawnedAt (entryX lane) (Lane_direction lane)
                         (obstacleProducers lane))
              added.

(** The producer cannot throw on these objects: they hold what its class
    looks for. *)
Definition throwFree (objects : list Entity) (producer : ObstacleProducer) : Prop :=
  match producerClass producer with
  | ObstacleProducerClass => True
  | TargetObstacleProducerClass _ => existsb isPlayer objects = true
  | CrosswalkObstacleProducerClass => existsb isCrosswalkSign objects = true
  end.

(** A street of one lane with a producer of cars and a producer that
    waits for the player at a target, and no crosswalk sign. *)
Definition trafficStreet : Street :=
  addLane (new_Street 0 600) LEFT 120 defaultLines [carProducer false; targetProducer].

(** The appearance that the constructor of the sign derives from the
    flags. *)
Definition signAppearance (s : CrosswalkSign) : Prop :=
  width s = getImageWidth
  /\ height s = getImageHeight
  /\ image s = Some (if flashing s then flashingImage s else notFlashingImage s)
  /\ flipHorizontally s
     = calculateFlipHorizontal (flashing s) (flashingSequence s)
                               (CrosswalkSign_direction s)
  /\ angle s
     = calculateAngle (flashing s) (flashingSequence s) (CrosswalkSign_direction s).

(** [s'] stands where [s] stands, for the same crosswalk, with the same
    images. *)
Definition sameSignPlace (s s' : CrosswalkSign) : Prop :=
  x s' = x s /\ y s' = y s
  /\ CrosswalkSign_direction s' = CrosswalkSign_direction s
  /\ crosswalk s' = crosswalk s
  /\ notFlashingImage s' = notFlashingImage s
  /\ flashingImage s' = flashingImage s.

(** The sign after one call of [update] per frame, each on the result of
    the call before, with the entities of the frame. *)
Fixpoint updates (this : CrosswalkSign) (frames : list (list Entity))
    : M CrosswalkSign :=
  match frames with
  | [] => ret this
  | others :: rest =>
      after <- update this others ;;
      updates after rest
  end.

(** The gate of a gated producer is closed on the street: the player that
    a target producer finds is off its target, or the sign that a crosswalk
    producer finds is dark. *)
Definition gateClosed (street : Street) (player : Player)
    (producer : ObstacleProducer) : Prop :=
  match producerClass producer with
  | ObstacleProducerClass => False
  | TargetObstacleProducerClass target =>
      exists found,
        findInstance instanceofPlayer (sceneObjects street ++ [APlayer player])
        = Some found
        /\ intersects found target = false
  | CrosswalkObstacleProducerClass =>
      exists sign,
        findInstance instanceofCrosswalkSign (sceneObjects street) = Some sign
        /\ flashing sign = false
  end.

(** A producer of invisible obstacles for the crosswalk, and a street with
    a dark sign whose lane has the two gated producers. *)
Definition crosswalkProducer : ObstacleProducer :=
  mkObstacleProducer 101 CrosswalkObstacleProducerClass
                     (car 9 0 0 0 0 LEFT NONE false false) 100000 false false.

Definition gatedStreet : Street :=
  addLane (addSceneObject (new_Street 0 600) (ACrosswalkSign (signAt false false 0)))
          LEFT 120 defaultLines [targetProducer; crosswalkProducer].

(** ** A call of [generateObstacles] *)

(** The constants of the callback of [this.lanes.map], for the lane that
    the call has drawn: the x at which the obstacles are placed first, the
    objects that the producers are given, and the producer index, which is
    the second draw of [Math.random] in the call. *)
Definition startX (lane : Lane) : Q :=
  if LaneDirection_eqb (Lane_direction lane) LEFT
  then streetLength lane + offsetOffCanvas
  else 0 - offsetOffCanvas.

Definition objectsFor (this : Street) (player : Player) (lane : Lane) : list Entity :=
  map AnObstacle (Lane_obstacles lane) ++ sceneObjects this ++ [APlayer player].

Definition drawnProducerIndex (lane : Lane) (w : World) : Z :=
  Qfloor (randomSource w (S (randomCalls w))
          * inject_Z (Z.of_nat (List.length (obstacleProducers lane)))).

(** The world after the two draws. *)
Definition afterDraws (w : World) : World :=
  snd (Math_random (snd (Math_random w))).

(** The callback of [lane.obstacleProducers.map] in the call of
    [generateObstacles] on [this] in the world [w], run on the lane that
    the call has drawn over the producers [producers], which are the first
    producers of that lane: the lane of the callback and the world when the
    next producer is reached, or the error that was thrown. *)
Definition callbacks (this : Street) (player : Player) (lane : Lane) (w : World)
    (producers : list ObstacleProducer) : Outcome Lane * World :=
  forEachProducer (startX lane) (objectsFor this player lane)
                  (drawnProducerIndex lane w) producers 0 lane (afterDraws w).

(** [w'] can follow [w]: the clock is the same, no reading of it was
    given back, and the stamp of every producer is the one it had or a
    reading of the clock taken in between. *)
Definition advances (w w' : World) : Prop :=
  clock w' = clock w
  /\ (dateNowCalls w <= dateNowCalls w')%nat
  /\ forall r : ref,
       lastObstacleTime w' r = lastObstacleTime w r
       \/ exists n : nat,
            (dateNowCalls w <= n < dateNowCalls w')%nat
            /\ lastObstacleTime w' r = clock w n.

(** In the call of [generateObstacles] on [street] in the world [w], the
    callback reaches the producer [p] in the drawn lane, below the cap, and
    appends an obstacle to the lane; [t] is what the clock reads at the
    readiness check of [p]. *)
Definition appendsAt (p : ObstacleProducer) (street : Street) (player : Player)
    (w : World) (t : Z) : Prop :=
  exists (i : nat) (lane : Lane) (before after : list ObstacleProducer)
         (laneB : Lane) (wB : World) (o : Obstacle) (wP : World),
    nth_error (lanes street) i = Some lane
    /\ Z.of_nat i = drawnLaneIndex street w
    /\ (List.length (Lane_obstacles lane) < 15)%nat
    /\ obstacleProducers lane = before ++ p :: after
    /\ callbacks street player lane w before = (Returned laneB, wB)
    /\ callbacks street player lane w (before ++ [p])
       = (Returned (addObstacle laneB o), wP)
    /\ t = clock wB (dateNowCalls wB).

(** In the call of [generateObstacles] on [street] in the world [w], which
    returns in the world [w'], a lane whose only producer is [p] gains an
    obstacle. *)
Definition feedsLane (p : ObstacleProducer) (street : Street) (player : Player)
    (w w' : World) : Prop :=
  exists (street' : Street) (i : nat) (lane lane' : Lane),
    generateObstacles street player w = (Returned street', w')
    /\ nth_error (lanes street) i = Some lane
    /\ nth_error (lanes street') i = Some lane'
    /\ obstacleProducers lane = [p]
    /\ (List.length (Lane_obstacles lane) < List.length (Lane_obstacles lane'))%nat.

(** What the rest of the game does between two calls of
    [generateObstacles]: it may read the clock, draw random numbers and
    create objects, but it does not call [next] on [p]. *)
Definition otherCode (p : ObstacleProducer) (w w' : World) : Prop :=
  clock w' = clock w
  /\ (dateNowCalls w <= dateNowCalls w')%nat
  /\ lastObstacleTime w' (pref p) = lastObstacleTime w (pref p).

(** The worlds that the game reaches from [w]: by calls of
    [generateObstacles] on any street, whether they return or throw, and
    by the other code. *)
Inductive gameReaches (p : ObstacleProducer) (w : World) : World -> Prop :=
| gameReaches_here : gameReaches p w w
| gameReaches_generate (w1 w2 : World) (street : Street) (player : Player)
    (outcome : Outcome Street) :
    gameReaches p w w1 ->
    generateObstacles street player w1 = (outcome, w2) ->
    gameReaches p w w2
| gameReaches_other (w1 w2 : World) :
    gameReaches p w w1 -> otherCode p w1 w2 -> gameReaches p w w2.

(** ** Concrete streets *)

(** A street of one empty LEFT lane of length 600, with the given
    producers and scene objects. *)
Definition openLane (producers : list ObstacleProducer) : Lane :=
  mkLane LEFT 120 600 60 defaultLines producers [].

Definition openStreet (producers : list ObstacleProducer)
    (sceneObjects0 : list Entity) : Street :=
  mkStreet 0 600 [openLane producers] sceneObjects0.

(** The same lane with its entry blocked by a long obstacle. *)
Definition blockedLane (producers : list ObstacleProducer) : Lane :=
  mkLane LEFT 120 600 60 defaultLines producers
         [mkObstacle (box 3 640 0 200 10) 0 LEFT NONE false false 0 0].

Definition blockedStreet (producers : list ObstacleProducer) : Street :=
  mkStreet 0 600 [blockedLane producers] [].



(** A world whose clock advances by 1 ms at every reading, from
    1000000. *)
Definition tickingWorld : World :=
  mkWorld 200 0
          (fun n =>
             match n with
             | 0%nat => 1000000
             | 1%nat => 1000001
             | 2%nat => 1000002
             | 3%nat => 1000003
             | _ => 1000004
             end)%Z
          0 (fun _ => 0) (fun _ => 0%Z).

(** * Properties *)

(** ** Comparisons on rationals *)

Lemma Qltb_lt (a b : Q) : Qltb a b = true <-> a < b.
Proof.
  unfold Qltb. rewrite negb_true_iff, <- not_true_iff_false, Qle_bool_iff.
  split; [apply Qnot_le_lt | apply Qlt_not_le].
Qed.

Lemma Qltb_ge (a b : Q) : Qltb a b = false <-> b <= a.
Proof.
  unfold Qltb. rewrite negb_false_iff. apply Qle_bool_iff.
Qed.

Lemma Qle_bool_gt (a b : Q) : Qle_bool a b = false <-> b < a.
Proof.
  rewrite <- not_true_iff_false, Qle_bool_iff.
  split; [apply Qnot_le_lt | apply Qlt_not_le].
Qed.

Lemma Qeq_bool_neq_iff (a b : Q) : Qeq_bool a b = false <-> ~ a == b.
Proof.
  rewrite <- not_true_iff_false, Qeq_bool_iff. reflexivity.
Qed.

#[export] Instance Qltb_comp : Proper (Qeq ==> Qeq ==> eq) Qltb.
Proof.
  intros a a' Ha b b' Hb. unfold Qltb. now rewrite Ha, Hb.
Qed.

(** Turns every boolean comparison of the context into its proposition. *)
Ltac reflect_Q :=
  repeat match goal with
  | H : Qltb _ _ = true |- _ => apply Qltb_lt in H
  | H : Qltb _ _ = false |- _ => apply Qltb_ge in H
  | H : Qle_bool _ _ = true |- _ => apply Qle_bool_iff in H
  | H : Qle_bool _ _ = false |- _ => apply Qle_bool_gt in H
  | H : Qeq_bool _ _ = true |- _ => apply Qeq_bool_iff in H
  | H : Qeq_bool _ _ = false |- _ => apply Qeq_bool_neq_iff in H
  end.

(** ** The closest object ahead *)

Section ClosestAheadFacts.

Context {A : Type} `{IsGameObject A}.
Variable this : Obstacle.

Lemma isObjectInFront_ahead (g : GameObject) :
  isObjectInFront this g = withinOneHeight this g && strictlyAhead this g.
Proof.
  unfold isObjectInFront, isObjectInLane, withinOneHeight, strictlyAhead.
  f_equal.
  - apply eq_true_iff_eq.
    rewrite andb_true_iff, !Qle_bool_iff, Qabs_Qle_condition.
    split; intros [H1 H2]; split; lra.
  - destruct (direction this); simpl;
      rewrite ?andb_false_l, ?orb_false_l, ?orb_false_r; reflexivity.
Qed.

Lemma getDistanceTo_ahead (g : GameObject) :
  strictlyAhead this g = true -> getDistanceTo this g == distanceAhead this g.
Proof.
  unfold strictlyAhead, getDistanceTo, distanceAhead.
  destruct (direction this); intros E; reflect_Q.
  - rewrite Qabs_pos; lra.
  - rewrite Qabs_neg; lra.
Qed.

Lemma distanceAhead_pos (g : GameObject) :
  strictlyAhead this g = true -> 0 < distanceAhead this g.
Proof.
  unfold strictlyAhead, distanceAhead.
  destruct (direction this); intros E; reflect_Q; lra.
Qed.

Lemma closestStep_ahead (acc : option A * Distance) (g : A) :
  withinOneHeight this (asGameObject g) && strictlyAhead this (asGameObject g) = true ->
  closestStep this acc g
  = if closerThan (getDistanceTo this (asGameObject g)) (snd acc)
    then (Some g, Finite (getDistanceTo this (asGameObject g)))
    else acc.
Proof.
  intros E. unfold closestStep. now rewrite isObjectInFront_ahead, E.
Qed.

Lemma closestStep_behind (acc : option A * Distance) (g : A) :
  withinOneHeight this (asGameObject g) && strictlyAhead this (asGameObject g)
  = false ->
  closestStep this acc g = acc.
Proof.
  intros E. unfold closestStep. now rewrite isObjectInFront_ahead, E.
Qed.

Lemma fold_closestStep (objects : list A) :
  forall acc, closestSoFar this acc ->
    fst (fold_left (closestStep this) objects acc)
    = closerOf this acc (closestAhead this objects).
Proof.
  induction objects as [|g rest IH]; intros acc Hacc; cbn [fold_left closestAhead].
  - reflexivity.
  - destruct (withinOneHeight this (asGameObject g)
              && strictlyAhead this (asGameObject g)) eqn:E.
    2: { rewrite closestStep_behind by exact E. now apply IH. }
    rewrite closestStep_ahead by exact E.
    apply andb_true_iff in E. destruct E as [_ Ea].
    pose proof (getDistanceTo_ahead _ Ea) as Hd.
    set (dg := getDistanceTo this (asGameObject g)) in *.
    destruct acc as [[a|] [d|]]; cbn [closestSoFar] in Hacc; try contradiction;
      cbn [snd closerThan].
    + destruct (Qltb dg d) eqn:Elt.
      * rewrite IH by exact Hd.
        destruct (closestAhead this rest) as [h|]; cbn [closerOf fst].
        -- rewrite Hd.
           destruct (Qltb (distanceAhead this (asGameObject h))
                          (distanceAhead this (asGameObject g))) eqn:E1;
             cbn [closerOf].
           ++ assert (E2 : Qltb (distanceAhead this (asGameObject h)) d = true)
                by (apply Qltb_lt; reflect_Q; lra).
              now rewrite E2.
           ++ rewrite <- Hd. now rewrite Elt.
        -- rewrite <- Hd. now rewrite Elt.
      * rewrite IH by exact Hacc.
        destruct (closestAhead this rest) as [h|]; cbn [closerOf fst].
        -- destruct (Qltb (distanceAhead this (asGameObject h))
                          (distanceAhead this (asGameObject g))) eqn:E1;
             cbn [closerOf].
           ++ reflexivity.
           ++ assert (E2 : Qltb (distanceAhead this (asGameObject h)) d = false)
                by (apply Qltb_ge; reflect_Q; lra).
              rewrite E2, <- Hd. now rewrite Elt.
        -- rewrite <- Hd. now rewrite Elt.
    + rewrite IH by exact Hd.
      destruct (closestAhead this rest) as [h|]; cbn [closerOf fst]; [|reflexivity].
      rewrite Hd. now destruct (Qltb _ _).
Qed.

(** The loop of [getClosestObject] finds the first object of least
    distance among those within one height and strictly ahead. *)
Lemma getClosestObject_closestAhead (objects : list A) :
  getClosestObject this objects = closestAhead this objects.
Proof.
  unfold getClosestObject. rewrite fold_closestStep by exact I.
  destruct (closestAhead this objects); reflexivity.
Qed.

Lemma closestAhead_ahead (objects : list A) (h : A) :
  closestAhead this objects = Some h ->
  In h objects /\ withinOneHeight this (asGameObject h) = true
  /\ strictlyAhead this (asGameObject h) = true.
Proof.
  induction objects as [|g rest IH]; simpl; [discriminate|].
  destruct (withinOneHeight this (asGameObject g)) eqn:Eh; simpl;
    [destruct (strictlyAhead this (asGameObject g)) eqn:Ea; simpl|].
  - destruct (closestAhead this rest) as [h'|].
    + destruct (Qltb _ _); intros [= <-]; [destruct (IH eq_refl) as (?&?&?)|]; auto.
    + intros [= <-]. auto.
  - intros E. destruct (IH E) as (?&?&?). auto.
  - intros E. destruct (IH E) as (?&?&?). auto.
Qed.

(** No other object within one height and strictly ahead is closer. *)
Lemma closestAhead_least (objects : list A) (h g : A) :
  closestAhead this objects = Some h -> In g objects ->
  withinOneHeight this (asGameObject g) = true ->
  strictlyAhead this (asGameObject g) = true ->
  distanceAhead this (asGameObject h) <= distanceAhead this (asGameObject g).
Proof.
  revert h. induction objects as [|g' rest IH]; simpl; [discriminate|].
  intros h Hh [->|Hin] Hy Hx.
  - rewrite Hy, Hx in Hh. simpl in Hh.
    destruct (closestAhead this rest) as [h'|].
    + destruct (Qltb _ _) eqn:E; injection Hh as <-; reflect_Q; lra.
    + injection Hh as <-. lra.
  - destruct (withinOneHeight this (asGameObject g')
              && strictlyAhead this (asGameObject g')).
    + destruct (closestAhead this rest) as [h'|] eqn:Er.
      * specialize (IH h' eq_refl Hin Hy Hx).
        destruct (Qltb _ _) eqn:E; injection Hh as <-; reflect_Q; lra.
      * exfalso. clear IH Hh. induction rest as [|r rest IHr]; [contradiction|].
        simpl in Er. destruct Hin as [->|Hin].
        -- rewrite Hy, Hx in Er. simpl in Er.
           destruct (closestAhead this rest) as [?|]; [destruct (Qltb _ _)|];
             discriminate.
        -- destruct (withinOneHeight this (asGameObject r)
                     && strictlyAhead this (asGameObject r)).
           ++ destruct (closestAhead this rest) as [?|]; [destruct (Qltb _ _)|];
                discriminate.
           ++ auto.
    + auto.
Qed.

Lemma closestAhead_none (objects : list A) :
  closestAhead this objects = None <->
  forall g, In g objects ->
    withinOneHeight this (asGameObject g) && strictlyAhead this (asGameObject g)
    = false.
Proof.
  induction objects as [|g rest IH]; simpl.
  - split; [intros _ g [] | reflexivity].
  - destruct (withinOneHeight this (asGameObject g)
              && strictlyAhead this (asGameObject g)) eqn:E.
    + split.
      * destruct (closestAhead this rest); [destruct (Qltb _ _)|]; discriminate.
      * intros Hall. specialize (Hall g (or_introl eq_refl)). congruence.
    + rewrite IH. split.
      * intros Hall g' [<-|Hin]; auto.
      * intros Hall g' Hin. apply Hall. now right.
Qed.

End ClosestAheadFacts.

(** ** Running the effects of an obstacle's move *)

Lemma new_Obstacle_run (x0 y0 wd ht s : Q) (d : LaneDirection) (img : option Image)
    (av : ObstacleAvoidanceType) (dc ev : bool) (os oy : Q) (w : World) :
  new_Obstacle x0 y0 wd ht s d img av dc ev os oy w
  = (Returned (mkObstacle
                 (mkGameObject (nextRef w) x0 y0 wd ht img (LaneDirection_eqb d LEFT)
                               AngleZero)
                 s d av dc ev os oy),
     allocated w).
Proof. reflexivity. Qed.

Lemma onlyAllocates_refl (w : World) : onlyAllocates w w.
Proof. unfold onlyAllocates. auto 10. Qed.

Lemma onlyAllocates_allocated (w w' : World) :
  onlyAllocates w w' -> onlyAllocates w (allocated w').
Proof.
  unfold onlyAllocates, allocated. simpl. intros (?&?&?&?&?&?). auto 10.
Qed.

Lemma onlyAllocates_trans (w1 w2 w3 : World) :
  onlyAllocates w1 w2 -> onlyAllocates w2 w3 -> onlyAllocates w1 w3.
Proof.
  unfold onlyAllocates. intros (?&?&?&?&?&?) (?&?&?&?&?&?).
  repeat split; try congruence. lia.
Qed.

Create HintDb world.
#[local] Hint Resolve onlyAllocates_refl onlyAllocates_allocated : world.

(** [calculateYForPassing] always returns. *)
Lemma calculateYForPassing_returns (this : Obstacle) (player : Player)
    (obstacles : list Obstacle) (w : World) :
  exists newY w1,
    calculateYForPassing this player obstacles w = (Returned newY, w1)
    /\ onlyAllocates w w1.
Proof.
  unfold calculateYForPassing.
  destruct (negb (ObstacleAvoidanceType_eqb (avoidance this) PASS)).
  { unfold ret. eauto with world. }
  destruct (getClosestObject this obstacles) as [closest|].
  2: { unfold ret. eauto with world. }
  destruct (Qltb (speed this) (speed closest)).
  { unfold ret. eauto with world. }
  unfold bind.
  destruct (Qltb (height this) (Qabs (originalY this - y this))).
  - unfold clone. rewrite new_Obstacle_run.
    repeat match goal with
           | |- context [if ?b then _ else _] => destruct b
           | |- context [match getClosestObject ?o ?l with _ => _ end] =>
               destruct (getClosestObject o l)
           end; unfold ret; eauto with world.
  - repeat match goal with
           | |- context [if ?b then _ else _] => destruct b
           end; unfold ret; eauto with world.
Qed.

(** An obstacle that does not crash is rebuilt from its adjusted speed and
    its passing position. *)
Lemma moveObstacle_moved (this : Obstacle) (player : Player)
    (obstacles : list Obstacle) (w : World) :
  detectCollisions this && collisionDetected this obstacles = false ->
  exists newY w1,
    calculateYForPassing this player obstacles w = (Returned newY, w1)
    /\ onlyAllocates w w1
    /\ moveObstacle this player obstacles w
       = (Returned
            (mkObstacle
               (mkGameObject (nextRef w1)
                  (x this + calculateSpeed this player obstacles
                            * directionValue (direction this))
                  newY (width this) (height this) (image this)
                  (LaneDirection_eqb (direction this) LEFT) AngleZero)
               (calculateSpeed this player obstacles) (direction this)
               (avoidance this) (detectCollisions this) (emergencyVehicle this)
               (originalSpeed this) (originalY this)),
          allocated w1).
Proof.
  intros Hfree.
  destruct (calculateYForPassing_returns this player obstacles w)
    as (newY & w1 & Hy & Hw).
  exists newY, w1. split; [exact Hy|]. split; [exact Hw|].
  unfold moveObstacle. cbv zeta. rewrite Hfree. unfold bind. rewrite Hy.
  apply new_Obstacle_run.
Qed.

(** An obstacle that crashes becomes the crashed variant. *)
Lemma moveObstacle_crashed (this : Obstacle) (player : Player)
    (obstacles : list Obstacle) (w : World) :
  detectCollisions this && collisionDetected this obstacles = true ->
  moveObstacle this player obstacles w
  = (Returned
       (mkObstacle
          (mkGameObject (nextRef w) (x this) (y this) (width this) (height this)
             (Some getCrashedImage) (LaneDirection_eqb (direction this) LEFT)
             AngleZero)
          ObstacleSpeeds.STOPPED (direction this) NONE false false
          (originalSpeed this) (originalY this)),
     allocated w).
Proof.
  intros Hcrash. unfold moveObstacle. cbv zeta. rewrite Hcrash.
  apply new_Obstacle_run.
Qed.

(** ** The speed policy of a braking obstacle *)

Section BrakePolicyFacts.

Variable this : Obstacle.
Variable player : Player.
Variable obstacles : list Obstacle.

Lemma filter_hazards :
  filter (fun gameObject : Entity => negb (isObstacle gameObject this))
         (map AnObstacle obstacles ++ [APlayer player])
  = hazardSet this player obstacles.
Proof.
  unfold hazardSet, otherObstacles. rewrite filter_app. simpl. f_equal.
  induction obstacles as [|o rest IH]; simpl; [reflexivity|].
  destruct (sameObstacle o this); simpl; now rewrite IH.
Qed.

Lemma emergencyVehicleDetected_others :
  emergencyVehicleDetected this obstacles = otherEmergencyVehicle this obstacles.
Proof.
  unfold emergencyVehicleDetected, otherEmergencyVehicle, otherObstacles.
  induction obstacles as [|o rest IH]; simpl; [reflexivity|].
  destruct (sameObstacle o this); simpl; now rewrite IH.
Qed.

Lemma calculateDistanceToClosestObject_below (bound : Q) :
  distanceBelow
    (calculateDistanceToClosestObject this (hazardSet this player obstacles)) bound
  = hazardWithin this player obstacles bound.
Proof.
  unfold calculateDistanceToClosestObject, hazardWithin, closestHazard.
  rewrite getClosestObject_closestAhead.
  destruct (closestAhead this (hazardSet this player obstacles)) as [h|] eqn:E;
    [|reflexivity].
  apply closestAhead_ahead in E. destruct E as (_ & _ & Ha).
  cbn [distanceBelow]. now rewrite (getDistanceTo_ahead this h Ha).
Qed.

Lemma timeToCollisionBrakes_within :
  timeToCollisionBrakes
    (calculateTimeToCollision this (hazardSet this player obstacles))
  = collisionWithin100 this player obstacles.
Proof.
  unfold calculateTimeToCollision, collisionWithin100, closestHazard.
  rewrite getClosestObject_closestAhead.
  destruct (closestAhead this (hazardSet this player obstacles)) as [h|] eqn:E;
    [|reflexivity].
  apply closestAhead_ahead in E. destruct E as (_ & _ & Ha).
  assert (Hs : match instanceofObstacle h with
               | Some o => speed o
               | None => 0
               end = hazardSpeed h) by (destruct h; reflexivity).
  rewrite Hs. cbv zeta.
  pose proof (getDistanceTo_ahead this h Ha) as Hd.
  change (getDistanceTo this (asGameObject h)) with (getDistanceTo this h) in Hd.
  change (distanceAhead this (asGameObject h)) with (distanceAhead this h) in Hd.
  destruct (Qle_bool (speed this - hazardSpeed h) 0) eqn:Erel.
  - cbn [timeToCollisionBrakes].
    assert (Ec : Qltb 0 (speed this - hazardSpeed h) = false)
      by (apply Qltb_ge; reflect_Q; lra).
    now rewrite Ec.
  - cbn [timeToCollisionBrakes].
    assert (Ec : Qltb 0 (speed this - hazardSpeed h) = true)
      by (apply Qltb_lt; reflect_Q; lra).
    rewrite Ec, Hd. cbn [andb].
    destruct (Qltb 0 (distanceAhead this h / (speed this - hazardSpeed h))) eqn:Epos.
    + assert (En : Qeq_bool (distanceAhead this h / (speed this - hazardSpeed h)) 0
                   = false)
        by (apply Qeq_bool_neq_iff; reflect_Q; lra).
      now rewrite En.
    + now rewrite andb_false_r.
Qed.

(** [calculateSpeed] follows the policy of the program. *)
Lemma calculateSpeed_brakeSpeed :
  avoidance this = BRAKE ->
  calculateSpeed this player obstacles == brakeSpeed this player obstacles.
Proof.
  intros Hbrake. unfold calculateSpeed, brakeSpeed, brakePolicy.
  rewrite Hbrake. cbn [ObstacleAvoidanceType_eqb]. cbv zeta.
  rewrite filter_hazards, timeToCollisionBrakes_within,
    !calculateDistanceToClosestObject_below, emergencyVehicleDetected_others.
  apply Q.max_comm.
Qed.

Lemma calculateSpeed_constant :
  avoidance this <> BRAKE -> calculateSpeed this player obstacles = speed this.
Proof.
  intros Hother. unfold calculateSpeed.
  destruct (avoidance this); try reflexivity. now elim Hother.
Qed.

End BrakePolicyFacts.

(** C1 (as amended): for every obstacle with avoidance BRAKE that does not
    crash this tick, [moveObstacle] computes the new speed from the current
    speed in this order: subtract 0.5 if the time to collision with the
    closest hazard ahead is strictly between 0 and 100; subtract 0.5 more
    if the distance to that hazard is below 200; subtract 1 more if that
    distance is below 100 or another obstacle is an emergency vehicle,
    otherwise add 0.25 if the original speed is not 0 and the running speed
    is below it; finally clamp to at least 0. *)
Theorem brake_speed_policy (this : Obstacle) (player : Player)
    (obstacles : list Obstacle) (w : World) :
  avoidance this = BRAKE ->
  crashes this obstacles = false ->
  exists after w',
    moveObstacle this player obstacles w = (Returned after, w')
    /\ speed after == brakeSpeed this player obstacles.
Proof.
  intros Hbrake Hfree.
  destruct (moveObstacle_moved this player obstacles w Hfree)
    as (newY & w1 & _ & _ & Hmove).
  eexists. eexists. split; [exact Hmove|].
  cbn [speed]. now apply calculateSpeed_brakeSpeed.
Qed.

Lemma brake_speed_policy_witness :
  let this := car 2 0 0 10 10 RIGHT BRAKE true false in
  let obstacles := [this; car 3 150 0 4 4 RIGHT NONE false false] in
  avoidance this = BRAKE /\ crashes this obstacles = false
  /\ exists after w',
       moveObstacle this (pedestrian 90 5) obstacles sceneWorld = (Returned after, w')
       /\ speed after == brakeSpeed this (pedestrian 90 5) obstacles.
Proof.
  intros this obstacles.
  split; [reflexivity|]. split; [reflexivity|].
  apply brake_speed_policy; reflexivity.
Defined.

(** C1 as stated fails: an obstacle of original speed 0 that runs at 0.4,
    150 behind a stopped obstacle, gets speed 0, where the stated order of
    steps gives 0.15. *)
Lemma claimed_brake_speed_counterexample :
  let this := car 2 0 0 0.4 0 RIGHT BRAKE false false in
  let obstacles := [this; car 3 150 0 0 0 RIGHT NONE false false] in
  avoidance this = BRAKE /\ crashes this obstacles = false
  /\ exists after w',
       moveObstacle this (pedestrian 0 1000) obstacles sceneWorld = (Returned after, w')
       /\ speed after == 0
       /\ claimedBrakeSpeed this (pedestrian 0 1000) obstacles == 0.15
       /\ ~ speed after == claimedBrakeSpeed this (pedestrian 0 1000) obstacles.
Proof.
  intros this obstacles.
  split; [reflexivity|]. split; [reflexivity|].
  eexists. eexists. split; [vm_compute; reflexivity|].
  split; [reflexivity|]. split; [reflexivity|].
  vm_compute. discriminate.
Qed.

(** ** Speed over successive ticks *)

Lemma moveObstacle_returns (this : Obstacle) (player : Player)
    (obstacles : list Obstacle) (w : World) :
  exists after w', moveObstacle this player obstacles w = (Returned after, w').
Proof.
  destruct (crashes this obstacles) eqn:E.
  - rewrite (moveObstacle_crashed this player obstacles w E). eauto.
  - destruct (moveObstacle_moved this player obstacles w E) as (?&?&_&_&Hm).
    rewrite Hm. eauto.
Qed.

(** What a tick does to the speed and the origin fields. *)
Lemma moveObstacle_speed (this : Obstacle) (player : Player)
    (obstacles : list Obstacle) (w w' : World) (after : Obstacle) :
  moveObstacle this player obstacles w = (Returned after, w') ->
  originalSpeed after = originalSpeed this
  /\ originalY after = originalY this
  /\ (crashes this obstacles = true /\ speed after = 0 /\ avoidance after = NONE
      \/ crashes this obstacles = false
         /\ speed after = calculateSpeed this player obstacles
         /\ avoidance after = avoidance this).
Proof.
  intros Hmove. destruct (crashes this obstacles) eqn:E.
  - rewrite (moveObstacle_crashed this player obstacles w E) in Hmove.
    injection Hmove as <- _. cbn. repeat split. left. repeat split.
  - destruct (moveObstacle_moved this player obstacles w E) as (?&?&_&_&Hm).
    rewrite Hm in Hmove. injection Hmove as <- _. cbn. repeat split.
    right. repeat split.
Qed.

Section BrakeBounds.

Variable this : Obstacle.
Variable player : Player.
Variable obstacles : list Obstacle.

(** The closest hazard is within a bound iff some hazard ahead is. *)
Lemma someHazardWithin_closest (bound : Q) :
  someHazardWithin this player obstacles bound
  = hazardWithin this player obstacles bound.
Proof.
  unfold someHazardWithin, hazardWithin, closestHazard.
  apply eq_true_iff_eq. rewrite existsb_exists. split.
  - intros (g & Hin & Hg).
    apply andb_true_iff in Hg. destruct Hg as [Hg Hb].
    destruct (closestAhead this (hazardSet this player obstacles)) as [h|] eqn:E.
    + apply andb_true_iff in Hg. destruct Hg as [Hy Hx].
      pose proof (closestAhead_least this _ h g E Hin Hy Hx) as Hle.
      change (distanceAhead this (asGameObject h)) with (distanceAhead this h) in Hle.
      change (distanceAhead this (asGameObject g)) with (distanceAhead this g) in Hle.
      apply Qltb_lt. reflect_Q. lra.
    + rewrite closestAhead_none in E. specialize (E g Hin).
      unfold asGameObject, Entity_IsGameObject in E. congruence.
  - destruct (closestAhead this (hazardSet this player obstacles)) as [h|] eqn:E;
      [|discriminate].
    intros Hb. apply closestAhead_ahead in E. destruct E as (Hin & Hy & Hx).
    exists h. split; [exact Hin|].
    unfold asGameObject, Entity_IsGameObject in Hy, Hx. now rewrite Hy, Hx, Hb.
Qed.

Lemma hazardWithin_wider (bound bound' : Q) :
  bound <= bound' ->
  hazardWithin this player obstacles bound = true ->
  hazardWithin this player obstacles bound' = true.
Proof.
  unfold hazardWithin. intros Hle.
  destruct (closestHazard this player obstacles) as [h|]; [|discriminate].
  intros Hb. apply Qltb_lt. reflect_Q. lra.
Qed.

Lemma brakeSpeed_nonneg : 0 <= brakeSpeed this player obstacles.
Proof. unfold brakeSpeed, brakePolicy. apply Q.le_max_l. Qed.

(** A hazard within 100 takes at least 1.5 off the speed. *)
Lemma brakeSpeed_slows :
  0 <= speed this ->
  hazardWithin this player obstacles 100 = true ->
  brakeSpeed this player obstacles <= speed this.
Proof.
  intros Hpos H100.
  assert (H200 : hazardWithin this player obstacles 200 = true)
    by (apply (hazardWithin_wider 100); [lra | exact H100]).
  unfold brakeSpeed, brakePolicy. rewrite H100, H200. cbn [orb].
  destruct (collisionWithin100 this player obstacles); apply Q.max_lub; lra.
Qed.

(** Without a hazard within 200 the speed gains at most 0.25. *)
Lemma brakeSpeed_gains :
  0 <= speed this ->
  hazardWithin this player obstacles 200 = false ->
  brakeSpeed this player obstacles <= speed this + 0.25.
Proof.
  intros Hpos H200.
  unfold brakeSpeed, brakePolicy. rewrite H200.
  destruct (collisionWithin100 this player obstacles);
    destruct (hazardWithin this player obstacles 100
              || otherEmergencyVehicle this obstacles);
    try (apply Q.max_lub; lra);
    match goal with
    | |- context [if ?b then _ else _] => destruct b
    end; apply Q.max_lub; lra.
Qed.

End BrakeBounds.

Lemma quarterMultiple_plus (a b : Q) :
  quarterMultiple a -> quarterMultiple b -> quarterMultiple (a + b).
Proof.
  intros [k Hk] [m Hm]. exists (k + m)%Z. rewrite inject_Z_plus, Hk, Hm. ring.
Qed.

Lemma quarterMultiple_opp (a : Q) : quarterMultiple a -> quarterMultiple (- a).
Proof.
  intros [k Hk]. exists (- k)%Z. rewrite inject_Z_opp, Hk. ring.
Qed.

Lemma quarterMultiple_minus (a b : Q) :
  quarterMultiple a -> quarterMultiple b -> quarterMultiple (a - b).
Proof.
  intros Ha Hb. apply quarterMultiple_plus; [exact Ha|].
  now apply quarterMultiple_opp.
Qed.

Lemma quarterMultiple_quarter : quarterMultiple 0.25.
Proof. exists 1%Z. reflexivity. Qed.

Lemma quarterMultiple_half : quarterMultiple 0.5.
Proof. exists 2%Z. reflexivity. Qed.

Lemma quarterMultiple_one : quarterMultiple 1.
Proof. exists 4%Z. reflexivity. Qed.

Lemma quarterMultiple_zero : quarterMultiple 0.
Proof. exists 0%Z. reflexivity. Qed.

#[export] Instance quarterMultiple_comp : Proper (Qeq ==> iff) quarterMultiple.
Proof.
  intros a b Hab. unfold quarterMultiple.
  split; intros [k Hk]; exists k; [rewrite <- Hab | rewrite Hab]; exact Hk.
Qed.

Lemma quarterMultiple_max (a b : Q) :
  quarterMultiple a -> quarterMultiple b -> quarterMultiple (Qmax a b).
Proof.
  intros Ha Hb.
  destruct (Q.max_spec a b) as [[_ E]|[_ E]]; now rewrite E.
Qed.

(** Two multiples of 0.25 that differ are at least 0.25 apart. *)
Lemma quarterMultiple_next (a b : Q) :
  quarterMultiple a -> quarterMultiple b -> a < b -> a + 0.25 <= b.
Proof.
  intros [k Hk] [m Hm] Hlt. rewrite Hk, Hm in *.
  assert (Hkm : (k < m)%Z).
  { rewrite Zlt_Qlt. lra. }
  assert (Hle : inject_Z (k + 1) <= inject_Z m).
  { rewrite <- Zle_Qle. lia. }
  rewrite inject_Z_plus in Hle. change (inject_Z 1) with 1 in Hle. lra.
Qed.

Create HintDb quarters.
#[export] Hint Resolve quarterMultiple_plus quarterMultiple_minus
  quarterMultiple_quarter quarterMultiple_half quarterMultiple_one
  quarterMultiple_zero quarterMultiple_max : quarters.

(** The speed policy keeps an obstacle on its grid of speeds. *)
Lemma brakeSpeed_onSpeedGrid (this : Obstacle) (player : Player)
    (obstacles : list Obstacle) :
  onSpeedGrid this ->
  brakeSpeed this player obstacles <= originalSpeed this
  /\ quarterMultiple (brakeSpeed this player obstacles).
Proof.
  intros (Hpos & Hle & Hq & Hqo).
  unfold brakeSpeed, brakePolicy.
  set (s1 := if collisionWithin100 this player obstacles
             then speed this - 0.5 else speed this).
  set (s2 := if hazardWithin this player obstacles 200 then s1 - 0.5 else s1).
  assert (H1 : s1 <= speed this /\ quarterMultiple s1).
  { subst s1. destruct (collisionWithin100 this player obstacles);
      split; auto with quarters; lra. }
  destruct H1 as [H1 H1q].
  assert (H2 : s2 <= speed this /\ quarterMultiple s2).
  { subst s2. destruct (hazardWithin this player obstacles 200);
      split; auto with quarters; lra. }
  destruct H2 as [H2 H2q].
  destruct (hazardWithin this player obstacles 100
            || otherEmergencyVehicle this obstacles).
  - split; [apply Q.max_lub; lra | auto with quarters].
  - destruct (negb (Qeq_bool (originalSpeed this) 0) && Qltb s2 (originalSpeed this))
      eqn:Er.
    + apply andb_true_iff in Er. destruct Er as [_ Er]. reflect_Q.
      pose proof (quarterMultiple_next _ _ H2q Hqo Er).
      split; [apply Q.max_lub; lra | auto with quarters].
    + split; [apply Q.max_lub; lra | auto with quarters].
Qed.

(** A tick keeps an obstacle on its grid of speeds. *)
Lemma tick_onSpeedGrid (this after : Obstacle) :
  onSpeedGrid this -> tick this after ->
  onSpeedGrid after /\ originalSpeed after = originalSpeed this.
Proof.
  intros Hgrid [player obstacles w w' moved Hmove].
  pose proof Hgrid as (Hpos & Hle & Hq & Hqo).
  destruct (moveObstacle_speed _ _ _ _ _ _ Hmove)
    as (Hos & _ & [(_ & Hs & _)|(_ & Hs & _)]);
    (split; [|exact Hos]); unfold onSpeedGrid; rewrite Hos, Hs.
  - repeat split; auto with quarters; lra.
  - destruct (ObstacleAvoidanceType_eqb (avoidance this) BRAKE) eqn:Eb.
    + assert (Hb : avoidance this = BRAKE) by (destruct (avoidance this); easy).
      rewrite (calculateSpeed_brakeSpeed this player obstacles Hb).
      destruct (brakeSpeed_onSpeedGrid this player obstacles Hgrid).
      repeat split; auto. apply brakeSpeed_nonneg.
    + rewrite calculateSpeed_constant by (intros Hb; rewrite Hb in Eb; discriminate).
      repeat split; auto.
Qed.

Lemma afterTicks_onSpeedGrid (this o : Obstacle) :
  onSpeedGrid this -> afterTicks this o ->
  onSpeedGrid o /\ originalSpeed o = originalSpeed this.
Proof.
  intros Hgrid Hticks. induction Hticks as [|o after _ [IHg IHo] Htick].
  - auto.
  - destruct (tick_onSpeedGrid o after IHg Htick) as [Hg Ho].
    split; [exact Hg | congruence].
Qed.

(** C2 (as amended): for every BRAKE obstacle whose speed starts on the
    grid of its original speed (both multiples of 0.25, the speed between
    0 and the original speed, as for an obstacle created at one of the
    [ObstacleSpeeds]), across successive [moveObstacle] ticks: a tick with
    some hazard ahead within 100 does not increase the speed, and a tick
    with no hazard ahead within 200 increases it by at most 0.25 and never
    beyond the original speed. *)
Theorem brake_speed_over_ticks (this o : Obstacle) (player : Player)
    (obstacles : list Obstacle) (w : World) :
  avoidance this = BRAKE ->
  onSpeedGrid this ->
  afterTicks this o ->
  exists after w',
    moveObstacle o player obstacles w = (Returned after, w')
    /\ (someHazardWithin o player obstacles 100 = true -> speed after <= speed o)
    /\ (someHazardWithin o player obstacles 200 = false ->
        speed after <= speed o + 0.25 /\ speed after <= originalSpeed this).
Proof.
  intros _ Hgrid Hticks.
  destruct (afterTicks_onSpeedGrid this o Hgrid Hticks) as [Hg Ho].
  destruct (moveObstacle_returns o player obstacles w) as (after & w' & Hmove).
  exists after, w'. split; [exact Hmove|].
  assert (Htick : tick o after) by (econstructor; exact Hmove).
  destruct (tick_onSpeedGrid o after Hg Htick) as [(_ & Hle' & _) Ho'].
  rewrite Ho', Ho in Hle'.
  pose proof Hg as (Hpos & Hle & _).
  rewrite !someHazardWithin_closest.
  destruct (moveObstacle_speed _ _ _ _ _ _ Hmove)
    as (_ & _ & [(_ & Hs & _)|(_ & Hs & _)]).
  - rewrite Hs in Hle' |- *. split; [intros _; lra | intros _; split; lra].
  - destruct (ObstacleAvoidanceType_eqb (avoidance o) BRAKE) eqn:Eb.
    + assert (Hb : avoidance o = BRAKE) by (destruct (avoidance o); easy).
      pose proof (calculateSpeed_brakeSpeed o player obstacles Hb) as Hc.
      rewrite <- Hs in Hc.
      split.
      * intros H100. rewrite Hc. now apply brakeSpeed_slows.
      * intros H200. split; [|exact Hle'].
        rewrite Hc. now apply brakeSpeed_gains.
    + rewrite calculateSpeed_constant in Hs
        by (intros Hb; rewrite Hb in Eb; discriminate).
      rewrite Hs in Hle' |- *. split; [intros _; lra | intros _; split; lra].
Qed.

Lemma brake_speed_over_ticks_witness :
  let this := car 2 0 0 10 10 RIGHT BRAKE true false in
  let obstacles := [this; car 3 150 0 4 4 RIGHT NONE false false] in
  (exists after w',
     moveObstacle this (pedestrian 90 5) obstacles sceneWorld = (Returned after, w')
     /\ speed after <= speed this)
  /\ (exists after w',
        moveObstacle this (pedestrian 90 500) [this] sceneWorld = (Returned after, w')
        /\ speed after <= speed this + 0.25 /\ speed after <= originalSpeed this).
Proof.
  intros this obstacles.
  assert (Hgrid : onSpeedGrid this).
  { unfold onSpeedGrid. cbn.
    repeat split; try lra; exists 40%Z; reflexivity. }
  split.
  - destruct (brake_speed_over_ticks this this (pedestrian 90 5) obstacles sceneWorld
                eq_refl Hgrid (afterTicks_none this))
      as (after & w' & Hmove & Hnear & _).
    exists after, w'. split; [exact Hmove|]. apply Hnear. reflexivity.
  - destruct (brake_speed_over_ticks this this (pedestrian 90 500) [this] sceneWorld
                eq_refl Hgrid (afterTicks_none this))
      as (after & w' & Hmove & _ & Hclear).
    exists after, w'. split; [exact Hmove|]. apply Hclear. reflexivity.
Defined.

(** C2 as stated fails: an obstacle created at speed 0.1 is stopped by a
    hazard 50 ahead; on the next tick, with no hazard left, its speed is
    0.25, above its original speed. *)
Lemma brake_speed_counterexample :
  let this := car 2 0 0 0.1 0.1 RIGHT BRAKE false false in
  avoidance this = BRAKE
  /\ exists o,
       afterTicks this o
       /\ exists after w',
            moveObstacle o (pedestrian 0 1000) [o] sceneWorld = (Returned after, w')
            /\ someHazardWithin o (pedestrian 0 1000) [o] 200 = false
            /\ speed after == 0.25
            /\ ~ speed after <= originalSpeed this.
Proof.
  intros this. split; [reflexivity|].
  exists (car 100 0 0 0 0.1 RIGHT BRAKE false false). split.
  - eapply afterTicks_more; [apply afterTicks_none|].
    apply (tick_moveObstacle this (pedestrian 50 0) [this] sceneWorld
                             (allocated sceneWorld)).
    vm_compute. reflexivity.
  - eexists. eexists. split; [vm_compute; reflexivity|].
    split; [reflexivity|]. split; [reflexivity|].
    cbn. intros Hle. apply Qle_bool_iff in Hle. discriminate.
Qed.

(** ** Passing *)

(** The ways in which a passing obstacle with an obstacle ahead chooses
    its y: back to the original y when it is slower or when the return is
    safe, unchanged when the obstacle ahead is far or the displacement has
    reached one height, 8 towards the passing side otherwise. *)
Lemma calculateYForPassing_pass (this : Obstacle) (player : Player)
    (obstacles : list Obstacle) (w w1 : World) (closest : Obstacle) (newY : Q) :
  avoidance this = PASS ->
  closestAhead this obstacles = Some closest ->
  calculateYForPassing this player obstacles w = (Returned newY, w1) ->
  let away := Qabs (originalY this - y this) in
  let far := 2 * width this < getDistanceTo this closest in
  speed this < speed closest /\ newY = originalY this
  \/ speed closest <= speed this /\ height this < away /\ newY = originalY this
  \/ speed closest <= speed this /\ far /\ newY = y this
  \/ speed closest <= speed this /\ ~ far /\ away < height this
     /\ newY = y this + 8 * passingSide this
  \/ speed closest <= speed this /\ ~ far /\ height this <= away /\ newY = y this.
Proof.
  intros Hpass Hclosest. unfold calculateYForPassing.
  rewrite Hpass, getClosestObject_closestAhead, Hclosest.
  cbn [ObstacleAvoidanceType_eqb negb].
  destruct (Qltb (speed this) (speed closest)) eqn:Eslow; reflect_Q.
  { intros [= <- _]. left. auto. }
  cbv zeta. unfold bind at 1.
  assert (Hnudge :
    forall w2 : World,
      (if Qltb (2 * width this) (getDistanceTo this closest)
       then ret (y this)
       else
         if Qltb (Qabs (originalY this - y this)) (height this)
         then ret (y this
                   + 8 * (if LaneDirection_eqb (direction this) RIGHT then -1 else 1))
         else ret (y this)) w2 = (Returned newY, w1) ->
      2 * width this < getDistanceTo this closest /\ newY = y this
      \/ ~ 2 * width this < getDistanceTo this closest
         /\ Qabs (originalY this - y this) < height this
         /\ newY = y this + 8 * passingSide this
      \/ ~ 2 * width this < getDistanceTo this closest
         /\ height this <= Qabs (originalY this - y this) /\ newY = y this).
  { intros w2.
    destruct (Qltb (2 * width this) (getDistanceTo this closest)) eqn:Efar;
      reflect_Q.
    - intros [= <- _]. left. auto.
    - destruct (Qltb (Qabs (originalY this - y this)) (height this)) eqn:Eaway;
        reflect_Q; intros [= <- _]; right; [left|right].
      + split; [lra|]. split; [exact Eaway|].
        unfold passingSide. now destruct (direction this).
      + split; [lra|]. auto. }
  destruct (Qltb (height this) (Qabs (originalY this - y this))) eqn:Eout;
    reflect_Q.
  - unfold bind, clone. rewrite new_Obstacle_run.
    match goal with
    | |- context [collisionDetected ?preview obstacles] =>
        destruct (collisionDetected preview obstacles);
        cbn [negb];
        [| destruct (getClosestObject preview obstacles) as [c|];
           [destruct (Qltb (5 * width this) (getDistanceTo preview c))|]]
    end; unfold ret at 1;
      try (intros [= <- _]; right; left; auto);
      intros Hrun; apply Hnudge in Hrun; right; right; tauto.
  - unfold ret at 1. intros Hrun. apply Hnudge in Hrun. right; right; tauto.
Qed.

(** C3 (as amended): for every obstacle with avoidance PASS whose closest
    obstacle strictly ahead is [closest]: if [closest] is farther than two
    obstacle-widths away, [moveObstacle] leaves y unchanged provided the
    obstacle sits at its original y, or is not slower than [closest] and is
    displaced from its original y by at most one height; and if [closest]
    is within two obstacle-widths, the obstacle sits at its original y, is
    not slower than [closest], has a positive height and does not crash
    this tick, one tick shifts y by exactly 8 towards the passing side
    (decreasing y for RIGHT, increasing y for LEFT). *)
Theorem pass_lane_change (this : Obstacle) (player : Player)
    (obstacles : list Obstacle) (w : World) (closest : Obstacle) :
  avoidance this = PASS ->
  closestAhead this obstacles = Some closest ->
  exists after w',
    moveObstacle this player obstacles w = (Returned after, w')
    /\ (2 * width this < distanceAhead this closest ->
        y this == originalY this
        \/ speed closest <= speed this
           /\ Qabs (originalY this - y this) <= height this ->
        y after == y this)
    /\ (distanceAhead this closest <= 2 * width this ->
        y this == originalY this ->
        speed closest <= speed this ->
        0 < height this ->
        crashes this obstacles = false ->
        y after == y this + 8 * passingSide this).
Proof.
  intros Hpass Hclosest.
  destruct (crashes this obstacles) eqn:Ecrash.
  { rewrite (moveObstacle_crashed this player obstacles w Ecrash).
    eexists. eexists. split; [reflexivity|]. cbn [y obstacleObject].
    split; [reflexivity | discriminate]. }
  destruct (moveObstacle_moved this player obstacles w Ecrash)
    as (newY & w1 & Hy & _ & Hmove).
  rewrite Hmove. eexists. eexists. split; [reflexivity|]. cbn [y obstacleObject].
  pose proof (calculateYForPassing_pass _ _ _ _ _ _ _ Hpass Hclosest Hy) as Hcases.
  cbv zeta in Hcases.
  destruct (closestAhead_ahead this obstacles closest Hclosest) as (_ & _ & Hahead).
  pose proof (getDistanceTo_ahead this closest Hahead) as Hdist.
  change (asGameObject closest) with (obstacleObject closest) in Hdist.
  rewrite Hdist in Hcases.
  split.
  - intros Hfar Hhome.
    assert (Haway : y this == originalY this ->
                    Qabs (originalY this - y this) == 0).
    { intros E. rewrite E.
      setoid_replace (originalY this - originalY this) with 0 by ring.
      reflexivity. }
    destruct Hcases
      as [(Hs & ->)|[(Hs & Ho & ->)|[(_ & _ & ->)|[(_ & Hn & _)|(_ & Hn & _)]]]];
      try reflexivity; try (now elim Hn).
    + destruct Hhome as [E|[Hf _]]; [now symmetry | lra].
    + destruct Hhome as [E|[_ Hd]]; [now symmetry | lra].
  - intros Hnear Hhome Hfast Hheight _.
    assert (Haway : Qabs (originalY this - y this) == 0).
    { rewrite Hhome. setoid_replace (originalY this - originalY this) with 0 by ring.
      reflexivity. }
    destruct Hcases
      as [(Hs & _)|[(_ & Ho & _)|[(_ & Hf & _)|[(_ & _ & _ & ->)|(_ & _ & Hd & _)]]]];
      try reflexivity; lra.
Qed.

Lemma pass_lane_change_witness :
  let this := car 2 0 0 10 10 LEFT PASS false false in
  (let slow := car 3 (-30) 0 4 4 LEFT NONE false false in
   exists after w',
     moveObstacle this (pedestrian 0 1000) [this; slow] sceneWorld
     = (Returned after, w')
     /\ y after == y this + 8 * passingSide this)
  /\ (let slow := car 3 (-300) 0 4 4 LEFT NONE false false in
      exists after w',
        moveObstacle this (pedestrian 0 1000) [this; slow] sceneWorld
        = (Returned after, w')
        /\ y after == y this).
Proof.
  intros this. split.
  - intros slow.
    destruct (pass_lane_change this (pedestrian 0 1000) [this; slow] sceneWorld slow
                eq_refl eq_refl)
      as (after & w' & Hmove & _ & Hnear).
    exists after, w'. split; [exact Hmove|].
    apply Hnear; try reflexivity; vm_compute; discriminate.
  - intros slow.
    destruct (pass_lane_change this (pedestrian 0 1000) [this; slow] sceneWorld slow
                eq_refl eq_refl)
      as (after & w' & Hmove & Hfar & _).
    exists after, w'. split; [exact Hmove|].
    apply Hfar; [reflexivity | left; reflexivity].
Defined.

(** C3 as stated fails in both halves.  A passing obstacle that is slower
    than the obstacle 30 ahead of it (within two widths) and sits at its
    original y keeps its y instead of shifting by 8; a passing obstacle
    displaced by 30 from its original y, with a faster obstacle 1000 ahead
    (farther than two widths), goes back to its original y. *)
Lemma pass_lane_change_counterexample :
  (let this := car 2 0 0 4 4 RIGHT PASS false false in
   let fast := car 3 30 0 10 10 RIGHT NONE false false in
   let obstacles := [this; fast] in
   avoidance this = PASS /\ closestAhead this obstacles = Some fast
   /\ distanceAhead this fast <= 2 * width this
   /\ y this == originalY this
   /\ exists after w',
        moveObstacle this (pedestrian 0 1000) obstacles sceneWorld
        = (Returned after, w')
        /\ ~ y after == y this + 8 * passingSide this)
  /\
  (let this :=
     mkObstacle (box 2 0 30 20 10) 4 RIGHT PASS false false 4 0 in
   let fast := car 3 1000 30 10 10 RIGHT NONE false false in
   let obstacles := [this; fast] in
   avoidance this = PASS /\ closestAhead this obstacles = Some fast
   /\ 2 * width this < distanceAhead this fast
   /\ exists after w',
        moveObstacle this (pedestrian 0 1000) obstacles sceneWorld
        = (Returned after, w')
        /\ ~ y after == y this).
Proof.
  split.
  - intros this fast obstacles.
    split; [reflexivity|]. split; [reflexivity|].
    split; [vm_compute; discriminate|]. split; [reflexivity|].
    eexists. eexists. split; [vm_compute; reflexivity|].
    vm_compute. discriminate.
  - intros this fast obstacles.
    split; [reflexivity|]. split; [reflexivity|].
    split; [vm_compute; reflexivity|].
    eexists. eexists. split; [vm_compute; reflexivity|].
    vm_compute. discriminate.
Qed.

(** ** Crashes *)

Lemma collisionDetected_overlaps (this : Obstacle) (obstacles : list Obstacle) :
  collisionDetected this obstacles = overlapsAnother this obstacles.
Proof.
  unfold collisionDetected, overlapsAnother.
  induction obstacles as [|o rest IH]; [reflexivity|].
  cbn [existsb]. rewrite IH. now destruct (sameObstacle o this).
Qed.

Lemma calculateYForPassing_stays (this : Obstacle) (player : Player)
    (obstacles : list Obstacle) (w : World) :
  avoidance this <> PASS ->
  calculateYForPassing this player obstacles w = (Returned (y this), w).
Proof.
  intros Hother. unfold calculateYForPassing.
  destruct (avoidance this); try reflexivity. now elim Hother.
Qed.

(** A crashed obstacle stays as it is on every tick. *)
Lemma tick_crashedVariantOf (this crashed after : Obstacle) :
  crashedVariantOf this crashed -> tick crashed after ->
  crashedVariantOf this after.
Proof.
  intros (Hs & Hdc & Hev & Hav & Hx & Hy & Hw & Hh & Hos & Hoy & Hd & Hi)
         [player obstacles w w' moved Hmove].
  assert (Hfree : crashes crashed obstacles = false)
    by (unfold crashes; now rewrite Hdc).
  destruct (moveObstacle_moved crashed player obstacles w Hfree)
    as (newY & w1 & HnewY & _ & Hm).
  rewrite calculateYForPassing_stays in HnewY by (rewrite Hav; discriminate).
  injection HnewY as <- <-.
  rewrite Hm in Hmove. injection Hmove as <- _.
  rewrite calculateSpeed_constant by (rewrite Hav; discriminate).
  unfold crashedVariantOf. cbn.
  repeat split; try assumption.
  rewrite Hx, Hs. ring.
Qed.

Lemma afterTicks_crashedVariantOf (this crashed later : Obstacle) :
  crashedVariantOf this crashed -> afterTicks crashed later ->
  crashedVariantOf this later.
Proof.
  intros Hcrashed Hticks. induction Hticks as [|o after _ IH Htick].
  - exact Hcrashed.
  - exact (tick_crashedVariantOf this o after IH Htick).
Qed.

(** C4: an obstacle with [detectCollisions] whose box overlaps another
    obstacle of the list it is advanced against becomes the crashed variant:
    speed 0, no collision detection, no emergency vehicle, avoidance NONE,
    position and size unchanged, origin fields preserved.  On every later
    tick the obstacle does not meet the crash condition again and is still
    that crashed variant. *)
Theorem crash_is_terminal (this : Obstacle) (player : Player)
    (obstacles : list Obstacle) (w : World) :
  detectCollisions this = true ->
  overlapsAnother this obstacles = true ->
  exists crashed w',
    moveObstacle this player obstacles w = (Returned crashed, w')
    /\ crashedVariantOf this crashed
    /\ forall later,
         afterTicks crashed later ->
         crashedVariantOf this later
         /\ (forall obstacles', crashes later obstacles' = false)
         /\ (forall player' obstacles' w2,
               exists after w3,
                 moveObstacle later player' obstacles' w2 = (Returned after, w3)).
Proof.
  intros Hdc Hoverlap.
  assert (Hcrash : crashes this obstacles = true)
    by (unfold crashes; now rewrite Hdc, collisionDetected_overlaps, Hoverlap).
  rewrite (moveObstacle_crashed this player obstacles w Hcrash).
  eexists. eexists. split; [reflexivity|].
  match goal with
  | |- crashedVariantOf this ?c /\ _ =>
      assert (Hcrashed : crashedVariantOf this c)
        by (unfold crashedVariantOf; cbn; repeat split; reflexivity)
  end.
  split; [exact Hcrashed|].
  intros later Hlater.
  pose proof (afterTicks_crashedVariantOf _ _ _ Hcrashed Hlater) as Hl.
  split; [exact Hl|]. split.
  - intros obstacles'. unfold crashes.
    destruct Hl as (_ & -> & _). reflexivity.
  - intros player' obstacles' w2. apply moveObstacle_returns.
Qed.

Lemma crash_is_terminal_witness :
  let this := car 2 0 0 10 10 RIGHT BRAKE true true in
  let obstacles := [this; car 3 10 0 4 4 RIGHT NONE false false] in
  exists crashed w',
    moveObstacle this (pedestrian 0 1000) obstacles sceneWorld = (Returned crashed, w')
    /\ crashedVariantOf this crashed
    /\ forall later,
         afterTicks crashed later ->
         crashedVariantOf this later
         /\ (forall obstacles', crashes later obstacles' = false)
         /\ (forall player' obstacles' w2,
               exists after w3,
                 moveObstacle later player' obstacles' w2 = (Returned after, w3)).
Proof.
  intros this obstacles.
  apply (crash_is_terminal this (pedestrian 0 1000) obstacles sceneWorld);
    reflexivity.
Defined.

(** ** Leaving the street *)

Lemma tick_direction (this after : Obstacle) :
  tick this after -> direction after = direction this.
Proof.
  intros [player obstacles w w' moved Hmove].
  destruct (crashes this obstacles) eqn:E.
  - rewrite (moveObstacle_crashed this player obstacles w E) in Hmove.
    now injection Hmove as <- _.
  - destruct (moveObstacle_moved this player obstacles w E) as (?&?&_&_&Hm).
    rewrite Hm in Hmove. now injection Hmove as <- _.
Qed.

(** Advancing a list of obstacles returns the advanced obstacles, in
    order. *)
Lemma mapM_moveObstacle (player : Player) (obstacles : list Obstacle)
    (l : list Obstacle) :
  forall w, exists moved w',
    mapM (fun obstacle => moveObstacle obstacle player obstacles) l w
    = (Returned moved, w')
    /\ Forall2 tick l moved.
Proof.
  induction l as [|o rest IH]; intros w.
  - exists [], w. split; [reflexivity | constructor].
  - destruct (moveObstacle_returns o player obstacles w) as (o' & w1 & Ho).
    destruct (IH w1) as (moved & w' & Hrest & Hticks).
    exists (o' :: moved), w'. split.
    + cbn [mapM]. unfold bind. rewrite Ho, Hrest. reflexivity.
    + constructor; [econstructor; exact Ho | exact Hticks].
Qed.

Lemma staysInLane_exitedLane (lane : Lane) (obstacle : Obstacle) :
  staysInLane lane obstacle = negb (exitedLane lane obstacle).
Proof.
  unfold staysInLane, exitedLane, Qltb. now destruct (Lane_direction lane).
Qed.

(** C5 (as amended): [updateObstacles] first advances every obstacle of
    the lane and then keeps exactly the advanced obstacles that have not
    left the street in the direction of the lane: in a LEFT lane an
    obstacle is dropped iff its post-move x + width <= 0, in a RIGHT lane
    iff its post-move x >= streetLength; the survivors make up the new
    lane, in order, and the rest of the lane is unchanged.  When every
    obstacle of the lane travels in the direction of the lane, this is the
    rule on the direction of the obstacle. *)
Theorem lane_keeps_obstacles_in_street (lane : Lane) (player : Player)
    (obstacles : list Obstacle) (w : World) :
  exists moved lane' w',
    mapM (fun obstacle => moveObstacle obstacle player obstacles)
         (Lane_obstacles lane) w = (Returned moved, w')
    /\ Forall2 tick (Lane_obstacles lane) moved
    /\ Lane_updateObstacles lane player obstacles w = (Returned lane', w')
    /\ Lane_obstacles lane'
       = filter (fun obstacle => negb (exitedLane lane obstacle)) moved
    /\ lane' = mkLane (Lane_direction lane) (laneWidth lane) (streetLength lane)
                      (centerY lane) (lineStyle lane) (obstacleProducers lane)
                      (Lane_obstacles lane')
    /\ (Forall (fun obstacle => direction obstacle = Lane_direction lane)
               (Lane_obstacles lane) ->
        Lane_obstacles lane'
        = filter (fun obstacle => negb (exitedStreet (streetLength lane) obstacle))
                 moved).
Proof.
  destruct (mapM_moveObstacle player obstacles (Lane_obstacles lane) w)
    as (moved & w' & Hmoved & Hticks).
  exists moved. eexists. exists w'.
  split; [exact Hmoved|]. split; [exact Hticks|].
  split; [unfold Lane_updateObstacles, bind; rewrite Hmoved; reflexivity|].
  cbn [Lane_obstacles].
  assert (Hfilter : filter (staysInLane lane) moved
                    = filter (fun obstacle => negb (exitedLane lane obstacle)) moved).
  { apply filter_ext. intros o. apply staysInLane_exitedLane. }
  split; [exact Hfilter|]. split; [reflexivity|].
  intros Hdirections. rewrite Hfilter.
  apply filter_ext_in. intros o' Hin.
  assert (Hd : direction o' = Lane_direction lane).
  { clear Hmoved Hfilter. induction Hticks as [|o m l l' Htick _ IH].
    - contradiction.
    - inversion Hdirections as [|? ? Ho Hrest]; subst.
      destruct Hin as [<-|Hin].
      + rewrite (tick_direction o m Htick). exact Ho.
      + now apply IH. }
  unfold exitedLane, exitedStreet. now rewrite Hd.
Qed.

Lemma lane_keeps_obstacles_in_street_witness :
  let leaving := car 2 (-25) 0 10 10 LEFT NONE false false in
  let staying := car 3 200 0 10 10 LEFT NONE false false in
  let lane := mkLane LEFT 120 600 60 defaultLines [] [leaving; staying] in
  exists moved lane' w',
    mapM (fun obstacle => moveObstacle obstacle (pedestrian 0 1000) [leaving; staying])
         (Lane_obstacles lane) sceneWorld = (Returned moved, w')
    /\ Lane_updateObstacles lane (pedestrian 0 1000) [leaving; staying] sceneWorld
       = (Returned lane', w')
    /\ Lane_obstacles lane'
       = filter (fun obstacle => negb (exitedStreet (streetLength lane) obstacle))
                moved.
Proof.
  intros leaving staying lane.
  destruct (lane_keeps_obstacles_in_street lane (pedestrian 0 1000)
              [leaving; staying] sceneWorld)
    as (moved & lane' & w' & Hmoved & _ & Hupdate & _ & _ & Hown).
  exists moved, lane', w'. split; [exact Hmoved|]. split; [exact Hupdate|].
  apply Hown. repeat constructor.
Defined.

(** C5 as stated fails: a stopped LEFT-direction obstacle at x = -30 of
    width 20 in a RIGHT lane has x + width <= 0 after its move, and the
    lane keeps it. *)
Lemma lane_drop_counterexample :
  let stray := car 2 (-30) 0 0 0 LEFT NONE false false in
  let lane := mkLane RIGHT 120 600 60 defaultLines [] [stray] in
  exists moved lane' w',
    mapM (fun obstacle => moveObstacle obstacle (pedestrian 0 1000) [stray])
         (Lane_obstacles lane) sceneWorld = (Returned moved, w')
    /\ Lane_updateObstacles lane (pedestrian 0 1000) [stray] sceneWorld
       = (Returned lane', w')
    /\ (exists o, In o moved /\ direction o = LEFT
                  /\ x o + width o <= 0 /\ In o (Lane_obstacles lane'))
    /\ Lane_obstacles lane'
       <> filter (fun obstacle => negb (exitedStreet (streetLength lane) obstacle))
                 moved.
Proof.
  intros stray lane.
  eexists. eexists. eexists.
  split; [vm_compute; reflexivity|]. split; [vm_compute; reflexivity|].
  split.
  - eexists. split; [left; reflexivity|]. split; [reflexivity|].
    split; [vm_compute; discriminate | left; reflexivity].
  - vm_compute. discriminate.
Qed.

(** ** The crosswalk sign *)

Lemma update_toggles (this : CrosswalkSign) (others : list Entity) (w : World) :
  toggles this others w = true ->
  update this others w
  = (Returned
       (mkCrosswalkSign
          (mkGameObject (nextRef w) (x this) (y this) getImageWidth getImageHeight
             (Some (flashingImage this))
             (calculateFlipHorizontal true (negb (flashingSequence this))
                                      (CrosswalkSign_direction this))
             (calculateAngle true (negb (flashingSequence this))
                             (CrosswalkSign_direction this)))
          (CrosswalkSign_direction this) (crosswalk this) true
          (negb (flashingSequence this)) (clock w (S (dateNowCalls w)))
          (notFlashingImage this) (flashingImage this)),
     allocated (clockRead (clockRead w))).
Proof.
  unfold toggles, playerInCrosswalk, sinceLastFlash, update.
  intros Htoggle. apply andb_true_iff in Htoggle. destruct Htoggle as [Hon Hdue].
  cbv zeta. rewrite Hon. unfold bind at 1. cbn [Date_now].
  unfold getFlashIntervalInMilliseconds. rewrite Hdue. reflexivity.
Qed.

Lemma update_rests (this : CrosswalkSign) (others : list Entity) (w : World) :
  toggles this others w = false ->
  exists w', update this others w = (Returned this, w').
Proof.
  unfold toggles, playerInCrosswalk, sinceLastFlash, update.
  intros Htoggle. cbv zeta.
  destruct (flashing this
            || match findInstance instanceofPlayer others with
               | Some p => intersects p (crosswalk this)
               | None => false
               end).
  - cbn [andb] in Htoggle. unfold bind at 1. cbn [Date_now].
    unfold getFlashIntervalInMilliseconds. rewrite Htoggle.
    eexists. reflexivity.
  - eexists. reflexivity.
Qed.

Lemma signTick_flashing (this after : CrosswalkSign) :
  flashing this = true -> signTick this after -> flashing after = true.
Proof.
  intros Hon [others w w' updated Hupdate].
  destruct (toggles this others w) eqn:E.
  - rewrite (update_toggles this others w E) in Hupdate.
    now injection Hupdate as <- _.
  - destruct (update_rests this others w E) as (w1 & Hrest).
    rewrite Hrest in Hupdate. now injection Hupdate as <- _.
Qed.

(** C6 (as amended): on each update tick of the pedestrian signal, the
    sequence flag is flipped and the toggle timestamp restamped if and
    only if (the signal is already flashing, or the player's box
    intersects the monitored crosswalk) and more than 500 ms have elapsed
    since the previous toggle; any such flip also sets [flashing]; and once
    [flashing] is true, no later update returns a signal that is not
    flashing. *)
Theorem sign_toggle (this : CrosswalkSign) (others : list Entity) (w : World) :
  exists after w',
    update this others w = (Returned after, w')
    /\ (toggles this others w = true ->
        flashingSequence after = negb (flashingSequence this)
        /\ timestampOfPreviousFlash after = clock w (S (dateNowCalls w))
        /\ flashing after = true)
    /\ (toggles this others w = false -> after = this)
    /\ (flashing this = true ->
        forall later, afterUpdates this later -> flashing later = true).
Proof.
  assert (Hlatch : forall s later,
             flashing s = true -> afterUpdates s later -> flashing later = true).
  { intros s later Hon Hupdates. induction Hupdates as [|s' s'' _ IH Htick].
    - exact Hon.
    - exact (signTick_flashing s' s'' IH Htick). }
  destruct (toggles this others w) eqn:E.
  - rewrite (update_toggles this others w E).
    eexists. eexists. split; [reflexivity|]. cbn.
    split; [auto|]. split; [discriminate|].
    intros Hon later. now apply Hlatch.
  - destruct (update_rests this others w E) as (w' & Hrest).
    exists this, w'. split; [exact Hrest|].
    split; [discriminate|]. split; [reflexivity|].
    intros Hon later. now apply Hlatch.
Qed.

Lemma sign_toggle_witness :
  let sign := signAt false false 0 in
  let others := [AnObstacle (car 2 0 0 10 10 RIGHT NONE false false);
                 APlayer (pedestrian 110 50)] in
  exists after w',
    update sign others (worldAt 501 502) = (Returned after, w')
    /\ flashingSequence after = true
    /\ timestampOfPreviousFlash after = 502%Z
    /\ flashing after = true.
Proof.
  intros sign others.
  destruct (sign_toggle sign others (worldAt 501 502))
    as (after & w' & Hupdate & Hflip & _ & _).
  exists after, w'. split; [exact Hupdate|].
  apply Hflip. reflexivity.
Defined.

(** C6 as stated fails: exactly 500 ms after the previous toggle a
    flashing signal is returned as it is, neither flipped nor restamped. *)
Lemma sign_toggle_counterexample :
  let sign := signAt true false 0 in
  claimedToggle sign [] (worldAt 500 500) = true
  /\ exists w', update sign [] (worldAt 500 500) = (Returned sign, w').
Proof.
  intros sign. split; [reflexivity|].
  eexists. vm_compute. reflexivity.
Qed.

(** ** Producers *)

Lemma ObstacleProducer_readyForNext_run (this : ObstacleProducer)
    (objects : list Entity) (w : World) :
  ObstacleProducer_readyForNext this objects w
  = (Returned (timeGatePassed this w), clockRead w).
Proof. reflexivity. Qed.

Lemma findInstance_Player_none (objects : list Entity) :
  findInstance instanceofPlayer objects = None <-> existsb isPlayer objects = false.
Proof.
  induction objects as [|e rest IH]; cbn; [tauto|].
  destruct e; cbn; try exact IH. split; discriminate.
Qed.

Lemma findInstance_CrosswalkSign_none (objects : list Entity) :
  findInstance instanceofCrosswalkSign objects = None
  <-> existsb isCrosswalkSign objects = false.
Proof.
  induction objects as [|e rest IH]; cbn; [tauto|].
  destruct e; cbn; try exact IH. split; discriminate.
Qed.

(** Whatever its class and its outcome, a readiness check only reads the
    clock once. *)
Lemma readyForNext_world (this : ObstacleProducer) (objects : list Entity)
    (w : World) :
  snd (readyForNext this objects w) = clockRead w.
Proof.
  unfold readyForNext, TargetObstacleProducer_readyForNext,
    CrosswalkObstacleProducer_readyForNext, bind.
  destruct (producerClass this); rewrite ?ObstacleProducer_readyForNext_run;
    try reflexivity;
    destruct (timeGatePassed this w); try reflexivity.
  - now destruct (findInstance instanceofPlayer objects).
  - now destruct (findInstance instanceofCrosswalkSign objects).
Qed.

(** A producer of any class is ready only when its time gate is open. *)
Lemma readyForNext_timeGate (this : ObstacleProducer) (objects : list Entity)
    (w : World) :
  fst (readyForNext this objects w) = Returned true -> timeGatePassed this w = true.
Proof.
  unfold readyForNext, TargetObstacleProducer_readyForNext,
    CrosswalkObstacleProducer_readyForNext, bind.
  destruct (producerClass this); rewrite ?ObstacleProducer_readyForNext_run;
    destruct (timeGatePassed this w); cbn; congruence.
Qed.

(** An outcome is a throw under [P] and a result otherwise. *)
Lemma thrown_iff {A : Type} (outcome : Outcome A) (P : Prop) :
  match outcome with
  | Thrown _ => P
  | Returned _ => ~ P
  end ->
  ((exists message, outcome = Thrown message) <-> P)
  /\ ((exists a, outcome = Returned a) <-> ~ P).
Proof.
  destruct outcome as [a|message]; intros HP; split; split.
  - intros [? [=]].
  - intros HP'. contradiction.
  - intros _. exact HP.
  - intros _. now exists a.
  - intros _. exact HP.
  - intros _. now exists message.
  - intros [? [=]].
  - intros HP'. contradiction.
Qed.

(** C8: [readyForNext] of the target-gated producer throws iff its time
    gate has passed and the entities contain no player; [readyForNext] of
    the crosswalk-gated producer throws iff its time gate has passed and
    the entities contain no crosswalk sign; otherwise both return a
    boolean; and in every case, the error path included, the only change
    of the world is the reading of the clock: no timestamp of a producer
    changes and nothing is allocated. *)
Theorem gated_readiness_errors (this : ObstacleProducer) (target : GameObject)
    (objects : list Entity) (w : World) :
  (let run := TargetObstacleProducer_readyForNext this target objects w in
   ((exists message, fst run = Thrown message)
    <-> timeGatePassed this w = true /\ existsb isPlayer objects = false)
   /\ ((exists ready, fst run = Returned ready)
       <-> ~ (timeGatePassed this w = true /\ existsb isPlayer objects = false))
   /\ snd run = clockRead w
   /\ lastObstacleTime (snd run) = lastObstacleTime w
   /\ nextRef (snd run) = nextRef w)
  /\
  (let run := CrosswalkObstacleProducer_readyForNext this objects w in
   ((exists message, fst run = Thrown message)
    <-> timeGatePassed this w = true /\ existsb isCrosswalkSign objects = false)
   /\ ((exists ready, fst run = Returned ready)
       <-> ~ (timeGatePassed this w = true
              /\ existsb isCrosswalkSign objects = false))
   /\ snd run = clockRead w
   /\ lastObstacleTime (snd run) = lastObstacleTime w
   /\ nextRef (snd run) = nextRef w).
Proof.
  split; cbv zeta.
  - unfold TargetObstacleProducer_readyForNext, bind.
    rewrite ObstacleProducer_readyForNext_run.
    pose proof (findInstance_Player_none objects) as Hnone.
    match goal with
    | |- ?A /\ ?B /\ ?C =>
        cut (A /\ B);
        [intros [HA HB]; split; [exact HA|]; split; [exact HB|] |
         apply thrown_iff]
    end.
    + destruct (timeGatePassed this w);
        [destruct (findInstance instanceofPlayer objects)|]; repeat split.
    + destruct (timeGatePassed this w);
        [destruct (findInstance instanceofPlayer objects)|]; cbn.
      * intros [_ E]. apply Hnone in E. discriminate.
      * split; [reflexivity | now apply Hnone].
      * intros [[=] _].
  - unfold CrosswalkObstacleProducer_readyForNext, bind.
    rewrite ObstacleProducer_readyForNext_run.
    pose proof (findInstance_CrosswalkSign_none objects) as Hnone.
    match goal with
    | |- ?A /\ ?B /\ ?C =>
        cut (A /\ B);
        [intros [HA HB]; split; [exact HA|]; split; [exact HB|] |
         apply thrown_iff]
    end.
    + destruct (timeGatePassed this w);
        [destruct (findInstance instanceofCrosswalkSign objects)|]; repeat split.
    + destruct (timeGatePassed this w);
        [destruct (findInstance instanceofCrosswalkSign objects)|]; cbn.
      * intros [_ E]. apply Hnone in E. discriminate.
      * split; [reflexivity | now apply Hnone].
      * intros [[=] _].
Qed.

(** ** Firing a producer *)

Lemma next_run (this : ObstacleProducer) (x0 : Q) (w : World) :
  next this x0 w
  = (Returned
       (mkObstacle
          (mkGameObject (nextRef w)
             (if negb (assignX this) then x (template this) else x0)
             (y (template this)) (width (template this)) (height (template this))
             (image (template this))
             (LaneDirection_eqb (direction (template this)) LEFT) AngleZero)
          (speed (template this)) (direction (template this))
          (avoidance (template this)) (detectCollisions (template this))
          (emergencyVehicle (template this)) (originalSpeed (template this))
          (originalY (template this))),
     snd (next this 0 w)).
Proof. reflexivity. Qed.

(** A call of [next] allocates the obstacle, reads the clock and stamps
    the reading on the producer. *)
Lemma next_world (this : ObstacleProducer) (x0 : Q) (w : World) :
  let w' := snd (next this x0 w) in
  nextRef w' = S (nextRef w)
  /\ dateNowCalls w' = S (dateNowCalls w)
  /\ clock w' = clock w
  /\ lastObstacleTime w' (pref this) = clock w (dateNowCalls w)
  /\ (forall r, r <> pref this -> lastObstacleTime w' r = lastObstacleTime w r).
Proof.
  cbn. rewrite Nat.eqb_refl. repeat split.
  intros r Hr. apply Nat.eqb_neq in Hr. now rewrite Hr.
Qed.

Lemma afterNexts_world (this : ObstacleProducer) (w : World) (k : nat) :
  nextRef (afterNexts this w k) = (nextRef w + k)%nat
  /\ dateNowCalls (afterNexts this w k) = (dateNowCalls w + k)%nat
  /\ clock (afterNexts this w k) = clock w
  /\ (forall r, r <> pref this ->
        lastObstacleTime (afterNexts this w k) r = lastObstacleTime w r).
Proof.
  induction k as [|k (IHr & IHd & IHc & IHo)].
  - cbn. rewrite !Nat.add_0_r. auto.
  - cbn [afterNexts].
    destruct (next_world this 0 (afterNexts this w k)) as (Hr & Hd & Hc & _ & Ho).
    cbv zeta in Hr, Hd, Hc, Ho.
    rewrite Hr, Hd, Hc, IHr, IHd, IHc. repeat split; try lia.
    intros r Hne. rewrite Ho by exact Hne. now apply IHo.
Qed.

Lemma afterNexts_stamp (this : ObstacleProducer) (w : World) (k : nat) :
  lastObstacleTime (afterNexts this w (S k)) (pref this)
  = clock w (dateNowCalls w + k)%nat.
Proof.
  cbn [afterNexts].
  destruct (next_world this 0 (afterNexts this w k)) as (_ & _ & _ & Hs & _).
  cbv zeta in Hs. rewrite Hs.
  destruct (afterNexts_world this w k) as (_ & Hd & Hc & _).
  now rewrite Hd, Hc.
Qed.

(** The attempt number [k] proposes [candidate k]. *)
Lemma next_candidate (producer : ObstacleProducer) (lane : Lane) (x0 : Q)
    (w : World) (k : nat) :
  next producer (safeXAt producer lane x0 k) (afterNexts producer w k)
  = (Returned (candidate producer lane x0 w k), afterNexts producer w (S k)).
Proof.
  rewrite next_run. unfold candidate.
  destruct (afterNexts_world producer w k) as (-> & _).
  reflexivity.
Qed.

(** The loop returns the first candidate that is free of collisions, or
    the third one; with the fuel that [produce] gives it, it never runs
    out of fuel. *)
Lemma retryLoop_fuel (producer : ObstacleProducer) (lane : Lane) (x0 : Q)
    (w : World) (fuel : nat) :
  forall k : nat,
    (k <= 2)%nat -> (2 <= k + fuel)%nat ->
    exists k' : nat,
      (k <= k' < 3)%nat
      /\ retryLoop fuel k producer lane (safeXAt producer lane x0 k)
                   (afterNexts producer w k)
         = (Returned (candidate producer lane x0 w k'),
            afterNexts producer w (S k'))
      /\ (forall j, (k <= j < k')%nat ->
            collisionDetected (candidate producer lane x0 w j)
                              (Lane_obstacles lane) = true)
      /\ ((k' < 2)%nat ->
          collisionDetected (candidate producer lane x0 w k')
                            (Lane_obstacles lane) = false).
Proof.
  induction fuel as [|fuel IH]; intros k Hk Hfuel.
  - assert (k = 2)%nat by lia. subst k. exists 2%nat.
    split; [lia|]. split.
    + cbn [retryLoop]. unfold bind. rewrite next_candidate. reflexivity.
    + split; intros; lia.
  - cbn [retryLoop]. unfold bind. rewrite next_candidate. cbv zeta.
    destruct (Nat.ltb (S k) 3) eqn:Elt; cbn [andb].
    + apply Nat.ltb_lt in Elt.
      destruct (collisionDetected (candidate producer lane x0 w k)
                                  (Lane_obstacles lane)) eqn:Ec.
      * destruct (IH (S k)) as (k' & Hk' & Hrun & Hbefore & Hfree); try lia.
        exists k'. split; [lia|]. split; [exact Hrun|]. split; [|exact Hfree].
        intros j Hj. destruct (Nat.eq_dec j k) as [->|Hne]; [exact Ec|].
        apply Hbefore. lia.
      * exists k. split; [lia|]. split; [reflexivity|].
        split; [intros; lia | intros _; exact Ec].
    + apply Nat.ltb_ge in Elt. exists k.
      split; [lia|]. split; [reflexivity|]. split; intros; lia.
Qed.

Lemma fires_ready (producer : ObstacleProducer) (objects : list Entity)
    (randomProducerIndex : Z) (index : nat) (w : World) :
  fires producer objects randomProducerIndex index w = true ->
  readyForNext producer objects w = (Returned true, clockRead w)
  /\ negb (randomizeTraffic producer)
     || Z.eqb (Z.of_nat index) randomProducerIndex = true.
Proof.
  unfold fires. intros Hfires.
  pose proof (readyForNext_world producer objects w) as Hw.
  destruct (readyForNext producer objects w) as [[[|]|] w1];
    cbn in Hfires, Hw; try discriminate.
  subst w1. auto.
Qed.

(** A producer that does not fire leaves the lane as it is, or throws. *)
Lemma produce_idle (x0 : Q) (objects : list Entity) (randomProducerIndex : Z)
    (lane : Lane) (index : nat) (producer : ObstacleProducer) (w : World) :
  fires producer objects randomProducerIndex index w = false ->
  snd (produce x0 objects randomProducerIndex lane index producer w) = clockRead w
  /\ (produce x0 objects randomProducerIndex lane index producer w
      = (Returned lane, clockRead w)
      \/ exists message,
           produce x0 objects randomProducerIndex lane index producer w
           = (Thrown message, clockRead w)).
Proof.
  unfold fires, produce, bind. intros Hidle.
  pose proof (readyForNext_world producer objects w) as Hw.
  destruct (readyForNext producer objects w) as [[[|]|message] w1];
    cbn in Hidle, Hw; subst w1.
  - rewrite Hidle. cbn. auto.
  - cbn. auto.
  - cbn. eauto.
Qed.

(** A producer that fires appends one of its candidates to the lane. *)
Lemma produce_fires (x0 : Q) (objects : list Entity) (randomProducerIndex : Z)
    (lane : Lane) (index : nat) (producer : ObstacleProducer) (w : World) :
  fires producer objects randomProducerIndex index w = true ->
  exists (k : nat) (w' : World),
    produce x0 objects randomProducerIndex lane index producer w
    = (Returned (addObstacle lane (candidate producer lane x0 w k)), w').
Proof.
  intros Hfires. destruct (fires_ready _ _ _ _ _ Hfires) as [Hready Hselected].
  destruct (retryLoop_fuel producer lane x0 (clockRead w) 3 0)
    as (k & _ & Hrun & _); try lia.
  exists k, (afterNexts producer (clockRead w) (S k)).
  unfold produce, bind. rewrite Hready, Hselected.
  change (safeXAt producer lane x0 0) with x0 in Hrun.
  change (afterNexts producer (clockRead w) 0) with (clockRead w) in Hrun.
  rewrite Hrun. reflexivity.
Qed.

(** Only the lane drawn for the tick, and only below the cap of 15
    obstacles, goes through its producers. *)
Lemma generateInLane_unchanged (this : Street) (player : Player)
    (randomLaneIndex : Z) (lane : Lane) (index : nat) (w : World) :
  Z.of_nat index <> randomLaneIndex
  \/ (maxPerLane <= List.length (Lane_obstacles lane))%nat ->
  generateInLane this player randomLaneIndex lane index w = (Returned lane, w).
Proof.
  unfold generateInLane. intros [Hother|Hfull].
  - apply Z.eqb_neq in Hother. now rewrite Hother.
  - apply Nat.ltb_ge in Hfull. rewrite Hfull.
    now destruct (Z.eqb (Z.of_nat index) randomLaneIndex).
Qed.

(** ** The constructors of the producers *)



(** ** What [generateObstacles] appends *)

Lemma safeXAt_off (producer : ObstacleProducer) (lane : Lane) (x0 : Q) (k : nat) :
  0 <= width (template producer) ->
  match Lane_direction lane with
  | LEFT => x0 <= safeXAt producer lane x0 k
  | RIGHT => safeXAt producer lane x0 k <= x0
  end.
Proof.
  intros Hwidth. induction k as [|k IH]; cbn [safeXAt].
  - destruct (Lane_direction lane); lra.
  - destruct (Lane_direction lane); cbn [directionValue] in *; lra.
Qed.

Lemma candidate_spawnedAt (producer : ObstacleProducer) (lane : Lane) (x0 : Q)
    (w : World) (k : nat) (producers : list ObstacleProducer) :
  In producer producers ->
  spawnedAt x0 (Lane_direction lane) producers (candidate producer lane x0 w k).
Proof.
  intros Hin. exists producer. split; [exact Hin|].
  split; [unfold cloneOf, candidate; cbn; repeat split|].
  unfold candidate. cbn [x obstacleObject]. split.
  - intros ->. reflexivity.
  - intros -> Hwidth. cbn [negb]. now apply safeXAt_off.
Qed.

Lemma spawnedAt_more (x0 : Q) (d : LaneDirection) (producer : ObstacleProducer)
    (producers : list ObstacleProducer) (o : Obstacle) :
  spawnedAt x0 d producers o -> spawnedAt x0 d (producer :: producers) o.
Proof.
  intros (p & Hin & Hrest). exists p. split; [now right | exact Hrest].
Qed.

(** Going through the producers of a lane appends, for each of them at
    most, an obstacle spawned from it. *)
Lemma forEachProducer_spawns (x0 : Q) (objects : list Entity)
    (randomProducerIndex : Z) (producers : list ObstacleProducer) :
  forall (index : nat) (lane lane' : Lane) (w w' : World),
    forEachProducer x0 objects randomProducerIndex producers index lane w
    = (Returned lane', w') ->
    exists added : list Obstacle,
      lane' = mkLane (Lane_direction lane) (laneWidth lane) (streetLength lane)
                     (centerY lane) (lineStyle lane) (obstacleProducers lane)
                     (Lane_obstacles lane ++ added)
      /\ (List.length added <= List.length producers)%nat
      /\ Forall (spawnedAt x0 (Lane_direction lane) producers) added.
Proof.
  induction producers as [|producer rest IH]; intros index lane lane' w w' Hrun.
  - cbn in Hrun. injection Hrun as <- _. exists [].
    rewrite app_nil_r. destruct lane. repeat split; auto.
  - cbn [forEachProducer] in Hrun. unfold bind in Hrun.
    destruct (fires producer objects randomProducerIndex index w) eqn:Efires.
    + destruct (produce_fires x0 objects randomProducerIndex lane index producer w
                              Efires)
        as (k & w1 & Hproduce).
      rewrite Hproduce in Hrun.
      destruct (IH _ _ _ _ _ Hrun) as (added & Hlane & Hcount & Hspawned).
      exists (candidate producer lane x0 w k :: added).
      cbn [addObstacle Lane_direction laneWidth streetLength centerY lineStyle
           obstacleProducers Lane_obstacles] in Hlane, Hspawned.
      rewrite <- app_assoc in Hlane. split; [exact Hlane|].
      split; [cbn [List.length]; lia|].
      constructor; [apply candidate_spawnedAt; now left|].
      eapply Forall_impl; [|exact Hspawned]. intros o. apply spawnedAt_more.
    + destruct (produce_idle x0 objects randomProducerIndex lane index producer w
                             Efires)
        as [_ [Hidle|[message Hthrown]]].
      * rewrite Hidle in Hrun.
        destruct (IH _ _ _ _ _ Hrun) as (added & Hlane & Hcount & Hspawned).
        exists added. split; [exact Hlane|]. split; [cbn [List.length]; lia|].
        eapply Forall_impl; [|exact Hspawned]. intros o. apply spawnedAt_more.
      * rewrite Hthrown in Hrun. discriminate.
Qed.

Lemma laneGenerated_same (randomLaneIndex : Z) (index : nat) (lane : Lane) :
  laneGenerated randomLaneIndex index lane lane.
Proof.
  exists []. rewrite app_nil_r. split; [now destruct lane|].
  split; [cbn; lia|]. split; [reflexivity | constructor].
Qed.

Lemma generateInLane_generated (this : Street) (player : Player)
    (randomLaneIndex : Z) (lane lane' : Lane) (index : nat) (w w' : World) :
  generateInLane this player randomLaneIndex lane index w = (Returned lane', w') ->
  laneGenerated randomLaneIndex index lane lane'.
Proof.
  intros Hrun.
  destruct (Z.eqb (Z.of_nat index) randomLaneIndex) eqn:Edrawn;
    [destruct (Nat.ltb (List.length (Lane_obstacles lane)) maxPerLane) eqn:Ecap|].
  - unfold generateInLane in Hrun. rewrite Edrawn, Ecap in Hrun.
    unfold bind, randomIndex, bind, Math_random, ret in Hrun.
    apply forEachProducer_spawns in Hrun.
    destruct Hrun as (added & Hlane & Hcount & Hspawned).
    exists added. split; [exact Hlane|]. split; [exact Hcount|]. split.
    + apply Z.eqb_eq in Edrawn. apply Nat.ltb_lt in Ecap. intros [Hne|Hfull]; lia.
    + unfold entryX. unfold offsetOffCanvas in Hspawned.
      destruct (Lane_direction lane); cbn [LaneDirection_eqb] in Hspawned;
        exact Hspawned.
  - rewrite generateInLane_unchanged in Hrun
      by (right; now apply Nat.ltb_ge).
    injection Hrun as <- _. now apply laneGenerated_same.
  - rewrite generateInLane_unchanged in Hrun
      by (left; now apply Z.eqb_neq).
    injection Hrun as <- _. now apply laneGenerated_same.
Qed.

Lemma mapLanes_generated (this : Street) (player : Player) (randomLaneIndex : Z)
    (lanes0 : list Lane) :
  forall (start : nat) (w w' : World) (newLanes : list Lane),
    mapLanes this player randomLaneIndex lanes0 start w = (Returned newLanes, w') ->
    List.length newLanes = List.length lanes0
    /\ forall (i : nat) (lane : Lane),
         nth_error lanes0 i = Some lane ->
         exists lane',
           nth_error newLanes i = Some lane'
           /\ laneGenerated randomLaneIndex (start + i) lane lane'.
Proof.
  induction lanes0 as [|lane0 rest IH]; intros start w w' newLanes Hrun.
  - cbn in Hrun. injection Hrun as <- _. split; [reflexivity|].
    intros [|i] lane; discriminate.
  - cbn [mapLanes] in Hrun. unfold bind in Hrun.
    destruct (generateInLane this player randomLaneIndex lane0 start w)
      as [[lane0'|message] w1] eqn:Efirst; [|discriminate].
    destruct (mapLanes this player randomLaneIndex rest (S start) w1)
      as [[rest'|message] w2] eqn:Erest; [|discriminate].
    cbn in Hrun. injection Hrun as <- _.
    destruct (IH _ _ _ _ Erest) as (Hlength & Hnth).
    split; [cbn; now rewrite Hlength|].
    intros [|i] lane Hlane; cbn [nth_error] in *.
    + injection Hlane as <-. exists lane0'. split; [reflexivity|].
      rewrite Nat.add_0_r. exact (generateInLane_generated _ _ _ _ _ _ _ _ Efirst).
    + destruct (Hnth i lane Hlane) as (lane' & Hlane' & Hgenerated).
      exists lane'. split; [exact Hlane'|].
      now replace (start + S i)%nat with (S start + i)%nat by lia.
Qed.

Lemma generateObstacles_generated (street street' : Street) (player : Player)
    (w w' : World) :
  generateObstacles street player w = (Returned street', w') ->
  topOfStreetY street' = topOfStreetY street
  /\ Street_streetLength street' = Street_streetLength street
  /\ sceneObjects street' = sceneObjects street
  /\ List.length (lanes street') = List.length (lanes street)
  /\ forall (i : nat) (lane : Lane),
       nth_error (lanes street) i = Some lane ->
       exists lane',
         nth_error (lanes street') i = Some lane'
         /\ laneGenerated (drawnLaneIndex street w) i lane lane'.
Proof.
  unfold generateObstacles, bind, randomIndex, bind, Math_random, ret.
  intros Hrun.
  match type of Hrun with
  | context [mapLanes ?s ?p ?r ?l ?n ?w0] =>
      destruct (mapLanes s p r l n w0) as [[newLanes|message] w1] eqn:Elanes;
      [|discriminate]
  end.
  injection Hrun as <- _. cbn [topOfStreetY Street_streetLength sceneObjects lanes
                               Street_clone].
  destruct (mapLanes_generated _ _ _ _ _ _ _ _ Elanes) as (Hlength & Hnth).
  repeat split; try reflexivity; [exact Hlength|].
  intros i lane Hlane. destruct (Hnth i lane Hlane) as (lane' & Hlane' & Hgen).
  exists lane'. split; [exact Hlane' | exact Hgen].
Qed.


(** ** The callback loop of [generateObstacles] *)

Lemma forEachProducer_app (x0 : Q) (objects : list Entity)
    (randomProducerIndex : Z) (before rest : list ObstacleProducer) :
  forall (index : nat) (lane : Lane) (w : World),
    forEachProducer x0 objects randomProducerIndex (before ++ rest) index lane w
    = match forEachProducer x0 objects randomProducerIndex before index lane w with
      | (Returned lane1, w1) =>
          forEachProducer x0 objects randomProducerIndex rest
                          (index + List.length before) lane1 w1
      | (Thrown message, w1) => (Thrown message, w1)
      end.
Proof.
  induction before as [|producer before IH]; intros index lane w.
  - cbn. now rewrite Nat.add_0_r.
  - cbn [app forEachProducer List.length]. unfold bind.
    destruct (produce x0 objects randomProducerIndex lane index producer w)
      as [[lane1|message] w1]; [|reflexivity].
    rewrite IH. now replace (S index + List.length before)%nat
                  with (index + S (List.length before))%nat by lia.
Qed.

(** A producer that is ready, and that opts out of the random selection or
    has the drawn index, goes through the retry loop: the candidate of the
    last attempt is appended, and [next] has been called at every
    attempt. *)
Lemma produce_selected (x0 : Q) (objects : list Entity) (randomProducerIndex : Z)
    (lane : Lane) (index : nat) (producer : ObstacleProducer) (w : World) :
  fst (readyForNext producer objects w) = Returned true ->
  randomizeTraffic producer = false \/ Z.of_nat index = randomProducerIndex ->
  exists k : nat,
    (k < 3)%nat
    /\ produce x0 objects randomProducerIndex lane index producer w
       = (Returned (addObstacle lane (candidate producer lane x0 w k)),
          afterNexts producer (clockRead w) (S k))
    /\ (forall j, (j < k)%nat ->
          collisionDetected (candidate producer lane x0 w j)
                            (Lane_obstacles lane) = true)
    /\ ((k < 2)%nat ->
        collisionDetected (candidate producer lane x0 w k)
                          (Lane_obstacles lane) = false).
Proof.
  intros Hready Hselected.
  assert (Hfires : fires producer objects randomProducerIndex index w = true).
  { unfold fires. rewrite Hready. destruct Hselected as [->|Hindex]; [reflexivity|].
    apply Z.eqb_eq in Hindex. rewrite Hindex. apply orb_true_r. }
  destruct (fires_ready _ _ _ _ _ Hfires) as [Hrun Hchosen].
  destruct (retryLoop_fuel producer lane x0 (clockRead w) 3 0)
    as (k & Hk & Hloop & Hbefore & Hfree); try lia.
  exists k. split; [lia|]. split.
  - unfold produce, bind. rewrite Hrun, Hchosen.
    change (safeXAt producer lane x0 0) with x0 in Hloop.
    change (afterNexts producer (clockRead w) 0) with (clockRead w) in Hloop.
    rewrite Hloop. reflexivity.
  - split; [intros j Hj; apply (Hbefore j); lia | exact Hfree].
Qed.


(** The lanes that are not drawn are returned as they are, and nothing
    happens in the world. *)
Lemma mapLanes_others (this : Street) (player : Player) (randomLaneIndex : Z)
    (lanes0 : list Lane) :
  forall (start : nat) (w : World),
    (forall j, (j < List.length lanes0)%nat ->
               Z.of_nat (start + j) <> randomLaneIndex) ->
    mapLanes this player randomLaneIndex lanes0 start w = (Returned lanes0, w).
Proof.
  induction lanes0 as [|lane rest IH]; intros start w Hothers; [reflexivity|].
  cbn [mapLanes]. unfold bind.
  rewrite generateInLane_unchanged.
  - rewrite IH; [reflexivity|]. intros j Hj.
    replace (S start + j)%nat with (start + S j)%nat by lia.
    apply Hothers. cbn [List.length]. lia.
  - left. specialize (Hothers 0%nat). rewrite Nat.add_0_r in Hothers.
    apply Hothers. cbn [List.length]. lia.
Qed.

Lemma mapLanes_drawn (this : Street) (player : Player) (randomLaneIndex : Z)
    (pre : list Lane) (lane : Lane) (post : list Lane) :
  forall (start : nat) (w : World),
    Z.of_nat (start + List.length pre) = randomLaneIndex ->
    mapLanes this player randomLaneIndex (pre ++ lane :: post) start w
    = match generateInLane this player randomLaneIndex lane
                           (start + List.length pre) w with
      | (Returned lane', w') => (Returned (pre ++ lane' :: post), w')
      | (Thrown message, w') => (Thrown message, w')
      end.
Proof.
  induction pre as [|other pre IH]; intros start w Hdrawn;
    cbn [app mapLanes List.length] in *.
  - rewrite Nat.add_0_r in *. unfold bind.
    destruct (generateInLane this player randomLaneIndex lane start w)
      as [[lane'|message] w']; [|reflexivity].
    rewrite mapLanes_others; [reflexivity|]. intros j Hj. lia.
  - unfold bind. rewrite generateInLane_unchanged by (left; lia).
    rewrite (IH (S start) w) by lia.
    replace (S start + List.length pre)%nat
      with (start + S (List.length pre))%nat by lia.
    now destruct (generateInLane this player randomLaneIndex lane
                                 (start + S (List.length pre)) w)
      as [[lane'|message] w'].
Qed.

(** A call of [generateObstacles] is the callback loop over the producers
    of the lane that it draws, when that lane is below the cap: the call
    returns the street with the lane of the loop in the place of the drawn
    lane, or throws what the loop throws. *)
Lemma generateObstacles_drawn (street : Street) (player : Player) (w : World)
    (i : nat) (lane : Lane) :
  nth_error (lanes street) i = Some lane ->
  Z.of_nat i = drawnLaneIndex street w ->
  (List.length (Lane_obstacles lane) < maxPerLane)%nat ->
  exists pre post : list Lane,
    lanes street = pre ++ lane :: post
    /\ List.length pre = i
    /\ generateObstacles street player w
       = match callbacks street player lane w (obstacleProducers lane) with
         | (Returned lane', w') =>
             (Returned (Street_clone street (pre ++ lane' :: post)
                                     (sceneObjects street)),
              w')
         | (Thrown message, w') => (Thrown message, w')
         end.
Proof.
  intros Hlane Hdrawn Hcap.
  destruct (nth_error_split _ _ Hlane) as (pre & post & Hlanes & Hpre).
  exists pre, post. split; [exact Hlanes|]. split; [exact Hpre|].
  unfold generateObstacles, bind, randomIndex, bind, Math_random, ret.
  fold (drawnLaneIndex street w).
  rewrite Hlanes at 1.
  rewrite mapLanes_drawn by (cbn [Nat.add]; rewrite Hpre; exact Hdrawn).
  cbn [Nat.add]. rewrite Hpre. unfold generateInLane.
  apply Z.eqb_eq in Hdrawn. rewrite Hdrawn.
  apply Nat.ltb_lt in Hcap. rewrite Hcap.
  unfold callbacks, startX, objectsFor, drawnProducerIndex, afterDraws, bind,
    randomIndex, bind, Math_random, ret.
  cbn [snd nextRef dateNowCalls clock randomCalls randomSource lastObstacleTime].
  match goal with
  | |- context [forEachProducer ?x0 ?objects ?r ?ps ?n ?l ?w0] =>
      destruct (forEachProducer x0 objects r ps n l w0) as [[lane'|message] w']
  end; reflexivity.
Qed.





(** ** The world during the calls *)

Lemma advances_refl (w : World) : advances w w.
Proof. split; [reflexivity|]. split; [lia|]. intros r. now left. Qed.

Lemma advances_trans (w w1 w2 : World) :
  advances w w1 -> advances w1 w2 -> advances w w2.
Proof.
  intros (Hc1 & Hd1 & Hs1) (Hc2 & Hd2 & Hs2).
  split; [congruence|]. split; [lia|]. intros r.
  destruct (Hs2 r) as [E2|(n & Hn & E2)].
  - destruct (Hs1 r) as [E1|(m & Hm & E1)].
    + left. congruence.
    + right. exists m. split; [lia | congruence].
  - right. exists n. split; [lia|]. now rewrite E2, Hc1.
Qed.

Lemma clockRead_advances (w : World) : advances w (clockRead w).
Proof.
  split; [reflexivity|]. split; [cbn; lia|]. intros r. now left.
Qed.

Lemma afterNexts_advances (p : ObstacleProducer) (w : World) (k : nat) :
  advances w (afterNexts p w k).
Proof.
  destruct (afterNexts_world p w k) as (_ & Hd & Hc & Hothers).
  split; [exact Hc|]. split; [lia|]. intros r.
  destruct (Nat.eq_dec r (pref p)) as [->|Hne]; [|left; now apply Hothers].
  destruct k as [|k]; [now left|]. right.
  exists (dateNowCalls w + k)%nat. split; [lia | apply afterNexts_stamp].
Qed.

Lemma produce_advances (x0 : Q) (objects : list Entity) (randomProducerIndex : Z)
    (lane : Lane) (index : nat) (producer : ObstacleProducer) (w : World) :
  advances w (snd (produce x0 objects randomProducerIndex lane index producer w)).
Proof.
  destruct (fires producer objects randomProducerIndex index w) eqn:Efires.
  - destruct (fires_ready _ _ _ _ _ Efires) as [Hready Hchosen].
    destruct (produce_selected x0 objects randomProducerIndex lane index producer w)
      as (k & _ & -> & _).
    + now rewrite Hready.
    + apply orb_true_iff in Hchosen. destruct Hchosen as [Hexempt|Hindex].
      * left. now apply negb_true_iff.
      * right. now apply Z.eqb_eq.
    + cbn [snd]. eapply advances_trans;
        [apply clockRead_advances | apply afterNexts_advances].
  - destruct (produce_idle x0 objects randomProducerIndex lane index producer w
                           Efires)
      as [-> _].
    apply clockRead_advances.
Qed.

Lemma forEachProducer_advances (x0 : Q) (objects : list Entity)
    (randomProducerIndex : Z) (producers : list ObstacleProducer) :
  forall (index : nat) (lane : Lane) (w : World),
    advances w (snd (forEachProducer x0 objects randomProducerIndex producers
                                     index lane w)).
Proof.
  induction producers as [|producer rest IH]; intros index lane w.
  - apply advances_refl.
  - cbn [forEachProducer]. unfold bind.
    pose proof (produce_advances x0 objects randomProducerIndex lane index
                                 producer w) as Hfirst.
    destruct (produce x0 objects randomProducerIndex lane index producer w)
      as [[lane1|message] w1]; cbn [snd] in *; [|exact Hfirst].
    eapply advances_trans; [exact Hfirst | apply IH].
Qed.

Lemma Math_random_advances (w : World) : advances w (snd (Math_random w)).
Proof. split; [reflexivity|]. split; [cbn; lia|]. intros r. now left. Qed.

Lemma generateInLane_advances (this : Street) (player : Player)
    (randomLaneIndex : Z) (lane : Lane) (index : nat) (w : World) :
  advances w (snd (generateInLane this player randomLaneIndex lane index w)).
Proof.
  unfold generateInLane.
  destruct (Z.eqb (Z.of_nat index) randomLaneIndex); [|apply advances_refl].
  destruct (Nat.ltb (List.length (Lane_obstacles lane)) maxPerLane);
    [|apply advances_refl].
  unfold bind, randomIndex, bind, ret.
  eapply advances_trans; [apply Math_random_advances|].
  destruct (Math_random w) as [[r|message] w1] eqn:Edraw;
    [|discriminate Edraw].
  cbn [snd]. apply forEachProducer_advances.
Qed.

Lemma mapLanes_advances (this : Street) (player : Player) (randomLaneIndex : Z)
    (lanes0 : list Lane) :
  forall (start : nat) (w : World),
    advances w (snd (mapLanes this player randomLaneIndex lanes0 start w)).
Proof.
  induction lanes0 as [|lane rest IH]; intros start w.
  - apply advances_refl.
  - cbn [mapLanes]. unfold bind.
    pose proof (generateInLane_advances this player randomLaneIndex lane start w)
      as Hfirst.
    destruct (generateInLane this player randomLaneIndex lane start w)
      as [[lane'|message] w1]; cbn [snd] in *; [|exact Hfirst].
    pose proof (IH (S start) w1) as Hrest.
    destruct (mapLanes this player randomLaneIndex rest (S start) w1)
      as [[rest'|message] w2]; cbn [snd] in *;
      eapply advances_trans; eassumption.
Qed.

(** A call of [generateObstacles], whether it returns or throws, only
    reads the clock and stamps producers with readings that it takes. *)
Lemma generateObstacles_advances (street : Street) (player : Player) (w : World) :
  advances w (snd (generateObstacles street player w)).
Proof.
  unfold generateObstacles, bind, randomIndex, bind, ret.
  destruct (Math_random w) as [[r|message] w1] eqn:Edraw; [|discriminate Edraw].
  assert (Hdraw : advances w w1).
  { pose proof (Math_random_advances w) as H. now rewrite Edraw in H. }
  pose proof (mapLanes_advances street player
                (Qfloor (r * inject_Z (Z.of_nat (List.length (lanes street)))))
                (lanes street) 0 w1) as Hlanes.
  destruct (mapLanes street player
              (Qfloor (r * inject_Z (Z.of_nat (List.length (lanes street)))))
              (lanes street) 0 w1)
    as [[newLanes|message] w2]; cbn [snd] in *;
    eapply advances_trans; eassumption.
Qed.

(** A stamp that is not in the future of a lower bound stays so, whatever
    the game does. *)
Lemma gameReaches_stamp (p : ObstacleProducer) (w w' : World) (bound : Z) :
  gameReaches p w w' ->
  (bound <= lastObstacleTime w (pref p))%Z ->
  (forall n, (dateNowCalls w <= n)%nat -> (bound <= clock w n)%Z) ->
  clock w' = clock w
  /\ (dateNowCalls w <= dateNowCalls w')%nat
  /\ (bound <= lastObstacleTime w' (pref p))%Z.
Proof.
  intros Hreach Hstamp Hclock.
  induction Hreach as [|w1 w2 street player outcome _ (IHc & IHd & IHs) Hcall
                       |w1 w2 _ (IHc & IHd & IHs) (Hc & Hd & Hs)].
  - split; [reflexivity|]. split; [lia | exact Hstamp].
  - pose proof (generateObstacles_advances street player w1) as Hadv.
    rewrite Hcall in Hadv. cbn [snd] in Hadv.
    destruct Hadv as (Hc & Hd & Hs).
    split; [congruence|]. split; [lia|].
    destruct (Hs (pref p)) as [->|(n & Hn & ->)]; [exact IHs|].
    rewrite IHc. apply Hclock. lia.
  - split; [congruence|]. split; [lia|]. now rewrite Hs.
Qed.

Lemma timeGatePassed_second (p : ObstacleProducer) (w : World) :
  maxFrequencyInSeconds p == 1 ->
  timeGatePassed p w = true ->
  (1000 < clock w (dateNowCalls w) - lastObstacleTime w (pref p))%Z.
Proof.
  intros Hmax Hgate.
  unfold timeGatePassed, secondsSinceLastObstacle in Hgate.
  rewrite Hmax in Hgate. reflect_Q.
  unfold Qdiv in Hgate. change (/ 1000) with (1 # 1000) in Hgate.
  rewrite Zlt_Qlt. change (inject_Z 1000) with 1000. lra.
Qed.

(** A lane whose only producer is [p] gains an obstacle in a call only if
    the time gate of [p] is open at the first reading of the clock in the
    call, and the call then ends with the calls of [next] on [p]. *)
Lemma feedsLane_fired (p : ObstacleProducer) (street : Street) (player : Player)
    (w w' : World) :
  feedsLane p street player w w' ->
  timeGatePassed p w = true
  /\ exists k : nat, w' = afterNexts p (clockRead (afterDraws w)) (S k).
Proof.
  intros (street' & i & lane & lane' & Hrun & Hlane & Hlane' & Hproducers & Hgain).
  assert (Hdrawn : Z.of_nat i = drawnLaneIndex street w
                   /\ (List.length (Lane_obstacles lane) < maxPerLane)%nat).
  { destruct (generateObstacles_generated _ _ _ _ _ Hrun) as (_ & _ & _ & _ & Hlanes).
    destruct (Hlanes i lane Hlane) as (lane1 & Hlane1 & added & -> & _ & Hnone & _).
    rewrite Hlane' in Hlane1. injection Hlane1 as ->.
    cbn [Lane_obstacles] in Hgain. rewrite length_app in Hgain.
    destruct (Z.eq_dec (Z.of_nat i) (drawnLaneIndex street w)) as [Hd|Hd];
      [|rewrite (Hnone (or_introl Hd)) in Hgain; cbn in Hgain; lia].
    destruct (le_lt_dec maxPerLane (List.length (Lane_obstacles lane))) as [Hc|Hc];
      [rewrite (Hnone (or_intror Hc)) in Hgain; cbn in Hgain; lia|].
    split; assumption. }
  destruct Hdrawn as [Hdrawn Hcap].
  destruct (generateObstacles_drawn street player w i lane Hlane Hdrawn Hcap)
    as (pre & post & _ & Hpre & Hloop).
  rewrite Hloop in Hrun. unfold callbacks in Hrun. rewrite Hproducers in Hrun.
  cbn [forEachProducer] in Hrun. unfold bind, ret in Hrun.
  destruct (fires p (objectsFor street player lane)
                  (drawnProducerIndex lane w) 0 (afterDraws w)) eqn:Efires.
  - destruct (fires_ready _ _ _ _ _ Efires) as [Hready Hchosen].
    split.
    + apply (readyForNext_timeGate p (objectsFor street player lane)
                                   (afterDraws w)).
      now rewrite Hready.
    + destruct (produce_selected (startX lane) (objectsFor street player lane)
                                 (drawnProducerIndex lane w) lane 0 p
                                 (afterDraws w))
        as (k & _ & Hproduce & _).
      * now rewrite Hready.
      * apply orb_true_iff in Hchosen. destruct Hchosen as [Hexempt|Hindex].
        -- left. now apply negb_true_iff.
        -- right. now apply Z.eqb_eq.
      * rewrite Hproduce in Hrun. injection Hrun as _ <-. now exists k.
  - exfalso.
    destruct (produce_idle (startX lane) (objectsFor street player lane)
                           (drawnProducerIndex lane w) lane 0 p (afterDraws w)
                           Efires)
      as [_ [Hidle|[message Hthrown]]];
      [rewrite Hidle in Hrun | rewrite Hthrown in Hrun; discriminate].
    injection Hrun as <- _. cbn [lanes Street_clone] in Hlane'.
    rewrite nth_error_app2 in Hlane' by lia.
    rewrite Hpre, Nat.sub_diag in Hlane'. injection Hlane' as <-. lia.
Qed.

(** ** Firing a producer in a call *)




(** ** Producers and the random selection *)





(** ** Throttling *)

Lemma advances_bound (w w' : World) (r : ref) (bound : Z) :
  advances w w' ->
  (bound <= lastObstacleTime w r)%Z ->
  (forall n, (dateNowCalls w <= n)%nat -> (bound <= clock w n)%Z) ->
  (bound <= lastObstacleTime w' r)%Z.
Proof.
  intros (_ & _ & Hstamps) Hstamp Hclock.
  destruct (Hstamps r) as [->|(n & Hn & ->)]; [exact Hstamp|].
  apply Hclock. lia.
Qed.

Lemma afterDraws_advances (w : World) : advances w (afterDraws w).
Proof.
  unfold afterDraws. eapply advances_trans; apply Math_random_advances.
Qed.

(** The world in which a call ends, whether it returns or throws, is the
    one in which the loop over the producers of the drawn lane ends. *)
Lemma generateObstacles_world (street : Street) (player : Player) (w : World)
    (i : nat) (lane : Lane) :
  nth_error (lanes street) i = Some lane ->
  Z.of_nat i = drawnLaneIndex street w ->
  (List.length (Lane_obstacles lane) < maxPerLane)%nat ->
  snd (generateObstacles street player w)
  = snd (callbacks street player lane w (obstacleProducers lane)).
Proof.
  intros Hlane Hdrawn Hcap.
  destruct (generateObstacles_drawn street player w i lane Hlane Hdrawn Hcap)
    as (pre & post & _ & _ & ->).
  now destruct (callbacks street player lane w (obstacleProducers lane))
    as [[lane'|message] w'].
Qed.

(** When the callback of [p] appends an obstacle, the time gate of [p] was
    open at its readiness check, and the call leaves [p] stamped with a
    reading of the clock that was taken after that check. *)
Lemma appendsAt_fired (p : ObstacleProducer) (street : Street) (player : Player)
    (w : World) (t : Z) :
  appendsAt p street player w t ->
  exists wB : World,
    advances w wB
    /\ t = clock wB (dateNowCalls wB)
    /\ timeGatePassed p wB = true
    /\ exists n : nat,
         (dateNowCalls wB <= n)%nat
         /\ advances (afterNexts p (clockRead wB) (S n - dateNowCalls wB))
                     (snd (generateObstacles street player w))
         /\ lastObstacleTime (afterNexts p (clockRead wB) (S n - dateNowCalls wB))
                             (pref p)
            = clock wB (S n).
Proof.
  intros (i & lane & before & after & laneB & wB & o & wP
          & Hlane & Hdrawn & Hcap & Hsplit & Hreach & Hstep & ->).
  exists wB.
  assert (HwB : advances w wB).
  { eapply advances_trans; [apply afterDraws_advances|].
    pose proof (forEachProducer_advances
                  (startX lane) (objectsFor street player lane)
                  (drawnProducerIndex lane w) before 0 lane (afterDraws w)) as H.
    unfold callbacks in Hreach. now rewrite Hreach in H. }
  split; [exact HwB|]. split; [reflexivity|].
  unfold callbacks in Hstep, Hreach.
  rewrite forEachProducer_app, Hreach in Hstep.
  cbn [forEachProducer Nat.add] in Hstep. unfold bind, ret in Hstep.
  destruct (fires p (objectsFor street player lane) (drawnProducerIndex lane w)
                  (List.length before) wB) eqn:Efires.
  - destruct (fires_ready _ _ _ _ _ Efires) as [Hready Hchosen].
    split.
    + apply (readyForNext_timeGate p (objectsFor street player lane) wB).
      now rewrite Hready.
    + destruct (produce_selected (startX lane) (objectsFor street player lane)
                                 (drawnProducerIndex lane w) laneB
                                 (List.length before) p wB)
        as (k & _ & Hproduce & _).
      * now rewrite Hready.
      * apply orb_true_iff in Hchosen. destruct Hchosen as [Hexempt|Hindex].
        -- left. now apply negb_true_iff.
        -- right. now apply Z.eqb_eq.
      * exists (dateNowCalls wB + k)%nat. split; [lia|].
        replace (S (dateNowCalls wB + k) - dateNowCalls wB)%nat with (S k) by lia.
        split.
        -- rewrite (generateObstacles_world street player w i lane Hlane Hdrawn Hcap).
           unfold callbacks. rewrite Hsplit, forEachProducer_app, Hreach.
           cbn [forEachProducer Nat.add]. unfold bind. rewrite Hproduce.
           apply forEachProducer_advances.
        -- rewrite afterNexts_stamp. cbn [clockRead Date_now snd dateNowCalls clock].
           reflexivity.
  - exfalso.
    destruct (produce_idle (startX lane) (objectsFor street player lane)
                           (drawnProducerIndex lane w) laneB (List.length before)
                           p wB Efires)
      as [_ [Hidle|[message Hthrown]]];
      [rewrite Hidle in Hstep | rewrite Hthrown in Hstep; discriminate].
    injection Hstep as Hsame _.
    apply (f_equal (fun l => List.length (Lane_obstacles l))) in Hsame.
    cbn [addObstacle Lane_obstacles] in Hsame. rewrite length_app in Hsame.
    cbn [List.length] in Hsame. lia.
Qed.

(** C7 (as amended): the base [readyForNext] returns true exactly when the
    time elapsed since the last emission of the producer, in seconds,
    strictly exceeds its maximal frequency; every call of [next] stamps the
    producer with the current time; so, counting the obstacles that are
    appended to a lane, a lane whose only producer is [p] gains at most one
    obstacle in a call of [generateObstacles], and, under a clock that never
    runs backwards, two calls in which a producer of maximal frequency 1
    adds an obstacle to such a lane start more than 1000 ms apart, whatever
    calls of [generateObstacles] and whatever other code run in between;
    in a lane with several producers, two calls in which the callback of
    such a producer appends an obstacle make their readiness checks more
    than 1000 ms apart. *)
Theorem producer_throttling :
  (forall this objects w,
     exists ready,
       ObstacleProducer_readyForNext this objects w = (Returned ready, clockRead w)
       /\ (ready = true
           <-> maxFrequencyInSeconds this
               < inject_Z (clock w (dateNowCalls w) - lastObstacleTime w (pref this))
                 / 1000))
  /\ (forall this x0 w,
        exists obstacle w',
          next this x0 w = (Returned obstacle, w')
          /\ lastObstacleTime w' (pref this) = clock w (dateNowCalls w))
  /\ (forall p street player w street' w' i lane lane',
        generateObstacles street player w = (Returned street', w') ->
        nth_error (lanes street) i = Some lane ->
        nth_error (lanes street') i = Some lane' ->
        obstacleProducers lane = [p] ->
        exists added : list Obstacle,
          Lane_obstacles lane' = Lane_obstacles lane ++ added
          /\ (List.length added <= 1)%nat)
  /\ (forall p streetA playerA wA wA' streetB playerB wB wB',
        maxFrequencyInSeconds p == 1 ->
        monotoneClock wA ->
        feedsLane p streetA playerA wA wA' ->
        gameReaches p wA' wB ->
        feedsLane p streetB playerB wB wB' ->
        (1000 < clock wB (dateNowCalls wB) - clock wA (dateNowCalls wA))%Z)
  /\ (forall p streetA playerA wA tA streetB playerB wB tB,
        maxFrequencyInSeconds p == 1 ->
        monotoneClock wA ->
        appendsAt p streetA playerA wA tA ->
        gameReaches p (snd (generateObstacles streetA playerA wA)) wB ->
        appendsAt p streetB playerB wB tB ->
        (1000 < tB - tA)%Z).
Proof.
  split; [|split; [|split; [|split]]].
  - intros this objects w. exists (timeGatePassed this w).
    split; [apply ObstacleProducer_readyForNext_run|].
    unfold timeGatePassed, secondsSinceLastObstacle. apply Qltb_lt.
  - intros this x0 w. rewrite next_run. eexists. eexists.
    split; [reflexivity|].
    now destruct (next_world this 0 w) as (_ & _ & _ & Hstamp & _).
  - intros p street player w street' w' i lane lane' Hrun Hlane Hlane' Hproducers.
    destruct (generateObstacles_generated _ _ _ _ _ Hrun) as (_ & _ & _ & _ & Hlanes).
    destruct (Hlanes i lane Hlane) as (lane1 & Hlane1 & added & -> & Hcount & _).
    rewrite Hlane' in Hlane1. injection Hlane1 as ->.
    exists added. split; [reflexivity|]. now rewrite Hproducers in Hcount.
  - intros p streetA playerA wA wA' streetB playerB wB wB'
           Hmax Hclock HcallA Hreach HcallB.
    destruct (feedsLane_fired p streetA playerA wA wA' HcallA) as (_ & k & HwA').
    destruct (feedsLane_fired p streetB playerB wB wB' HcallB) as (HgateB & _).
    pose proof (timeGatePassed_second p wB Hmax HgateB) as Hgap.
    assert (Hstamp : lastObstacleTime wA' (pref p)
                     = clock wA (S (dateNowCalls wA) + k)%nat)
      by (rewrite HwA', afterNexts_stamp; reflexivity).
    assert (Hreads : clock wA' = clock wA
                     /\ (dateNowCalls wA <= dateNowCalls wA')%nat).
    { rewrite HwA'.
      destruct (afterNexts_world p (clockRead (afterDraws wA)) (S k))
        as (_ & -> & -> & _).
      split; [reflexivity | cbn; lia]. }
    destruct Hreads as [HclockA' HreadsA'].
    destruct (gameReaches_stamp p wA' wB (clock wA (dateNowCalls wA)) Hreach)
      as (HclockB & _ & Hbound).
    + rewrite Hstamp. apply Hclock. lia.
    + intros n Hn. rewrite HclockA'. apply Hclock. lia.
    + lia.
  - intros p streetA playerA wA tA streetB playerB wB tB
           Hmax Hclock HcallA Hreach HcallB.
    destruct (appendsAt_fired p streetA playerA wA tA HcallA)
      as (wPA & (HcA & HdA & _) & -> & _ & n & Hn & HrestA & HstampA).
    destruct (appendsAt_fired p streetB playerB wB tB HcallB)
      as (wPB & HadvB & -> & HgateB & _).
    pose proof (timeGatePassed_second p wPB Hmax HgateB) as Hgap.
    set (tA := clock wPA (dateNowCalls wPA)) in *.
    assert (Hlater : forall m, (dateNowCalls wPA <= m)%nat -> (tA <= clock wA m)%Z).
    { intros m Hm. unfold tA. rewrite HcA. apply Hclock. exact Hm. }
    destruct (afterNexts_world p (clockRead wPA) (S n - dateNowCalls wPA))
      as (_ & HdN & HcN & _).
    change (clock (clockRead wPA)) with (clock wPA) in HcN.
    change (dateNowCalls (clockRead wPA)) with (S (dateNowCalls wPA)) in HdN.
    assert (HendA : (tA <= lastObstacleTime
                             (snd (generateObstacles streetA playerA wA))
                             (pref p))%Z).
    { apply (advances_bound _ _ _ _ HrestA).
      - rewrite HstampA, HcA. apply Hlater. lia.
      - intros m Hm. rewrite HcN, HcA. apply Hlater. lia. }
    destruct HrestA as (HcEnd & HdEnd & _).
    destruct (gameReaches_stamp p _ wB tA Hreach HendA) as (HcB & HdB & HstartB).
    { intros m Hm. rewrite HcEnd, HcN, HcA. apply Hlater. lia. }
    assert (HatB : (tA <= lastObstacleTime wPB (pref p))%Z).
    { apply (advances_bound _ _ _ _ HadvB HstartB).
      intros m Hm. rewrite HcB, HcEnd, HcN, HcA. apply Hlater. lia. }
    lia.
Qed.

Lemma producer_throttling_witness :
  let player := pedestrian 0 1000 in
  (let p := carProducer true in
   let street := openStreet [p] [] in
   exists (streetA : Street) (wA' : World) (streetM : Street) (wM : World)
          (streetB : Street) (wB' : World),
     generateObstacles street player busyWorld = (Returned streetA, wA')
     /\ generateObstacles streetA player wA' = (Returned streetM, wM)
     /\ generateObstacles streetM player wM = (Returned streetB, wB')
     /\ List.length (getAllObstacles street) = 0%nat
     /\ List.length (getAllObstacles streetA) = 1%nat
     /\ List.length (getAllObstacles streetM) = 1%nat
     /\ List.length (getAllObstacles streetB) = 2%nat
     /\ clock wM (dateNowCalls wM) = 1002000%Z
     /\ (1000 < clock wM (dateNowCalls wM)
                - clock busyWorld (dateNowCalls busyWorld))%Z)
  /\ (let p := carProducer false in
      let street := openStreet [targetProducer; p] [] in
      appendsAt p street player busyWorld 1000000
      /\ appendsAt p street player (snd (generateObstacles street player busyWorld))
                   1002000
      /\ (1000 < 1002000 - 1000000)%Z).
Proof.
  intros player.
  destruct producer_throttling as (_ & _ & _ & Hspaced & Hgeneral).
  assert (Hclock : monotoneClock busyWorld).
  { intros i j Hij.
    destruct i as [|[|[|i]]]; destruct j as [|[|[|j]]]; cbn; lia. }
  split.
  - intros p street.
    destruct (generateObstacles street player busyWorld)
      as [[streetA|message] wA'] eqn:EA; [|vm_compute in EA; discriminate].
    assert (HA := EA). vm_compute in HA. injection HA as HstreetA HwA'.
    destruct (generateObstacles streetA player wA')
      as [[streetM|message] wM] eqn:EM;
      [|rewrite <- HstreetA, <- HwA' in EM; vm_compute in EM; discriminate].
    assert (HM := EM). rewrite <- HstreetA, <- HwA' in HM. vm_compute in HM.
    injection HM as HstreetM HwM.
    destruct (generateObstacles streetM player wM)
      as [[streetB|message] wB'] eqn:EB;
      [|rewrite <- HstreetM, <- HwM in EB; vm_compute in EB; discriminate].
    assert (HB := EB). rewrite <- HstreetM, <- HwM in HB. vm_compute in HB.
    injection HB as HstreetB HwB'.
    exists streetA, wA', streetM, wM, streetB, wB'.
    split; [reflexivity|]. split; [exact EM|]. split; [exact EB|].
    split; [reflexivity|].
    split; [rewrite <- HstreetA; reflexivity|].
    split; [rewrite <- HstreetM; reflexivity|].
    split; [rewrite <- HstreetB; reflexivity|].
    split; [rewrite <- HwM; reflexivity|].
    apply (Hspaced p street player busyWorld wA' streetM player wM wB').
    + reflexivity.
    + exact Hclock.
    + exists streetA, 0%nat, (openLane [p]).
      rewrite <- HstreetA. eexists.
      split; [rewrite HstreetA; exact EA|]. split; [reflexivity|].
      split; [reflexivity|]. split; [reflexivity | cbn; lia].
    + apply (gameReaches_generate p wA' wA' wM streetA player (Returned streetM));
        [apply gameReaches_here | exact EM].
    + exists streetB, 0%nat.
      rewrite <- HstreetM, <- HstreetB. eexists. eexists.
      split; [rewrite HstreetM, HstreetB; exact EB|]. split; [reflexivity|].
      split; [reflexivity|]. split; [reflexivity | cbn; lia].
  - intros p street.
    assert (HcallA : appendsAt p street player busyWorld 1000000).
    { exists 0%nat, (openLane [targetProducer; p]), [targetProducer], [].
      eexists. eexists. eexists. eexists.
      split; [reflexivity|]. split; [reflexivity|]. split; [cbn; lia|].
      split; [reflexivity|]. split; [vm_compute; reflexivity|].
      split; [vm_compute; reflexivity|]. reflexivity. }
    assert (HcallB : appendsAt p street player
                               (snd (generateObstacles street player busyWorld))
                               1002000).
    { exists 0%nat, (openLane [targetProducer; p]), [targetProducer], [].
      eexists. eexists. eexists. eexists.
      split; [reflexivity|]. split; [reflexivity|]. split; [cbn; lia|].
      split; [reflexivity|]. split; [vm_compute; reflexivity|].
      split; [vm_compute; reflexivity|]. reflexivity. }
    split; [exact HcallA|]. split; [exact HcallB|].
    apply (Hgeneral p street player busyWorld 1000000%Z street player
                    (snd (generateObstacles street player busyWorld)) 1002000%Z).
    + reflexivity.
    + exact Hclock.
    + exact HcallA.
    + apply gameReaches_here.
    + exact HcallB.
Defined.

(** C7 as stated fails for the obstacles that [next] returns, which is
    what the specification calls emitted, kept or not: with the entry of
    the lane blocked, one call of [generateObstacles] makes a producer of
    maximal frequency 1 return three obstacles, at readings of the clock
    that are 1 ms apart, and stamps it three times; the lane gains the
    third obstacle only. *)
Lemma three_emissions_counterexample :
  let p := carProducer false in
  let street := blockedStreet [p] in
  let lane := blockedLane [p] in
  let player := pedestrian 0 1000 in
  maxFrequencyInSeconds p == 1
  /\ exists (o1 o2 o3 : Obstacle) (w1 w2 w3 : World) (street' : Street),
       next p (safeXAt p lane (startX lane) 0) (clockRead (afterDraws tickingWorld))
       = (Returned o1, w1)
       /\ next p (safeXAt p lane (startX lane) 1) w1 = (Returned o2, w2)
       /\ next p (safeXAt p lane (startX lane) 2) w2 = (Returned o3, w3)
       /\ lastObstacleTime w1 (pref p) = 1000001%Z
       /\ lastObstacleTime w2 (pref p) = 1000002%Z
       /\ lastObstacleTime w3 (pref p) = 1000003%Z
       /\ sameObstacle o1 o2 = false /\ sameObstacle o2 o3 = false
       /\ sameObstacle o1 o3 = false
       /\ generateObstacles street player tickingWorld = (Returned street', w3)
       /\ getAllObstacles street' = getAllObstacles street ++ [o3].
Proof.
  cbv zeta. split; [reflexivity|].
  eexists. eexists. eexists. eexists. eexists. eexists. eexists.
  split; [vm_compute; reflexivity|].
  split; [vm_compute; reflexivity|].
  split; [vm_compute; reflexivity|].
  repeat (split; [vm_compute; reflexivity|]).
  vm_compute. reflexivity.
Qed.

(** * Further properties of the code *)

(** ** The closest object in front *)

Section ClosestObjectFacts.

Context {A : Type} `{IsGameObject A}.
Variable this : Obstacle.

Lemma closestAhead_split (objects : list A) (h : A) :
  closestAhead this objects = Some h ->
  exists before rest,
    objects = before ++ h :: rest
    /\ (forall g, In g before ->
          withinOneHeight this (asGameObject g)
          && strictlyAhead this (asGameObject g) = true ->
          distanceAhead this (asGameObject h) < distanceAhead this (asGameObject g))
    /\ (forall g, In g rest ->
          withinOneHeight this (asGameObject g)
          && strictlyAhead this (asGameObject g) = true ->
          distanceAhead this (asGameObject h) <= distanceAhead this (asGameObject g)).
Proof.
  revert h. induction objects as [|g rest IH]; intros h; cbn [closestAhead];
    [discriminate|].
  destruct (withinOneHeight this (asGameObject g)
            && strictlyAhead this (asGameObject g)) eqn:Eg.
  - destruct (closestAhead this rest) as [h'|] eqn:Erest.
    + destruct (Qltb (distanceAhead this (asGameObject h'))
                     (distanceAhead this (asGameObject g))) eqn:Elt;
        intros [= <-]; reflect_Q.
      * destruct (IH h' eq_refl) as (before & rest' & -> & Hbefore & Hrest).
        exists (g :: before), rest'. split; [reflexivity|]. split; [|exact Hrest].
        intros g' [<-|Hin] Hg'; [exact Elt | now apply Hbefore].
      * exists [], rest. split; [reflexivity|]. split; [intros g' []|].
        intros g' Hin Hg'. apply andb_true_iff in Hg'. destruct Hg' as [Hy Hx].
        pose proof (closestAhead_least this rest h' g' Erest Hin Hy Hx). lra.
    + intros [= <-]. exists [], rest. split; [reflexivity|]. split; [intros g' []|].
      intros g' Hin Hg'. rewrite closestAhead_none in Erest.
      rewrite (Erest g' Hin) in Hg'. discriminate.
  - intros Hh. destruct (IH h Hh) as (before & rest' & -> & Hbefore & Hrest).
    exists (g :: before), rest'. split; [reflexivity|]. split; [|exact Hrest].
    intros g' [<-|Hin] Hg'; [congruence | now apply Hbefore].
Qed.

(** X1: [getClosestObject] returns [undefined] exactly when no object of
    the list is in front of this obstacle within one height; otherwise it
    returns an object of the list that is in front, strictly closer than
    every such object before it in the list and at least as close as every
    such object after it. *)
Theorem getClosestObject_first_closest (objects : list A) :
  match getClosestObject this objects with
  | None =>
      forall g, In g objects -> isObjectInFront this (asGameObject g) = false
  | Some h =>
      exists before rest,
        objects = before ++ h :: rest
        /\ isObjectInFront this (asGameObject h) = true
        /\ (forall g, In g before ->
              isObjectInFront this (asGameObject g) = true ->
              getDistanceTo this (asGameObject h)
              < getDistanceTo this (asGameObject g))
        /\ (forall g, In g rest ->
              isObjectInFront this (asGameObject g) = true ->
              getDistanceTo this (asGameObject h)
              <= getDistanceTo this (asGameObject g))
  end.
Proof.
  rewrite getClosestObject_closestAhead.
  destruct (closestAhead this objects) as [h|] eqn:E.
  - destruct (closestAhead_split objects h E) as (before & rest & Hsplit & Hb & Hr).
    destruct (closestAhead_ahead this objects h E) as (_ & Hy & Hx).
    exists before, rest. split; [exact Hsplit|].
    split; [rewrite isObjectInFront_ahead; now rewrite Hy, Hx|].
    split; intros g Hin Hg; rewrite isObjectInFront_ahead in Hg;
      pose proof Hg as Hg'; apply andb_true_iff in Hg'; destruct Hg' as [_ Hgx];
      rewrite (getDistanceTo_ahead this _ Hx), (getDistanceTo_ahead this _ Hgx);
      auto.
  - intros g Hin. rewrite isObjectInFront_ahead.
    rewrite closestAhead_none in E. now apply E.
Qed.

End ClosestObjectFacts.

(** ** Time to collision and speed *)

(** X2: [calculateTimeToCollision] is [undefined] exactly when there is no
    closest object; it is [-Infinity] when this obstacle is not faster than
    the closest object (the player counting as speed 0); otherwise it is
    the distance divided by the closing speed, which is strictly positive:
    a finite time to collision is never 0 or negative. *)
Theorem calculateTimeToCollision_positive (this : Obstacle)
    (gameObjects : list Entity) :
  match calculateTimeToCollision this gameObjects with
  | None => getClosestObject this gameObjects = None
  | Some NegInfinity =>
      exists h, getClosestObject this gameObjects = Some h
                /\ speed this - hazardSpeed h <= 0
  | Some (Time t) =>
      exists h, getClosestObject this gameObjects = Some h
                /\ 0 < speed this - hazardSpeed h
                /\ t = getDistanceTo this h / (speed this - hazardSpeed h)
                /\ 0 < t
  end.
Proof.
  unfold calculateTimeToCollision.
  destruct (getClosestObject this gameObjects) as [h|] eqn:E; [|reflexivity].
  assert (Hs : match instanceofObstacle h with
               | Some o => speed o
               | None => 0
               end = hazardSpeed h) by (destruct h; reflexivity).
  rewrite Hs. cbv zeta.
  destruct (Qle_bool (speed this - hazardSpeed h) 0) eqn:Erel; reflect_Q.
  - exists h. auto.
  - exists h. repeat split; try assumption.
    rewrite getClosestObject_closestAhead in E.
    destruct (closestAhead_ahead this gameObjects h E) as (_ & _ & Hx).
    pose proof (distanceAhead_pos this _ Hx) as Hpos.
    rewrite <- (getDistanceTo_ahead this _ Hx) in Hpos.
    apply Qlt_shift_div_l; [exact Erel|].
    change (asGameObject h) with (entityObject h) in Hpos. lra.
Qed.

Section SpeedFacts.

Variable this : Obstacle.
Variable player : Player.
Variable obstacles : list Obstacle.

Lemma brakeSpeed_range :
  Qmax 0 (speed this - 2) <= brakeSpeed this player obstacles
  /\ brakeSpeed this player obstacles <= Qmax 0 (speed this + 0.25).
Proof.
  unfold brakeSpeed, brakePolicy.
  split; apply Q.max_le_compat_l;
    destruct (collisionWithin100 this player obstacles);
    destruct (hazardWithin this player obstacles 200);
    destruct (hazardWithin this player obstacles 100
              || otherEmergencyVehicle this obstacles);
    try lra;
    match goal with
    | |- context [if ?b then _ else _] => destruct b
    end; lra.
Qed.

(** X3: whatever the hazards, one evaluation of the speed of a BRAKE
    obstacle never returns a negative speed, takes at most 2 off the speed
    and adds at most 0.25 to it (up to the clamp at 0). *)
Theorem calculateSpeed_bounds :
  avoidance this = BRAKE ->
  0 <= calculateSpeed this player obstacles
  /\ Qmax 0 (speed this - 2) <= calculateSpeed this player obstacles
  /\ calculateSpeed this player obstacles <= Qmax 0 (speed this + 0.25).
Proof.
  intros Hbrake. rewrite (calculateSpeed_brakeSpeed this player obstacles Hbrake).
  destruct brakeSpeed_range as [Hlow Hhigh].
  split; [apply brakeSpeed_nonneg|]. split; assumption.
Qed.

Lemma otherEmergencyVehicle_in (o : Obstacle) :
  In o obstacles -> sameObstacle o this = false -> emergencyVehicle o = true ->
  otherEmergencyVehicle this obstacles = true.
Proof.
  intros Hin Hother Hev. unfold otherEmergencyVehicle, otherObstacles.
  apply existsb_exists. exists o. split; [|exact Hev].
  apply filter_In. split; [exact Hin | now rewrite Hother].
Qed.

(** X4: a BRAKE obstacle yields to an emergency vehicle anywhere in the
    list, whatever its position, lane or distance: when another obstacle
    of the list is an emergency vehicle, the speed loses at least 1 (down
    to 0) and never recovers on that tick. *)
Theorem calculateSpeed_yields_to_emergency (o : Obstacle) :
  avoidance this = BRAKE ->
  In o obstacles ->
  sameObstacle o this = false ->
  emergencyVehicle o = true ->
  calculateSpeed this player obstacles <= Qmax 0 (speed this - 1).
Proof.
  intros Hbrake Hin Hother Hev.
  rewrite (calculateSpeed_brakeSpeed this player obstacles Hbrake).
  unfold brakeSpeed, brakePolicy.
  rewrite (otherEmergencyVehicle_in o Hin Hother Hev), orb_true_r.
  apply Q.max_le_compat_l.
  destruct (collisionWithin100 this player obstacles);
    destruct (hazardWithin this player obstacles 200); lra.
Qed.

Lemma brakeSpeed_waits :
  speed this <= 0.25 ->
  hazardWithin this player obstacles 200 = true ->
  brakeSpeed this player obstacles == 0.
Proof.
  intros Hslow H200. unfold brakeSpeed, brakePolicy. rewrite H200.
  apply Q.max_l.
  destruct (collisionWithin100 this player obstacles);
    destruct (hazardWithin this player obstacles 100
              || otherEmergencyVehicle this obstacles);
    try lra;
    match goal with
    | |- context [if ?b then _ else _] => destruct b
    end; lra.
Qed.

End SpeedFacts.

(** ** What a tick keeps and changes *)

(** The results of [calculateYForPassing]: the current y, the original y,
    or 8 towards the passing side when the displacement is below one
    height. *)
Lemma calculateYForPassing_cases (this : Obstacle) (player : Player)
    (obstacles : list Obstacle) (w w1 : World) (newY : Q) :
  calculateYForPassing this player obstacles w = (Returned newY, w1) ->
  newY = y this
  \/ newY = originalY this
  \/ (newY = y this + 8 * passingSide this
      /\ Qabs (originalY this - y this) < height this
      /\ avoidance this = PASS).
Proof.
  intros Hrun.
  destruct (ObstacleAvoidanceType_eqb (avoidance this) PASS) eqn:Epass.
  - assert (Hpass : avoidance this = PASS) by (destruct (avoidance this); easy).
    destruct (closestAhead this obstacles) as [closest|] eqn:Eclosest.
    + pose proof (calculateYForPassing_pass _ _ _ _ _ _ _ Hpass Eclosest Hrun) as Hc.
      cbv zeta in Hc.
      destruct Hc as [(_ & ->)|[(_ & _ & ->)|[(_ & _ & ->)|[(_ & _ & Ha & ->)|(_ & _ & _ & ->)]]]];
        auto.
    + unfold calculateYForPassing in Hrun.
      rewrite Hpass, getClosestObject_closestAhead, Eclosest in Hrun.
      cbn in Hrun. injection Hrun as <- _. auto.
  - rewrite calculateYForPassing_stays in Hrun
      by (intros Hp; rewrite Hp in Epass; discriminate).
    injection Hrun as <- _. auto.
Qed.

(** One tick: the size, the direction and the origin fields stay; the
    obstacle advances by its new speed; it crashes, or keeps its policy
    with a speed that is not negative (BRAKE) or unchanged (otherwise). *)
Lemma tick_step (this after : Obstacle) :
  tick this after ->
  width after = width this /\ height after = height this
  /\ direction after = direction this
  /\ originalSpeed after = originalSpeed this
  /\ originalY after = originalY this
  /\ x after == x this + speed after * directionValue (direction this)
  /\ (y after = y this
      \/ y after = originalY this
      \/ (y after = y this + 8 * passingSide this
          /\ Qabs (originalY this - y this) < height this
          /\ avoidance this = PASS))
  /\ (speed after = 0 /\ avoidance after = NONE /\ detectCollisions after = false
      /\ y after = y this
      \/ avoidance after = avoidance this
         /\ detectCollisions after = detectCollisions this
         /\ (avoidance this = BRAKE /\ 0 <= speed after
             \/ avoidance this <> BRAKE /\ speed after = speed this)).
Proof.
  intros [player obstacles w w' moved Hmove].
  destruct (crashes this obstacles) eqn:Ecrash.
  - rewrite (moveObstacle_crashed this player obstacles w Ecrash) in Hmove.
    injection Hmove as <- _. cbn.
    repeat split; try reflexivity; auto.
    unfold ObstacleSpeeds.STOPPED. ring.
  - destruct (moveObstacle_moved this player obstacles w Ecrash)
      as (newY & w1 & Hy & _ & Hm).
    rewrite Hm in Hmove. injection Hmove as <- _. cbn.
    repeat split; try reflexivity.
    + exact (calculateYForPassing_cases _ _ _ _ _ _ Hy).
    + right. repeat split.
      destruct (ObstacleAvoidanceType_eqb (avoidance this) BRAKE) eqn:Eb.
      * assert (Hb : avoidance this = BRAKE) by (destruct (avoidance this); easy).
        left. split; [exact Hb|].
        rewrite (calculateSpeed_brakeSpeed this player obstacles Hb).
        apply brakeSpeed_nonneg.
      * assert (Hb : avoidance this <> BRAKE)
          by (intros Hb; rewrite Hb in Eb; discriminate).
        right. split; [exact Hb|]. now apply calculateSpeed_constant.
Qed.

(** X5: a BRAKE obstacle that is stopped (or slower than 0.25) does not
    start while some hazard ahead is within 200: its speed after the tick
    is 0 and it stays where it is. *)
Theorem brake_obstacle_waits (this : Obstacle) (player : Player)
    (obstacles : list Obstacle) (w : World) :
  avoidance this = BRAKE ->
  speed this <= 0.25 ->
  someHazardWithin this player obstacles 200 = true ->
  exists after w',
    moveObstacle this player obstacles w = (Returned after, w')
    /\ speed after == 0
    /\ x after == x this
    /\ y after = y this.
Proof.
  intros Hbrake Hslow Hnear. rewrite someHazardWithin_closest in Hnear.
  destruct (crashes this obstacles) eqn:Ecrash.
  - rewrite (moveObstacle_crashed this player obstacles w Ecrash).
    eexists. eexists. split; [reflexivity|]. cbn. repeat split; reflexivity.
  - destruct (moveObstacle_moved this player obstacles w Ecrash)
      as (newY & w1 & Hy & _ & Hm).
    rewrite calculateYForPassing_stays in Hy by (rewrite Hbrake; discriminate).
    injection Hy as <- <-.
    rewrite Hm. eexists. eexists. split; [reflexivity|]. cbn.
    pose proof (calculateSpeed_brakeSpeed this player obstacles Hbrake) as Hs.
    rewrite (brakeSpeed_waits this player obstacles Hslow Hnear) in Hs.
    split; [exact Hs|]. split; [rewrite Hs; ring | reflexivity].
Qed.

Lemma brake_obstacle_waits_witness :
  let this := car 2 0 0 0 10 RIGHT BRAKE false false in
  exists after w',
    moveObstacle this (pedestrian 150 5) [this] sceneWorld = (Returned after, w')
    /\ speed after == 0
    /\ x after == x this
    /\ y after = y this.
Proof.
  intros this.
  apply (brake_obstacle_waits this (pedestrian 150 5) [this] sceneWorld).
  - reflexivity.
  - vm_compute. discriminate.
  - reflexivity.
Defined.

(** X6: an obstacle without avoidance and without collision detection
    moves uniformly: after [n] ticks, whatever the players and obstacles,
    it has the same speed and y, and has advanced by [n] times its speed
    in its direction. *)
Theorem uniform_motion (this o : Obstacle) (n : nat) :
  avoidance this = NONE ->
  detectCollisions this = false ->
  afterNTicks this n o ->
  speed o = speed this /\ y o = y this
  /\ x o == x this
            + inject_Z (Z.of_nat n) * (speed this * directionValue (direction this)).
Proof.
  intros Hnone Hblind Hticks.
  assert (Hinv : avoidance o = NONE /\ detectCollisions o = false
                 /\ direction o = direction this
                 /\ speed o = speed this /\ y o = y this
                 /\ x o == x this
                           + inject_Z (Z.of_nat n)
                             * (speed this * directionValue (direction this))).
  { induction Hticks as [|n o after _ IH Htick].
    - repeat split; try assumption. cbn. ring.
    - destruct IH as (Hav & Hdc & Hd & Hs & Hy & Hx).
      destruct Htick as [player obstacles w w' moved Hmove].
      assert (Hfree : crashes o obstacles = false)
        by (unfold crashes; now rewrite Hdc).
      destruct (moveObstacle_moved o player obstacles w Hfree)
        as (newY & w1 & HnewY & _ & Hm).
      rewrite calculateYForPassing_stays in HnewY by (rewrite Hav; discriminate).
      injection HnewY as <- _. rewrite Hm in Hmove. injection Hmove as <- _.
      cbn [speed y x obstacleObject avoidance detectCollisions direction].
      rewrite calculateSpeed_constant by (rewrite Hav; discriminate).
      repeat split; try assumption.
      rewrite Hx, Hs, Hd, Nat2Z.inj_succ, <- Z.add_1_r, inject_Z_plus.
      change (inject_Z 1) with 1. ring. }
  tauto.
Qed.

Lemma uniform_motion_witness :
  let this := car 2 0 0 4 4 LEFT NONE false false in
  exists o,
    afterNTicks this 2 o
    /\ speed o = speed this /\ y o = y this
    /\ x o == x this + inject_Z 2 * (speed this * directionValue (direction this)).
Proof.
  intros this.
  destruct (moveObstacle_returns this (pedestrian 0 1000) [this] sceneWorld)
    as (o1 & w1 & Hone).
  destruct (moveObstacle_returns o1 (pedestrian 0 1000) [o1] w1)
    as (o2 & w2 & Htwo).
  assert (Hticks : afterNTicks this 2 o2).
  { eapply afterNTicks_more; [eapply afterNTicks_more; [apply afterNTicks_none|]|];
      econstructor; eassumption. }
  exists o2. split; [exact Hticks|].
  exact (uniform_motion this o2 2 eq_refl eq_refl Hticks).
Defined.

Lemma calculateSpeed_bounds_witness :
  let this := car 2 0 0 10 10 RIGHT BRAKE true false in
  let obstacles := [this; car 3 150 0 4 4 RIGHT NONE false true] in
  0 <= calculateSpeed this (pedestrian 90 5) obstacles
  /\ Qmax 0 (speed this - 2) <= calculateSpeed this (pedestrian 90 5) obstacles
  /\ calculateSpeed this (pedestrian 90 5) obstacles <= Qmax 0 (speed this + 0.25).
Proof.
  intros this obstacles. apply calculateSpeed_bounds. reflexivity.
Defined.

Lemma calculateSpeed_yields_to_emergency_witness :
  let this := car 2 0 0 10 10 RIGHT BRAKE true false in
  let ambulance := car 3 (-500) 300 14 14 LEFT NONE false true in
  calculateSpeed this (pedestrian 0 1000) [this; ambulance]
  <= Qmax 0 (speed this - 1).
Proof.
  intros this ambulance.
  apply (calculateSpeed_yields_to_emergency this (pedestrian 0 1000)
           [this; ambulance] ambulance);
    try reflexivity.
  right. left. reflexivity.
Defined.

(** ** Where the ticks can take an obstacle *)

Lemma passingSide_square (o : Obstacle) : passingSide o * passingSide o == 1.
Proof. unfold passingSide. destruct (direction o); reflexivity. Qed.

Lemma passingDisplacement_abs (o : Obstacle) :
  0 <= passingDisplacement o ->
  Qabs (originalY o - y o) == passingDisplacement o.
Proof.
  unfold passingDisplacement, passingSide.
  destruct (direction o); intros Hpos.
  - rewrite Qabs_neg by lra. ring.
  - rewrite Qabs_pos by lra. ring.
Qed.

Lemma tick_passingDisplacement (this after : Obstacle) :
  0 <= passingDisplacement this ->
  passingDisplacement this < height this + 8 ->
  tick this after ->
  0 <= passingDisplacement after /\ passingDisplacement after < height after + 8.
Proof.
  intros Hpos Hnear Htick.
  destruct (tick_step this after Htick) as (_ & Hh & Hd & _ & Hoy & _ & Hy & _).
  pose proof (passingSide_square this) as Hsq.
  assert (Hside : passingSide after = passingSide this)
    by (unfold passingSide; now rewrite Hd).
  unfold passingDisplacement in *. rewrite Hh, Hoy, Hside.
  destruct Hy as [->|[->|(-> & Haway & _)]].
  - split; assumption.
  - setoid_replace ((originalY this - originalY this) * passingSide this)
      with 0 by ring.
    split; lra.
  - rewrite passingDisplacement_abs in Haway by exact Hpos.
    unfold passingDisplacement in Haway.
    setoid_replace ((y this + 8 * passingSide this - originalY this)
                    * passingSide this)
      with ((y this - originalY this) * passingSide this
            + 8 * (passingSide this * passingSide this)) by ring.
    rewrite Hsq. split; lra.
Qed.

(** X7: a passing obstacle only leaves its original y on its passing
    side (decreasing y for RIGHT, increasing y for LEFT) and by less than
    its height plus 8: if the displacement towards the passing side is
    within [0, height + 8), it is so after any number of ticks. *)
Theorem passing_stays_near_lane (this o : Obstacle) :
  0 <= passingDisplacement this ->
  passingDisplacement this < height this + 8 ->
  afterTicks this o ->
  0 <= passingDisplacement o /\ passingDisplacement o < height this + 8.
Proof.
  intros Hpos Hnear Hticks.
  assert (Hinv : height o = height this
                 /\ 0 <= passingDisplacement o
                 /\ passingDisplacement o < height o + 8).
  { induction Hticks as [|o after _ (IHh & IHpos & IHnear) Htick].
    - auto.
    - destruct (tick_passingDisplacement o after IHpos IHnear Htick).
      destruct (tick_step o after Htick) as (_ & Hh & _).
      repeat split; try assumption. congruence. }
  destruct Hinv as (Hh & Hpos' & Hnear'). rewrite Hh in Hnear'. auto.
Qed.

Lemma passing_stays_near_lane_witness :
  let this := car 2 0 0 10 10 RIGHT PASS false false in
  let slow := car 3 30 0 4 4 RIGHT NONE false false in
  exists o,
    afterTicks this o
    /\ 0 <= passingDisplacement o /\ passingDisplacement o < height this + 8.
Proof.
  intros this slow.
  destruct (moveObstacle_returns this (pedestrian 0 1000) [this; slow] sceneWorld)
    as (o & w' & Hmove).
  assert (Hticks : afterTicks this o).
  { eapply afterTicks_more; [apply afterTicks_none|]. econstructor. exact Hmove. }
  exists o. split; [exact Hticks|].
  apply (passing_stays_near_lane this o); [| |exact Hticks]; vm_compute;
    [discriminate | reflexivity].
Defined.

Lemma tick_without_pass (this after : Obstacle) :
  avoidance this <> PASS -> tick this after ->
  y after = y this /\ avoidance after <> PASS.
Proof.
  intros Hother [player obstacles w w' moved Hmove].
  destruct (crashes this obstacles) eqn:Ecrash.
  - rewrite (moveObstacle_crashed this player obstacles w Ecrash) in Hmove.
    injection Hmove as <- _. cbn. split; [reflexivity | discriminate].
  - destruct (moveObstacle_moved this player obstacles w Ecrash)
      as (newY & w1 & Hy & _ & Hm).
    rewrite calculateYForPassing_stays in Hy by exact Hother.
    injection Hy as <- _. rewrite Hm in Hmove. injection Hmove as <- _.
    cbn. auto.
Qed.

(** X8: an obstacle whose avoidance is not PASS never changes its y,
    whatever happens around it, crash included. *)
Theorem y_constant_without_pass (this o : Obstacle) :
  avoidance this <> PASS ->
  afterTicks this o ->
  y o = y this.
Proof.
  intros Hother Hticks.
  assert (Hinv : y o = y this /\ avoidance o <> PASS).
  { induction Hticks as [|o after _ [IHy IHa] Htick].
    - auto.
    - destruct (tick_without_pass o after IHa Htick). split; congruence. }
  tauto.
Qed.

Lemma y_constant_without_pass_witness :
  let this := car 2 0 0 10 10 RIGHT BRAKE true false in
  let other := car 3 10 0 4 4 RIGHT NONE false false in
  exists o, afterTicks this o /\ avoidance o = NONE /\ y o = y this.
Proof.
  intros this other.
  pose proof (moveObstacle_crashed this (pedestrian 0 1000) [this; other]
                                   sceneWorld eq_refl) as Hmove.
  eexists. split; [|split].
  - eapply afterTicks_more; [apply afterTicks_none|]. econstructor. exact Hmove.
  - reflexivity.
  - eapply (y_constant_without_pass this); [discriminate|].
    eapply afterTicks_more; [apply afterTicks_none|]. econstructor. exact Hmove.
Defined.

(** X9: a BRAKE obstacle never moves against its direction of travel:
    after any number of ticks, crashes included, it is at or ahead of
    where it started. *)
Theorem brake_never_reverses (this o : Obstacle) :
  avoidance this = BRAKE ->
  afterTicks this o ->
  0 <= (x o - x this) * directionValue (direction this).
Proof.
  intros Hbrake Hticks.
  assert (Hinv : (avoidance o = BRAKE \/ avoidance o = NONE /\ speed o == 0)
                 /\ direction o = direction this
                 /\ 0 <= (x o - x this) * directionValue (direction this)).
  { induction Hticks as [|o after _ (IHa & IHd & IHx) Htick].
    - repeat split; auto. setoid_replace (x this - x this) with 0 by ring. lra.
    - destruct (tick_step o after Htick)
        as (_ & _ & Hd & _ & _ & Hx & _ & Hspeed).
      assert (Hs : 0 <= speed after
                   /\ (avoidance after = BRAKE
                       \/ avoidance after = NONE /\ speed after == 0)).
      { destruct Hspeed as [(-> & -> & _)|(Hav & _ & [(Hb & Hpos)|(Hnb & Hs)])].
        - split; [lra | right; split; reflexivity].
        - split; [exact Hpos | left; congruence].
        - destruct IHa as [Hb|[Hn Hzero]]; [contradiction|].
          rewrite Hs. split; [lra | right; split; congruence]. }
      destruct Hs as [Hpos Ha].
      split; [exact Ha|]. split; [congruence|].
      rewrite Hx, IHd. revert IHx Hpos.
      destruct (direction this); cbn [directionValue]; intros; lra. }
  tauto.
Qed.

Lemma brake_never_reverses_witness :
  let this := car 2 0 0 10 10 LEFT BRAKE true false in
  exists o,
    afterTicks this o /\ 0 <= (x o - x this) * directionValue (direction this).
Proof.
  intros this.
  destruct (moveObstacle_returns this (pedestrian 0 1000) [this] sceneWorld)
    as (o & w' & Hmove).
  assert (Hticks : afterTicks this o).
  { eapply afterTicks_more; [apply afterTicks_none|]. econstructor. exact Hmove. }
  exists o. split; [exact Hticks|].
  exact (brake_never_reverses this o eq_refl Hticks).
Defined.

(** ** Lanes *)

Lemma Forall2_tick_In (l moved : list Obstacle) (o : Obstacle) :
  Forall2 tick l moved -> In o l -> exists o', In o' moved /\ tick o o'.
Proof.
  induction 1 as [|a b l l' Hab _ IH]; intros Hin; [contradiction|].
  destruct Hin as [<-|Hin].
  - exists b. split; [now left | exact Hab].
  - destruct (IH Hin) as (o' & Hin' & Ho'). exists o'. split; [now right | exact Ho'].
Qed.

Lemma staysInLane_insideLane (lane : Lane) (o : Obstacle) :
  staysInLane lane o = true <-> insideLane lane o.
Proof.
  unfold staysInLane, insideLane.
  destruct (Lane_direction lane); cbn [LaneDirection_eqb]; apply Qltb_lt.
Qed.

(** X10: after [Lane.updateObstacles] the lane has no more obstacles than
    before, and every obstacle it holds is still inside the street at the
    exit end of the lane (x + width > 0 in a LEFT lane, x < streetLength in
    a RIGHT lane). *)
Theorem Lane_updateObstacles_inside (lane : Lane) (player : Player)
    (obstacles : list Obstacle) (w : World) :
  exists lane' w',
    Lane_updateObstacles lane player obstacles w = (Returned lane', w')
    /\ (List.length (Lane_obstacles lane') <= List.length (Lane_obstacles lane))%nat
    /\ Forall (insideLane lane') (Lane_obstacles lane').
Proof.
  destruct (mapM_moveObstacle player obstacles (Lane_obstacles lane) w)
    as (moved & w' & Hmoved & Hticks).
  eexists. exists w'.
  split; [unfold Lane_updateObstacles, bind; rewrite Hmoved; reflexivity|].
  cbn [Lane_obstacles]. split.
  - rewrite (Forall2_length Hticks). apply filter_length_le.
  - apply Forall_forall. intros o Hin. apply filter_In in Hin.
    destruct Hin as [_ Hin]. apply staysInLane_insideLane in Hin. exact Hin.
Qed.

(** A stationary obstacle is rebuilt as it is by a tick. *)
Lemma tick_stationary (o after : Obstacle) :
  stationary o -> tick o after ->
  stationary after /\ x after == x o /\ y after = y o /\ width after = width o.
Proof.
  intros (Hs & Hdc & Hav) [player obstacles w w' moved Hmove].
  assert (Hfree : crashes o obstacles = false)
    by (unfold crashes; now rewrite Hdc).
  destruct (moveObstacle_moved o player obstacles w Hfree)
    as (newY & w1 & HnewY & _ & Hm).
  rewrite calculateYForPassing_stays in HnewY by (rewrite Hav; discriminate).
  injection HnewY as <- _. rewrite Hm in Hmove. injection Hmove as <- _.
  rewrite calculateSpeed_constant by (rewrite Hav; discriminate).
  unfold stationary. cbn. repeat split; try assumption.
  rewrite Hs. ring.
Qed.

(** X11: a wreck is never cleared: an obstacle of the lane that is
    stationary (speed 0, no collision detection, no avoidance, as after a
    crash) and inside the street is still in the lane after
    [Lane.updateObstacles], at the same place and still stationary. *)
Theorem stationary_obstacle_persists (lane : Lane) (player : Player)
    (obstacles : list Obstacle) (w : World) (o : Obstacle) :
  In o (Lane_obstacles lane) ->
  stationary o ->
  insideLane lane o ->
  exists lane' w' o',
    Lane_updateObstacles lane player obstacles w = (Returned lane', w')
    /\ In o' (Lane_obstacles lane')
    /\ stationary o' /\ insideLane lane' o'
    /\ x o' == x o /\ y o' = y o /\ width o' = width o.
Proof.
  intros Hin Hstill Hinside.
  destruct (mapM_moveObstacle player obstacles (Lane_obstacles lane) w)
    as (moved & w' & Hmoved & Hticks).
  destruct (Forall2_tick_In _ _ o Hticks Hin) as (o' & Hin' & Htick).
  destruct (tick_stationary o o' Hstill Htick) as (Hstill' & Hx & Hy & Hw).
  assert (Hinside' : insideLane lane o').
  { unfold insideLane in *. rewrite Hw.
    destruct (Lane_direction lane); rewrite Hx; exact Hinside. }
  eexists. exists w', o'.
  split; [unfold Lane_updateObstacles, bind; rewrite Hmoved; reflexivity|].
  cbn [Lane_obstacles]. split.
  - apply filter_In. split; [exact Hin'|]. now apply staysInLane_insideLane.
  - split; [exact Hstill'|]. split; [exact Hinside'|]. auto.
Qed.

Lemma stationary_obstacle_persists_witness :
  let wreck := mkObstacle (box 2 300 0 20 10) 0 RIGHT NONE false false 10 0 in
  let lane := mkLane RIGHT 120 600 60 defaultLines [] [wreck] in
  exists lane' w' o',
    Lane_updateObstacles lane (pedestrian 0 1000) [wreck] sceneWorld
    = (Returned lane', w')
    /\ In o' (Lane_obstacles lane')
    /\ stationary o' /\ insideLane lane' o'
    /\ x o' == x wreck /\ y o' = y wreck /\ width o' = width wreck.
Proof.
  intros wreck lane.
  apply (stationary_obstacle_persists lane (pedestrian 0 1000) [wreck] sceneWorld
                                      wreck).
  - left. reflexivity.
  - repeat split; reflexivity.
  - reflexivity.
Defined.

(** ** The street *)

Lemma Lane_detectCollision_existsb (lane : Lane) (player : Player) :
  Lane_detectCollision lane player
  = existsb (fun o : Obstacle => intersects player o) (Lane_obstacles lane).
Proof.
  unfold Lane_detectCollision. cbv zeta.
  induction (Lane_obstacles lane) as [|o rest IH]; [reflexivity|].
  cbn [Lane_detectCollisionLoop existsb]. rewrite IH.
  now destruct (intersects player o).
Qed.

(** X12: [Street.detectCollision] is true exactly when the player's box
    intersects one of the obstacles of [getAllObstacles]; on a street
    without obstacles it is false. *)
Theorem Street_detectCollision_getAllObstacles (street : Street) (player : Player) :
  Street_detectCollision street player
  = existsb (fun o : Obstacle => intersects player o) (getAllObstacles street).
Proof.
  unfold Street_detectCollision, getAllObstacles.
  induction (lanes street) as [|lane rest IH]; [reflexivity|].
  cbn [Street_detectCollisionLoop flat_map].
  rewrite existsb_app, IH, Lane_detectCollision_existsb.
  now destruct (existsb _ (Lane_obstacles lane)).
Qed.

Lemma fold_left_widths (lanes0 : list Lane) :
  forall a : Q,
    fold_left (fun totalWidth lane => totalWidth + laneWidth lane) lanes0 a
    == a + fold_left (fun totalWidth lane => totalWidth + laneWidth lane) lanes0 0.
Proof.
  induction lanes0 as [|lane rest IH]; intros a; cbn [fold_left].
  - ring.
  - rewrite (IH (a + laneWidth lane)), (IH (0 + laneWidth lane)). ring.
Qed.

Lemma stacked_app (lanes0 : list Lane) (lane : Lane) :
  forall top0 : Q,
    stacked top0 lanes0 ->
    centerY lane
    == top0
       + fold_left (fun totalWidth l => totalWidth + laneWidth l) lanes0 0
       + laneWidth lane / 2 ->
    stacked top0 (lanes0 ++ [lane]).
Proof.
  induction lanes0 as [|l rest IH]; intros top0 Hstacked Hcenter.
  - cbn in *. split; [rewrite Hcenter; ring | exact I].
  - cbn [app stacked fold_left] in *. destruct Hstacked as [Hl Hrest].
    split; [exact Hl|]. apply IH; [exact Hrest|].
    rewrite Hcenter, (fold_left_widths rest (0 + laneWidth l)). ring.
Qed.

(** X13: on a street assembled by [new Street], [addLane] and
    [addSceneObject], the lanes lie one below the other without gap or
    overlap from [topOfStreetY] down, in the order of their insertion;
    each lane has the length of the street and starts empty; and adding a
    lane grows the street width by the width of that lane. *)
Theorem assembled_street_geometry (street : Street) :
  assembled street ->
  stacked (topOfStreetY street) (lanes street)
  /\ Forall (fun lane => streetLength lane = Street_streetLength street
                         /\ Lane_obstacles lane = [])
            (lanes street)
  /\ forall direction0 laneWidth0 style obstacleProducers0,
       getStreetWidth (addLane street direction0 laneWidth0 style obstacleProducers0)
       == getStreetWidth street + laneWidth0.
Proof.
  intros Hassembled.
  assert (Hwidth : forall s direction0 laneWidth0 style obstacleProducers0,
             getStreetWidth (addLane s direction0 laneWidth0 style obstacleProducers0)
             == getStreetWidth s + laneWidth0).
  { intros s d wd style ps. unfold getStreetWidth, addLane. cbn [lanes Street_clone].
    rewrite fold_left_app. reflexivity. }
  split; [|split; [|apply Hwidth]].
  - induction Hassembled as [top0 len|s d wd style ps _ IH|s e _ IH].
    + exact I.
    + unfold addLane. cbn [lanes topOfStreetY Street_clone].
      apply stacked_app; [exact IH|]. reflexivity.
    + exact IH.
  - induction Hassembled as [top0 len|s d wd style ps _ IH|s e _ IH].
    + constructor.
    + unfold addLane. cbn [lanes Street_streetLength Street_clone].
      apply Forall_app. split; [exact IH|]. repeat constructor.
    + exact IH.
Qed.

Lemma assembled_street_geometry_witness :
  let street :=
    addLane (addLane (new_Street 60 600) LEFT 50 defaultLines [])
            LEFT 120 defaultLines [] in
  stacked (topOfStreetY street) (lanes street)
  /\ Forall (fun lane => streetLength lane = Street_streetLength street
                         /\ Lane_obstacles lane = [])
            (lanes street)
  /\ forall direction0 laneWidth0 style obstacleProducers0,
       getStreetWidth (addLane street direction0 laneWidth0 style obstacleProducers0)
       == getStreetWidth street + laneWidth0.
Proof.
  intros street. apply assembled_street_geometry.
  repeat apply assembled_addLane. apply assembled_new.
Defined.

(** ** Generating obstacles *)

(** X14: when [generateObstacles] returns, the street keeps its top, its
    length, its scene objects and the number of its lanes, and every lane
    keeps its fields and its obstacles, in order, followed by at most one
    new obstacle per producer of the lane; a lane that is not the one drawn
    by [Math.random], or that already holds 15 obstacles, is unchanged. *)
Theorem generateObstacles_appends (street street' : Street) (player : Player)
    (w w' : World) :
  generateObstacles street player w = (Returned street', w') ->
  topOfStreetY street' = topOfStreetY street
  /\ Street_streetLength street' = Street_streetLength street
  /\ sceneObjects street' = sceneObjects street
  /\ List.length (lanes street') = List.length (lanes street)
  /\ forall (i : nat) (lane : Lane),
       nth_error (lanes street) i = Some lane ->
       exists added : list Obstacle,
         nth_error (lanes street') i
         = Some (mkLane (Lane_direction lane) (laneWidth lane) (streetLength lane)
                        (centerY lane) (lineStyle lane) (obstacleProducers lane)
                        (Lane_obstacles lane ++ added))
         /\ (List.length added <= List.length (obstacleProducers lane))%nat
         /\ (Z.of_nat i <> drawnLaneIndex street w
             \/ (15 <= List.length (Lane_obstacles lane))%nat ->
             added = []).
Proof.
  intros Hrun.
  destruct (generateObstacles_generated _ _ _ _ _ Hrun)
    as (Htop & Hlength & Hscene & Hcount & Hlanes).
  repeat (split; [assumption|]).
  intros i lane Hlane.
  destruct (Hlanes i lane Hlane) as (lane' & Hlane' & added & -> & Hadded & Hnone & _).
  exists added. split; [exact Hlane'|]. split; [exact Hadded | exact Hnone].
Qed.

Lemma generateObstacles_appends_witness :
  exists (street' : Street) (w' : World) (added : list Obstacle),
    generateObstacles trafficStreet (pedestrian 0 1000) sceneWorld
    = (Returned street', w')
    /\ sceneObjects street' = sceneObjects trafficStreet
    /\ nth_error (lanes street') 0
       = Some (mkLane LEFT 120 600 (0 + 0 + 120 / 2) defaultLines
                      [carProducer false; targetProducer] added)
    /\ (List.length added <= 2)%nat.
Proof.
  destruct (generateObstacles trafficStreet (pedestrian 0 1000) sceneWorld)
    as [[street'|message] w'] eqn:Erun; [|vm_compute in Erun; discriminate].
  destruct (generateObstacles_appends _ _ _ _ _ Erun)
    as (_ & _ & Hscene & _ & Hlanes).
  destruct (Hlanes 0%nat _ eq_refl) as (added & Hlane & Hadded & _).
  exists street', w', added. split; [reflexivity|].
  split; [exact Hscene|]. split; [exact Hlane | exact Hadded].
Defined.

(** X15: every obstacle that a lane holds after [generateObstacles] and
    did not hold before is a clone of the template of one of the producers
    of that lane; it is at the x of the template when the producer does not
    assign x, and otherwise, for a template whose width is not negative, at
    least 50 beyond the end of the street by which traffic enters the lane:
    at [streetLength + 50] or more in a lane going left, at [-50] or less
    in a lane going right. *)
Theorem generateObstacles_spawns_off_canvas (street street' : Street)
    (player : Player) (w w' : World) (i : nat) (lane lane' : Lane) (o : Obstacle) :
  generateObstacles street player w = (Returned street', w') ->
  nth_error (lanes street) i = Some lane ->
  nth_error (lanes street') i = Some lane' ->
  In o (Lane_obstacles lane') ->
  In o (Lane_obstacles lane)
  \/ exists producer,
       In producer (obstacleProducers lane)
       /\ cloneOf (template producer) o
       /\ (assignX producer = false -> x o = x (template producer))
       /\ (assignX producer = true -> 0 <= width (template producer) ->
           match Lane_direction lane with
           | LEFT => streetLength lane + 50 <= x o
           | RIGHT => x o <= - 50
           end).
Proof.
  intros Hrun Hlane Hlane' Hin.
  destruct (generateObstacles_generated _ _ _ _ _ Hrun) as (_ & _ & _ & _ & Hlanes).
  destruct (Hlanes i lane Hlane) as (lane1 & Hlane1 & added & -> & _ & _ & Hspawned).
  rewrite Hlane1 in Hlane'. injection Hlane' as <-.
  cbn [Lane_obstacles] in Hin. apply in_app_or in Hin.
  destruct Hin as [Hold|Hnew]; [now left | right].
  rewrite Forall_forall in Hspawned.
  destruct (Hspawned o Hnew) as (producer & Hproducer & Hclone & Hkeep & Hassign).
  exists producer. split; [exact Hproducer|]. split; [exact Hclone|].
  split; [exact Hkeep|].
  intros Hx Hwidth. specialize (Hassign Hx Hwidth).
  unfold entryX in Hassign. destruct (Lane_direction lane); exact Hassign.
Qed.

Lemma generateObstacles_spawns_off_canvas_witness :
  exists (street' : Street) (w' : World) (lane' : Lane) (o : Obstacle),
    generateObstacles trafficStreet (pedestrian 0 1000) sceneWorld
    = (Returned street', w')
    /\ nth_error (lanes street') 0 = Some lane'
    /\ In o (Lane_obstacles lane')
    /\ exists producer,
         In producer [carProducer false; targetProducer]
         /\ cloneOf (template producer) o
         /\ (assignX producer = true -> 0 <= width (template producer) ->
             600 + 50 <= x o).
Proof.
  eexists. eexists. eexists. eexists.
  split; [vm_compute; reflexivity|].
  split; [reflexivity|].
  split; [left; reflexivity|].
  match goal with
  | |- exists producer, _ /\ cloneOf _ ?o /\ _ =>
      destruct (generateObstacles_spawns_off_canvas
                  trafficStreet _ (pedestrian 0 1000) sceneWorld _ 0%nat _ _ o
                  ltac:(vm_compute; reflexivity) eq_refl eq_refl
                  (or_introl eq_refl))
        as [[]|(producer & Hproducer & Hclone & _ & Hassign)]
  end.
  exists producer. split; [exact Hproducer|]. split; [exact Hclone | exact Hassign].
Defined.

Lemma readyForNext_throwFree (producer : ObstacleProducer) (objects : list Entity)
    (w : World) :
  throwFree objects producer ->
  exists ready : bool,
    readyForNext producer objects w = (Returned ready, clockRead w).
Proof.
  unfold throwFree, readyForNext, TargetObstacleProducer_readyForNext,
    CrosswalkObstacleProducer_readyForNext, bind.
  destruct (producerClass producer); rewrite ?ObstacleProducer_readyForNext_run;
    intros Hfree.
  - eexists. reflexivity.
  - destruct (timeGatePassed producer w); [|eexists; reflexivity].
    destruct (findInstance instanceofPlayer objects) eqn:Eplayer;
      [eexists; reflexivity|].
    apply findInstance_Player_none in Eplayer. congruence.
  - destruct (timeGatePassed producer w); [|eexists; reflexivity].
    destruct (findInstance instanceofCrosswalkSign objects) eqn:Esign;
      [eexists; reflexivity|].
    apply findInstance_CrosswalkSign_none in Esign. congruence.
Qed.

Lemma produce_returns (x0 : Q) (objects : list Entity) (randomProducerIndex : Z)
    (lane : Lane) (index : nat) (producer : ObstacleProducer) (w : World) :
  throwFree objects producer ->
  exists (lane' : Lane) (w' : World),
    produce x0 objects randomProducerIndex lane index producer w
    = (Returned lane', w').
Proof.
  intros Hfree.
  destruct (fires producer objects randomProducerIndex index w) eqn:Efires.
  - destruct (produce_fires x0 objects randomProducerIndex lane index producer w
                            Efires)
      as (k & w' & Hrun).
    eexists. exists w'. exact Hrun.
  - destruct (readyForNext_throwFree producer objects w Hfree) as (ready & Hready).
    unfold fires in Efires. rewrite Hready in Efires. cbn [fst] in Efires.
    unfold produce, bind. rewrite Hready.
    destruct ready; [rewrite Efires|]; eexists; eexists; reflexivity.
Qed.

Lemma forEachProducer_returns (x0 : Q) (objects : list Entity)
    (randomProducerIndex : Z) (producers : list ObstacleProducer) :
  Forall (throwFree objects) producers ->
  forall (index : nat) (lane : Lane) (w : World),
    exists (lane' : Lane) (w' : World),
      forEachProducer x0 objects randomProducerIndex producers index lane w
      = (Returned lane', w').
Proof.
  induction 1 as [|producer rest Hfree _ IH]; intros index lane w.
  - eexists. eexists. reflexivity.
  - destruct (produce_returns x0 objects randomProducerIndex lane index producer w
                              Hfree)
      as (lane1 & w1 & Hproduce).
    cbn [forEachProducer]. unfold bind. rewrite Hproduce. apply IH.
Qed.

Lemma mapLanes_returns (this : Street) (player : Player) (randomLaneIndex : Z)
    (lanes0 : list Lane) :
  Forall (fun lane =>
            Forall (throwFree (map AnObstacle (Lane_obstacles lane)
                               ++ sceneObjects this ++ [APlayer player]))
                   (obstacleProducers lane))
         lanes0 ->
  forall (start : nat) (w : World),
    exists (newLanes : list Lane) (w' : World),
      mapLanes this player randomLaneIndex lanes0 start w = (Returned newLanes, w').
Proof.
  induction 1 as [|lane rest Hfree _ IH]; intros start w.
  - eexists. eexists. reflexivity.
  - cbn [mapLanes]. unfold bind.
    assert (Hlane : exists lane' w1,
               generateInLane this player randomLaneIndex lane start w
               = (Returned lane', w1)).
    { unfold generateInLane.
      destruct (Z.eqb (Z.of_nat start) randomLaneIndex);
        [|eexists; eexists; reflexivity].
      destruct (Nat.ltb (List.length (Lane_obstacles lane)) maxPerLane);
        [|eexists; eexists; reflexivity].
      unfold bind, randomIndex, bind, Math_random, ret.
      now apply forEachProducer_returns. }
    destruct Hlane as (lane' & w1 & ->).
    destruct (IH (S start) w1) as (rest' & w2 & ->).
    eexists. eexists. reflexivity.
Qed.

(** X16: [generateObstacles] returns, without an error, on every street
    where each lane with a crosswalk producer comes with a crosswalk sign
    among the scene objects: a target producer never throws there, as the
    player always is among the objects that the producers are given. *)
Theorem generateObstacles_returns (street : Street) (player : Player) (w : World) :
  (forall lane producer,
     In lane (lanes street) ->
     In producer (obstacleProducers lane) ->
     producerClass producer = CrosswalkObstacleProducerClass ->
     existsb isCrosswalkSign (sceneObjects street) = true) ->
  exists (street' : Street) (w' : World),
    generateObstacles street player w = (Returned street', w').
Proof.
  intros Hsigns.
  unfold generateObstacles, bind, randomIndex, bind, Math_random, ret.
  match goal with
  | |- context [mapLanes ?s ?p ?r ?l ?n ?w0] =>
      destruct (mapLanes_returns s p r l) with (start := n) (w := w0)
        as (newLanes & w1 & ->)
  end.
  - rewrite Forall_forall. intros lane Hlane.
    rewrite Forall_forall. intros producer Hproducer.
    unfold throwFree. destruct (producerClass producer) eqn:Eclass; [exact I| |].
    + rewrite !existsb_app. cbn. now rewrite !orb_true_r.
    + rewrite !existsb_app, (Hsigns lane producer Hlane Hproducer Eclass).
      now rewrite orb_true_r.
  - eexists. eexists. reflexivity.
Qed.

Lemma generateObstacles_returns_witness :
  exists (street' : Street) (w' : World),
    generateObstacles trafficStreet (pedestrian 0 1000) sceneWorld
    = (Returned street', w').
Proof.
  apply generateObstacles_returns.
  intros lane producer [<-|[]] [<-|[<-|[]]]; discriminate.
Defined.

Lemma findInstance_app {A : Type} (instanceofC : Entity -> option A)
    (front back : list Entity) :
  findInstance instanceofC (front ++ back)
  = match findInstance instanceofC front with
    | Some a => Some a
    | None => findInstance instanceofC back
    end.
Proof.
  induction front as [|e rest IH]; cbn; [reflexivity|].
  destruct (instanceofC e); [reflexivity | exact IH].
Qed.

Lemma findInstance_obstacles {A : Type} (instanceofC : Entity -> option A)
    (obstacles : list Obstacle) :
  (forall o, instanceofC (AnObstacle o) = None) ->
  findInstance instanceofC (map AnObstacle obstacles) = None.
Proof.
  intros Hnone. induction obstacles as [|o rest IH]; cbn; [reflexivity|].
  now rewrite Hnone.
Qed.

(** A producer whose gate is closed does not fire. *)
Lemma gateClosed_idle (street : Street) (player : Player)
    (producer : ObstacleProducer) (obstacles : list Obstacle)
    (randomProducerIndex : Z) (index : nat) (w : World) :
  gateClosed street player producer ->
  fires producer (map AnObstacle obstacles ++ sceneObjects street ++ [APlayer player])
        randomProducerIndex index w
  = false.
Proof.
  unfold gateClosed, fires, readyForNext, TargetObstacleProducer_readyForNext,
    CrosswalkObstacleProducer_readyForNext, bind.
  destruct (producerClass producer); rewrite ?ObstacleProducer_readyForNext_run;
    [intros [] | |].
  - intros (found & Hfound & Hoff).
    destruct (timeGatePassed producer w); [|reflexivity].
    rewrite findInstance_app, findInstance_obstacles by reflexivity.
    rewrite Hfound. cbn. now rewrite Hoff.
  - intros (sign & Hsign & Hdark).
    destruct (timeGatePassed producer w); [|reflexivity].
    rewrite findInstance_app, findInstance_obstacles by reflexivity.
    rewrite findInstance_app, Hsign. cbn. now rewrite Hdark.
Qed.

Lemma forEachProducer_idle (x0 : Q) (objects : list Entity)
    (randomProducerIndex : Z) (producers : list ObstacleProducer) :
  (forall producer index w,
     In producer producers ->
     fires producer objects randomProducerIndex index w = false) ->
  forall (index : nat) (lane lane' : Lane) (w w' : World),
    forEachProducer x0 objects randomProducerIndex producers index lane w
    = (Returned lane', w') ->
    lane' = lane.
Proof.
  induction producers as [|producer rest IH]; intros Hidle index lane lane' w w' Hrun.
  - cbn in Hrun. now injection Hrun as <- _.
  - cbn [forEachProducer] in Hrun. unfold bind in Hrun.
    destruct (produce_idle x0 objects randomProducerIndex lane index producer w
                           (Hidle producer index w (or_introl eq_refl)))
      as [_ [Hsame|[message Hthrown]]].
    + rewrite Hsame in Hrun. eapply IH; [|exact Hrun].
      intros p i w0 Hin. apply Hidle. now right.
    + rewrite Hthrown in Hrun. discriminate.
Qed.

Lemma generateInLane_idle (this : Street) (player : Player) (randomLaneIndex : Z)
    (lane lane' : Lane) (index : nat) (w w' : World) :
  (forall producer, In producer (obstacleProducers lane) ->
                    gateClosed this player producer) ->
  generateInLane this player randomLaneIndex lane index w = (Returned lane', w') ->
  lane' = lane.
Proof.
  intros Hclosed. unfold generateInLane.
  destruct (Z.eqb (Z.of_nat index) randomLaneIndex);
    [|intros [= <- _]; reflexivity].
  destruct (Nat.ltb (List.length (Lane_obstacles lane)) maxPerLane);
    [|intros [= <- _]; reflexivity].
  unfold bind, randomIndex, bind, Math_random, ret.
  apply forEachProducer_idle.
  intros producer i w0 Hin. apply gateClosed_idle. now apply Hclosed.
Qed.

Lemma mapLanes_idle (this : Street) (player : Player) (randomLaneIndex : Z)
    (lanes0 : list Lane) :
  forall (start : nat) (w w' : World) (newLanes : list Lane),
    mapLanes this player randomLaneIndex lanes0 start w = (Returned newLanes, w') ->
    forall (i : nat) (lane : Lane),
      nth_error lanes0 i = Some lane ->
      (forall producer, In producer (obstacleProducers lane) ->
                        gateClosed this player producer) ->
      nth_error newLanes i = Some lane.
Proof.
  induction lanes0 as [|lane0 rest IH]; intros start w w' newLanes Hrun i lane Hlane.
  - destruct i; discriminate.
  - cbn [mapLanes] in Hrun. unfold bind in Hrun.
    destruct (generateInLane this player randomLaneIndex lane0 start w)
      as [[lane0'|message] w1] eqn:Efirst; [|discriminate].
    destruct (mapLanes this player randomLaneIndex rest (S start) w1)
      as [[rest'|message] w2] eqn:Erest; [|discriminate].
    cbn in Hrun. injection Hrun as <- _. intros Hclosed.
    destruct i as [|i]; cbn [nth_error] in *.
    + injection Hlane as <-.
      now rewrite (generateInLane_idle _ _ _ _ _ _ _ _ Hclosed Efirst).
    + exact (IH _ _ _ _ Erest i lane Hlane Hclosed).
Qed.

(** X17: while the gates of all the producers of a lane are closed (every
    producer of the lane is a target producer whose target the player is
    off, or a crosswalk producer while the first crosswalk sign of the
    street is dark), [generateObstacles] leaves that lane as it is,
    whichever lane is drawn and however long the producers have waited. *)
Theorem closed_gates_produce_nothing (street street' : Street) (player : Player)
    (w w' : World) (i : nat) (lane : Lane) :
  generateObstacles street player w = (Returned street', w') ->
  nth_error (lanes street) i = Some lane ->
  (forall producer, In producer (obstacleProducers lane) ->
                    gateClosed street player producer) ->
  nth_error (lanes street') i = Some lane.
Proof.
  unfold generateObstacles, bind, randomIndex, bind, Math_random, ret.
  intros Hrun Hlane Hclosed.
  match type of Hrun with
  | context [mapLanes ?s ?p ?r ?l ?n ?w0] =>
      destruct (mapLanes s p r l n w0) as [[newLanes|message] w1] eqn:Elanes;
      [|discriminate]
  end.
  injection Hrun as <- _. cbn [lanes Street_clone].
  exact (mapLanes_idle _ _ _ _ _ _ _ _ Elanes i lane Hlane Hclosed).
Qed.

Lemma closed_gates_produce_nothing_witness :
  exists (street' : Street) (w' : World),
    generateObstacles gatedStreet (pedestrian 0 1000) (worldAt 200000000 200000000)
    = (Returned street', w')
    /\ nth_error (lanes street') 0 = nth_error (lanes gatedStreet) 0.
Proof.
  destruct (generateObstacles gatedStreet (pedestrian 0 1000)
                              (worldAt 200000000 200000000))
    as [[street'|message] w'] eqn:Erun; [|vm_compute in Erun; discriminate].
  exists street', w'. split; [reflexivity|].
  apply (closed_gates_produce_nothing _ _ _ _ _ 0%nat _ Erun eq_refl).
  intros producer [<-|[<-|[]]].
  - eexists. split; reflexivity.
  - eexists. split; reflexivity.
Defined.

(** ** The crosswalk sign over time *)

Lemma new_CrosswalkSign_appearance (x0 y0 : Q) (direction0 : LaneDirection)
    (crosswalk0 : GameObject) (flashing0 flashingSequence0 : bool)
    (timestamp : Z) (notFlashingImage0 flashingImage0 : Image)
    (w w' : World) (sign : CrosswalkSign) :
  new_CrosswalkSign x0 y0 direction0 crosswalk0 flashing0 flashingSequence0
                    timestamp notFlashingImage0 flashingImage0 w
  = (Returned sign, w') ->
  signAppearance sign.
Proof.
  unfold new_CrosswalkSign, bind, newRef, ret. intros [= <- _].
  unfold signAppearance. cbn. now destruct flashing0.
Qed.

Lemma signTick_appearance (this after : CrosswalkSign) :
  signAppearance this -> signTick this after ->
  signAppearance after /\ sameSignPlace this after.
Proof.
  intros Happearance [others w w' updated Hupdate].
  destruct (toggles this others w) eqn:Etoggles.
  - rewrite (update_toggles this others w Etoggles) in Hupdate.
    injection Hupdate as <- _. split.
    + unfold signAppearance. cbn. repeat split.
    + unfold sameSignPlace. cbn. repeat split.
  - destruct (update_rests this others w Etoggles) as (w1 & Hrest).
    rewrite Hrest in Hupdate. injection Hupdate as <- _.
    split; [exact Happearance|]. unfold sameSignPlace. repeat split.
Qed.

(** X18: a sign built by the constructor keeps, through any number of
    updates, its place, its direction, its crosswalk and its two images,
    and its appearance stays the one that the constructor derives from the
    flags: it shows the flashing image iff it is flashing, it is turned
    upside down iff it is flashing in the sequence [false], whatever its
    direction, and a dark sign is never flipped. *)
Theorem sign_appearance_kept (x0 y0 : Q) (direction0 : LaneDirection)
    (crosswalk0 : GameObject) (flashing0 flashingSequence0 : bool)
    (timestamp : Z) (notFlashingImage0 flashingImage0 : Image)
    (w w' : World) (built sign : CrosswalkSign) :
  new_CrosswalkSign x0 y0 direction0 crosswalk0 flashing0 flashingSequence0
                    timestamp notFlashingImage0 flashingImage0 w
  = (Returned built, w') ->
  afterUpdates built sign ->
  x sign = x0 /\ y sign = y0
  /\ CrosswalkSign_direction sign = direction0
  /\ crosswalk sign = crosswalk0
  /\ width sign = getImageWidth /\ height sign = getImageHeight
  /\ image sign = Some (if flashing sign then flashingImage0 else notFlashingImage0)
  /\ (angle sign = AnglePi <-> flashing sign = true /\ flashingSequence sign = false)
  /\ (flashing sign = false -> flipHorizontally sign = false).
Proof.
  intros Hbuilt Hupdates.
  assert (Hinv : signAppearance sign /\ sameSignPlace built sign).
  { induction Hupdates as [|s after _ [IHa IHp] Htick].
    - split; [exact (new_CrosswalkSign_appearance _ _ _ _ _ _ _ _ _ _ _ _ Hbuilt)|].
      unfold sameSignPlace. repeat split.
    - destruct (signTick_appearance s after IHa Htick) as [Ha Hp].
      split; [exact Ha|].
      unfold sameSignPlace in *. intuition congruence. }
  destruct Hinv as [(Hwidth & Hheight & Himage & Hflip & Hangle)
                      (Hx & Hy & Hdirection & Hcrosswalk & Hdark & Hlit)].
  unfold new_CrosswalkSign, bind, newRef, ret in Hbuilt.
  injection Hbuilt as <- _. cbn in Hx, Hy, Hdirection, Hcrosswalk, Hdark, Hlit.
  rewrite Hdark, Hlit in Himage.
  repeat (split; [assumption|]).
  rewrite Hangle, Hflip. unfold calculateAngle, calculateFlipHorizontal. split.
  - destruct (flashing sign), (flashingSequence sign),
      (CrosswalkSign_direction sign); cbn; intuition discriminate.
  - now intros ->.
Qed.

Lemma sign_appearance_kept_witness :
  exists (built sign : CrosswalkSign) (w1 w2 : World),
    new_CrosswalkSign 100 0 RIGHT (box 6 100 0 40 400) false false 0
                      "images/scene/crosswalk-sign.png"%string
                      "images/scene/crosswalk-sign-flashing.png"%string sceneWorld
    = (Returned built, w1)
    /\ update built [APlayer (pedestrian 110 50)] w1 = (Returned sign, w2)
    /\ flashing sign = true
    /\ x sign = 100
    /\ image sign = Some "images/scene/crosswalk-sign-flashing.png"%string
    /\ angle sign = AngleZero.
Proof.
  destruct (new_CrosswalkSign 100 0 RIGHT (box 6 100 0 40 400) false false 0
                              "images/scene/crosswalk-sign.png"%string
                              "images/scene/crosswalk-sign-flashing.png"%string
                              sceneWorld)
    as [[built|message] w1] eqn:Ebuilt; [|vm_compute in Ebuilt; discriminate].
  destruct (update built [APlayer (pedestrian 110 50)] w1)
    as [[sign|message] w2] eqn:Eupdate.
  2: { exfalso. vm_compute in Ebuilt. injection Ebuilt as <- <-.
       vm_compute in Eupdate. discriminate. }
  exists built, sign, w1, w2. split; [reflexivity|]. split; [exact Eupdate|].
  destruct (sign_appearance_kept
              _ _ _ _ _ _ _ _ _ _ _ _ _ Ebuilt
              (afterUpdates_more _ _ _ (afterUpdates_none _)
                                 (signTick_update _ _ _ _ _ Eupdate)))
    as (Hx & _ & _ & _ & _ & _ & Himage & Hangle & _).
  assert (Hlit : flashing sign = true /\ flashingSequence sign = true).
  { vm_compute in Ebuilt. injection Ebuilt as <- <-.
    vm_compute in Eupdate. injection Eupdate as <- _. split; reflexivity. }
  destruct Hlit as [Hlit Hsequence]. rewrite Hlit in Himage.
  split; [exact Hlit|]. split; [exact Hx|]. split; [exact Himage|].
  destruct (angle sign); [reflexivity|].
  destruct Hangle as [Hturned _]. destruct (Hturned eq_refl) as [_ Hfalse].
  congruence.
Defined.

(** X19: under a clock that never runs backwards, an update that returns
    another sign than the one it is called on stamps it more than 500 ms
    after the stamp of the latter: the beacons of a sign never switch twice
    within the flash interval, although the stamp is a second reading of
    the clock. *)
Theorem sign_toggles_spaced (this after : CrosswalkSign) (others : list Entity)
    (w w' : World) :
  monotoneClock w ->
  update this others w = (Returned after, w') ->
  after = this
  \/ (500 < timestampOfPreviousFlash after - timestampOfPreviousFlash this)%Z
     /\ flashingSequence after = negb (flashingSequence this)
     /\ oid after = nextRef w.
Proof.
  intros Hclock Hupdate.
  destruct (toggles this others w) eqn:Etoggles.
  - right. rewrite (update_toggles this others w Etoggles) in Hupdate.
    injection Hupdate as <- _. cbn. split; [|split; reflexivity].
    unfold toggles, sinceLastFlash in Etoggles.
    apply andb_true_iff in Etoggles. destruct Etoggles as [_ Hdue].
    apply Z.ltb_lt in Hdue.
    pose proof (Hclock (dateNowCalls w) (S (dateNowCalls w)) (Nat.le_succ_diag_r _)).
    lia.
  - left. destruct (update_rests this others w Etoggles) as (w1 & Hrest).
    rewrite Hrest in Hupdate. now injection Hupdate as <- _.
Qed.

Lemma sign_toggles_spaced_witness :
  exists (after : CrosswalkSign) (w' : World),
    update (signAt true false 0) [] (worldAt 501 502) = (Returned after, w')
    /\ after <> signAt true false 0
    /\ (500 < timestampOfPreviousFlash after - 0)%Z.
Proof.
  assert (Hclock : monotoneClock (worldAt 501 502)).
  { intros [|i] [|j] Hij; cbn; lia. }
  destruct (update (signAt true false 0) [] (worldAt 501 502))
    as [[after|message] w'] eqn:Eupdate; [|vm_compute in Eupdate; discriminate].
  exists after, w'. split; [reflexivity|].
  assert (Hother : after <> signAt true false 0).
  { vm_compute in Eupdate. injection Eupdate as <- _. discriminate. }
  split; [exact Hother|].
  destruct (sign_toggles_spaced _ _ _ _ _ Hclock Eupdate) as [Hsame|[Hgap _]];
    [contradiction | exact Hgap].
Defined.

(** X20: a dark sign stays the very same object, and the clock is not even
    read, over any number of frames in which no player stands in its
    crosswalk. *)
Theorem dark_sign_waits (this : CrosswalkSign) (frames : list (list Entity))
    (w : World) :
  flashing this = false ->
  Forall (fun others => playerInCrosswalk this others = false) frames ->
  updates this frames w = (Returned this, w).
Proof.
  intros Hdark Haway. induction Haway as [|others rest Hothers _ IH].
  - reflexivity.
  - cbn [updates]. unfold bind.
    assert (Hupdate : update this others w = (Returned this, w)).
    { unfold update. cbv zeta. unfold playerInCrosswalk in Hothers.
      now rewrite Hdark, Hothers. }
    rewrite Hupdate. exact IH.
Qed.

Lemma dark_sign_waits_witness :
  updates (signAt false false 0)
          [[APlayer (pedestrian 0 1000)]; []; [APlayer (pedestrian 500 50)]]
          (worldAt 501 502)
  = (Returned (signAt false false 0), worldAt 501 502).
Proof.
  apply dark_sign_waits; [reflexivity|].
  repeat constructor.
Defined.
